(** * bq: a single-producer/single-consumer byte ring buffer

    Shallow embedding of [bq.h] and of the producer/consumer protocol
    that [test.c] drives it with, followed by the properties of the
    length computations, of construction, and of byte conservation. *)

From Stdlib Require Import ZArith List Lia Bool.
From Stdlib Require Import Init.Byte.
From Stdlib Require Strings.Byte.
Import ListNotations.
Local Open Scope Z_scope.

(** ** Machine integers

    [size_t] is a 64-bit unsigned integer ([bq_make] shifts it by 32, and
    [1UL] is as wide).  A value is a [Z] in [[0, 2^64)]; every arithmetic
    operation of the source is followed by its reduction modulo [2^64]. *)

Module SizeT.

Definition bits : Z := 64.
Definition modulus : Z := 2 ^ bits.
Definition max : Z := modulus - 1.

Definition wrap (x : Z) : Z := x mod modulus.

Definition add (a b : Z) : Z := wrap (a + b).
Definition sub (a b : Z) : Z := wrap (a - b).
Definition mul (a b : Z) : Z := wrap (a * b).
Definition shl (a n : Z) : Z := wrap (Z.shiftl a n).
Definition shr (a n : Z) : Z := Z.shiftr a n.
Definition and (a b : Z) : Z := Z.land a b.

Definition in_range (x : Z) : Prop := 0 <= x < modulus.

End SizeT.

(** [unsigned char] arithmetic, for [msb]. *)
Module UChar.

Definition modulus : Z := 256.
Definition add (a b : Z) : Z := (a + b) mod modulus.

End UChar.

Declare Scope size_scope.
Delimit Scope size_scope with sz.
(** Operands of a [size_t] operation are [size_t] expressions too. *)
Arguments SizeT.add (a b)%_sz.
Arguments SizeT.sub (a b)%_sz.
Arguments SizeT.mul (a b)%_sz.
Arguments SizeT.shl (a n)%_sz.
Arguments SizeT.shr (a n)%_sz.
Arguments SizeT.and (a b)%_sz.

Infix "+" := SizeT.add : size_scope.
Infix "-" := SizeT.sub : size_scope.
Infix "*" := SizeT.mul : size_scope.
Infix ">>" := SizeT.shr (at level 30, no associativity) : size_scope.
Infix "<<" := SizeT.shl (at level 30, no associativity) : size_scope.
Infix "&" := SizeT.and (at level 40, left associativity) : size_scope.

(** ** Pointers and memory

    A pointer is an address; [NULL] is address 0.  Memory maps addresses
    to bytes.  [memcpy] and a read of [count] bytes are what the producer
    and the consumer do with the slices the queue hands out. *)

Definition ptr : Type := Z.
Definition NULL : ptr := 0.
Definition memory : Type := ptr -> byte.

Definition store_byte (m : memory) (a : ptr) (b : byte) : memory :=
  fun a' => if a' =? a then b else m a'.

Fixpoint memcpy (m : memory) (dst : ptr) (src : list byte) : memory :=
  match src with
  | [] => m
  | b :: src' => memcpy (store_byte m dst b) (dst + 1) src'
  end.

Fixpoint read_bytes (m : memory) (a : ptr) (count : nat) : list byte :=
  match count with
  | O => []
  | S n => m a :: read_bytes m (a + 1) n
  end.

(** ** The queue structure *)

Record bq : Type := mk_bq {
  head : Z;
  tail : Z;
  mask : Z;
  cap_lg2 : Z;
  data : ptr
}.

(** [(bq){0}] *)
Definition bq_zero : bq :=
  {| head := 0; tail := 0; mask := 0; cap_lg2 := 0; data := NULL |}.

Definition set_head (q : bq) (v : Z) : bq :=
  {| head := v; tail := tail q; mask := mask q; cap_lg2 := cap_lg2 q;
     data := data q |}.

Definition set_tail (q : bq) (v : Z) : bq :=
  {| head := head q; tail := v; mask := mask q; cap_lg2 := cap_lg2 q;
     data := data q |}.

(** ** Access through [bq *q]

    The four operations take a pointer to the queue.  They are modelled
    in a state monad over the pointed-to structure, so that what each
    operation reads and what it writes is explicit. *)

Definition M (A : Type) : Type := bq -> A * bq.

Definition ret {A : Type} (a : A) : M A := fun q => (a, q).

Definition bind {A B : Type} (c : M A) (k : A -> M B) : M B :=
  fun q => let (a, q') := c q in k a q'.

Notation "x <- c ;; k" := (bind c (fun x => k))
  (at level 61, c at next level, right associativity).

(** A plain read of a field, [q->f]. *)
Definition field (f : bq -> Z) : M Z := fun q => (f q, q).

(** [__atomic_load_n(&q->f, __ATOMIC_ACQUIRE)] *)
Definition atomic_load_n (f : bq -> Z) : M Z := fun q => (f q, q).

(** [__atomic_store_n(&q->head, v, __ATOMIC_RELEASE)] and the same for
    [tail]. *)
Definition atomic_store_head (v : Z) : M unit := fun q => (tt, set_head q v).
Definition atomic_store_tail (v : Z) : M unit := fun q => (tt, set_tail q v).

(** ** [bq_make] *)

(** One line [if (len >> s) { len >>= s; msb += s; }] on the pair
    [(len, msb)]. *)
Definition msb_step (s : Z) (st : Z * Z) : Z * Z :=
  let (len, msb) := st in
  if (len >> s)%sz =? 0 then (len, msb)
  else ((len >> s)%sz, UChar.add msb s).

(** The last line, [if (len >> 1) { msb += 1; }]. *)
Definition msb_last (st : Z * Z) : Z :=
  let (len, msb) := st in
  if (len >> 1)%sz =? 0 then msb else UChar.add msb 1.

Definition msb_of (len : Z) : Z :=
  msb_last
    (msb_step 2 (msb_step 4 (msb_step 8 (msb_step 16 (msb_step 32 (len, 0)))))).

Definition bq_make (buf : ptr) (len : Z) : bq :=
  if (buf =? NULL) || (len =? 0) then bq_zero
  else
    let msb := msb_of len in
    {| head := 0; tail := 0; mask := ((1 << msb) - 1)%sz;
       cap_lg2 := msb; data := buf |}.

(** ** The four operations *)

(** [bq_popbuf]: the returned pair is the returned pointer and the value
    stored in [*len]. *)
Definition bq_popbuf : M (ptr * Z) :=
  tail <- atomic_load_n tail ;;
  head <- field head ;;
  mask <- field mask ;;
  cap_lg2 <- field cap_lg2 ;;
  data <- field data ;;
  let cond := (((tail >> cap_lg2) - (head >> cap_lg2)) & 1)%sz in
  let len := (tail - head - (tail & mask) * cond)%sz in
  ret (data + (head & mask)%sz, len).

Definition bq_pop (count : Z) : M unit :=
  head <- field head ;;
  atomic_store_head (head + count)%sz.

Definition bq_pushbuf : M (ptr * Z) :=
  head <- atomic_load_n head ;;
  tail <- field tail ;;
  mask <- field mask ;;
  cap_lg2 <- field cap_lg2 ;;
  data <- field data ;;
  let cond := (((tail >> cap_lg2) - (head >> cap_lg2)) & 1)%sz in
  let len := (mask + 1 - (tail - head) - (head & mask) * (1 - cond))%sz in
  ret (data + (tail & mask)%sz, len).

Definition bq_push (count : Z) : M unit :=
  tail <- field tail ;;
  atomic_store_tail (tail + count)%sz.

(** Projections of a query's result. *)
Definition popbuf_ptr (q : bq) : ptr := fst (fst (bq_popbuf q)).
Definition popbuf_len (q : bq) : Z := snd (fst (bq_popbuf q)).
Definition pushbuf_ptr (q : bq) : ptr := fst (fst (bq_pushbuf q)).
Definition pushbuf_len (q : bq) : Z := snd (fst (bq_pushbuf q)).
Definition after {A : Type} (c : M A) (q : bq) : bq := snd (c q).

(** Capacity as the operations see it, [q->mask + 1]. *)
Definition capacity (q : bq) : Z := (mask q + 1)%sz.

(** Bytes held, [tail - head] in [size_t] arithmetic. *)
Definition used (q : bq) : Z := (tail q - head q)%sz.

(** A computation that only reads the structure. *)
Definition read_only {A : Type} (c : M A) : Prop :=
  forall q : bq, after c q = q.

(** ** Well-formed states and the invariant I1 *)

(** The shape [bq_make] establishes on a real buffer: [cap_lg2] is a
    valid shift count, [mask] is [2^cap_lg2 - 1], and the cursors are
    [size_t] values. *)
Record wf (q : bq) : Prop := mk_wf {
  wf_lg2 : 0 <= cap_lg2 q < SizeT.bits;
  wf_mask : mask q = 2 ^ cap_lg2 q - 1;
  wf_head : SizeT.in_range (head q);
  wf_tail : SizeT.in_range (tail q)
}.

(** I1: [tail - head], taken modulo [2^64], lies in [[0, capacity]]. *)
Definition I1 (q : bq) : Prop := 0 <= used q <= capacity q.

Definition is_empty (q : bq) : Prop := tail q = head q.
Definition is_full (q : bq) : Prop := used q = capacity q.

(** ** Producer and consumer

    The protocol of [producer_thread] and [consumer_thread] in [test.c],
    as a sequential interleaving of the four calls.  The producer asks
    for a write slice, copies bytes into it and commits them; the
    consumer asks for a read slice, reads from it and commits the count.
    Each side remembers the slice its last query returned. *)

Record sys : Type := mk_sys {
  queue : bq;
  mem : memory;
  wslice : option (ptr * Z);
  rslice : option (ptr * Z);
  committed : list byte;
  observed : list byte
}.

Inductive call : Type :=
| PushBuf
| Push (bytes : list byte)
| PopBuf
| Pop (count : Z).

(** One call.  [None] is a breach of the contract of [bq_push] or
    [bq_pop]: a commit with no query before it, or of more bytes than
    the query returned. *)
Definition step (s : sys) (c : call) : option sys :=
  match c with
  | PushBuf =>
      let (r, q') := bq_pushbuf (queue s) in
      Some {| queue := q'; mem := mem s; wslice := Some r;
              rslice := rslice s; committed := committed s;
              observed := observed s |}
  | Push bytes =>
      match wslice s with
      | Some (addr, len) =>
          let count := Z.of_nat (length bytes) in
          if count <=? len then
            let m' := memcpy (mem s) addr bytes in
            let (_, q') := bq_push count (queue s) in
            Some {| queue := q'; mem := m'; wslice := None;
                    rslice := rslice s;
                    committed := committed s ++ bytes;
                    observed := observed s |}
          else None
      | None => None
      end
  | PopBuf =>
      let (r, q') := bq_popbuf (queue s) in
      Some {| queue := q'; mem := mem s; wslice := wslice s;
              rslice := Some r; committed := committed s;
              observed := observed s |}
  | Pop count =>
      match rslice s with
      | Some (addr, len) =>
          if (0 <=? count) && (count <=? len) then
            let seen := read_bytes (mem s) addr (Z.to_nat count) in
            let (_, q') := bq_pop count (queue s) in
            Some {| queue := q'; mem := mem s; wslice := wslice s;
                    rslice := None; committed := committed s;
                    observed := observed s ++ seen |}
          else None
      | None => None
      end
  end.

Fixpoint run (s : sys) (calls : list call) : option sys :=
  match calls with
  | [] => Some s
  | c :: calls' =>
      match step s c with
      | Some s' => run s' calls'
      | None => None
      end
  end.

(** The bytes at [n] successive cursor positions from [cursor] on, each
    found at index [cursor & mask] of the storage. *)
Fixpoint ring_bytes (m : memory) (q : bq) (cursor : Z) (n : nat) : list byte :=
  match n with
  | O => []
  | S n' =>
      m (data q + (cursor & mask q)%sz) :: ring_bytes m q (cursor + 1)%sz n'
  end.

(** The bytes committed and not yet consumed, oldest first. *)
Definition stored (q : bq) (m : memory) : list byte :=
  ring_bytes m q (head q) (Z.to_nat (used q)).

(** A system that starts on queue [q] over memory [m]: what the queue
    holds counts as committed, nothing has been observed. *)
Definition start (q : bq) (m : memory) : sys :=
  {| queue := q; mem := m; wslice := None; rslice := None;
     committed := stored q m; observed := [] |}.

(** What the search for the most significant bit maintains on
    [(len, msb)]: [len] is the supplied length shifted right by [msb],
    and fits in [bound] bits. *)
Definition msb_good (L bound : Z) (st : Z * Z) : Prop :=
  let (len, msb) := st in
  0 < len < 2 ^ bound /\ 0 <= msb /\ msb + bound <= SizeT.bits /\
  len = L / 2 ^ msb.

(** A sequence of queries on a queue, and the pointer and length each
    one reports. *)
Inductive query : Type := AskPop | AskPush.

Definition ask (a : query) : M (ptr * Z) :=
  match a with
  | AskPop => bq_popbuf
  | AskPush => bq_pushbuf
  end.

Fixpoint ask_all (qs : list query) : M (list (query * (ptr * Z))) :=
  match qs with
  | [] => ret []
  | a :: qs' =>
      r <- ask a ;;
      rs <- ask_all qs' ;;
      ret ((a, r) :: rs)
  end.

(** What every reachable system satisfies: the queue is well formed and
    within I1, the committed bytes are the observed ones followed by the
    stored ones, and a slice a side still holds is the one the queue
    would hand out now, no longer than it. *)
Record inv (s : sys) : Prop := mk_inv {
  inv_wf : wf (queue s);
  inv_I1 : I1 (queue s);
  inv_bytes : committed s = observed s ++ stored (queue s) (mem s);
  inv_wslice : forall a l, wslice s = Some (a, l) ->
    a = pushbuf_ptr (queue s) /\ l <= pushbuf_len (queue s);
  inv_rslice : forall a l, rslice s = Some (a, l) ->
    a = popbuf_ptr (queue s) /\ l <= popbuf_len (queue s)
}.

(** ** The test driver, [test.c]

    The part of [producer_thread] and of [consumer_thread] that drives
    the [bq] queue: one pass of each thread's loop body over [bq_queue].
    The producer writes bytes whose values count down with the number of
    bytes left to produce; the consumer asserts that what it reads
    counts down the same way. *)

Definition BYTES_TO_PRODUCE : Z := 1024 * 1024 * 1024.
Definition QUEUE_SIZE : Z := 1024 * 1024.
Definition MAX_BYTES_PER_OP : Z := 1024.

(** [#define MIN(X,Y) ((X) < (Y) ? (X) : (Y))] *)
Definition MIN (X Y : Z) : Z := if X <? Y then X else Y.

(** [(uint8_t)x] *)
Definition uint8 (x : Z) : byte :=
  match Byte.of_N (Z.to_N (x mod 256)) with
  | Some b => b
  | None => x00
  end.

(** [for (size_t i = 0; i < count; i++) bytes[i] = bq_remaining - i;] *)
Definition fill_bytes (bq_remaining count : Z) : list byte :=
  map (fun i => uint8 (bq_remaining - Z.of_nat i)%sz)
      (seq 0 (Z.to_nat count)).

(** [for (size_t i = 0; i < count; i++)
       assert(addr[i] == (uint8_t)(bq_remaining--));]
    The result is the value [bq_remaining] is left with, or [None] when
    an assertion fails. *)
Fixpoint check_bytes (m : memory) (addr : ptr) (bq_remaining : Z) (count : nat)
  : option Z :=
  match count with
  | O => Some bq_remaining
  | S n =>
      if Byte.eqb (m addr) (uint8 bq_remaining)
      then check_bytes m (addr + 1) (bq_remaining - 1)%sz n
      else None
  end.

(** The queue, the memory its storage lies in, and the [bq_remaining]
    of each thread. *)
Record harness : Type := mk_harness {
  bq_queue : bq;
  heap : memory;
  producer_remaining : Z;
  consumer_remaining : Z
}.

(** [main]: the queue is made over the buffer, both counters start at
    the number of bytes to produce. *)
Definition harness_init (buf : ptr) (len total : Z) (m : memory) : harness :=
  {| bq_queue := bq_make buf len; heap := m;
     producer_remaining := total; consumer_remaining := total |}.

(** The [if (bq_remaining > 0)] block of [producer_thread]. *)
Definition producer_bq (st : harness) : harness :=
  let bq_remaining := producer_remaining st in
  if 0 <? bq_remaining then
    let count := MIN MAX_BYTES_PER_OP bq_remaining in
    let bytes := fill_bytes bq_remaining count in
    let (r, q1) := bq_pushbuf (bq_queue st) in
    let (addr, pushable) := r in
    let count := MIN count pushable in
    let m1 := memcpy (heap st) addr (firstn (Z.to_nat count) bytes) in
    let (_, q2) := bq_push count q1 in
    {| bq_queue := q2; heap := m1;
       producer_remaining := (bq_remaining - count)%sz;
       consumer_remaining := consumer_remaining st |}
  else st.

(** The [if (bq_remaining > 0)] block of [consumer_thread]; [None] is a
    failed assertion. *)
Definition consumer_bq (st : harness) : option harness :=
  let bq_remaining := consumer_remaining st in
  if 0 <? bq_remaining then
    let (r, q1) := bq_popbuf (bq_queue st) in
    let (addr, count) := r in
    let count := MIN count bq_remaining in
    let count := MIN count MAX_BYTES_PER_OP in
    match check_bytes (heap st) addr bq_remaining (Z.to_nat count) with
    | Some bq_remaining' =>
        let (_, q2) := bq_pop count q1 in
        Some {| bq_queue := q2; heap := heap st;
                producer_remaining := producer_remaining st;
                consumer_remaining := bq_remaining' |}
    | None => None
    end
  else Some st.

(** Whose loop body runs next. *)
Inductive turn : Type := Producer | Consumer.

Definition take_turn (st : harness) (t : turn) : option harness :=
  match t with
  | Producer => Some (producer_bq st)
  | Consumer => consumer_bq st
  end.

Fixpoint schedule (st : harness) (turns : list turn) : option harness :=
  match turns with
  | [] => Some st
  | t :: turns' =>
      match take_turn st t with
      | Some st' => schedule st' turns'
      | None => None
      end
  end.

(** [n] rounds in which the producer's body runs, then the consumer's. *)
Fixpoint rounds (n : nat) : list turn :=
  match n with
  | O => []
  | S n' => Producer :: Consumer :: rounds n'
  end.

(** What the driver keeps true: the consumer is behind the producer by
    what the queue holds, and the queue holds the countdown from the
    consumer's counter. *)
Record harness_inv (total : Z) (st : harness) : Prop := mk_harness_inv {
  hi_wf : wf (bq_queue st);
  hi_I1 : I1 (bq_queue st);
  hi_prod : 0 <= producer_remaining st <= total;
  hi_cons : consumer_remaining st =
            producer_remaining st + used (bq_queue st);
  hi_total : consumer_remaining st <= total;
  hi_bytes : stored (bq_queue st) (heap st) =
             fill_bytes (consumer_remaining st) (used (bq_queue st))
}.

(** ** The queue of [others/lfq.h]

    The same two cursors, with division and remainder by a [size] that
    is stored as given instead of shifts and a mask. *)

Module Lfq.

Record lfq : Type := mk_lfq {
  data : ptr;
  head : Z;
  tail : Z;
  size : Z
}.

Definition lfq_queue_init (buffer : ptr) (size : Z) : lfq :=
  {| data := buffer; size := size; head := 0; tail := 0 |}.

(** The result is the returned pointer and the value stored in [*len].
    [size_t] division and remainder are [/] and [mod]; the source
    divides by [q->size] unguarded. *)
Definition lfq_queue_get_push_buf (q : lfq) : ptr * Z :=
  let head := head q in
  let head_n_wrap := head / size q in
  let tail_n_wrap := tail q / size q in
  let len :=
    if head_n_wrap =? tail_n_wrap
    then (size q - (tail q mod size q))%sz
    else (size q - (tail q - head))%sz in
  (data q + tail q mod size q, len).

Definition lfq_queue_commit_push (q : lfq) (len : Z) : lfq :=
  {| data := data q; head := head q; tail := (tail q + len)%sz;
     size := size q |}.

Definition lfq_queue_get_pop_buf (q : lfq) : ptr * Z :=
  let tail := tail q in
  let head_n_wrap := head q / size q in
  let tail_n_wrap := tail / size q in
  let len :=
    if head_n_wrap =? tail_n_wrap
    then (tail - head q)%sz
    else (tail - head q - (tail mod size q))%sz in
  (data q + head q mod size q, len).

Definition lfq_queue_commit_pop (q : lfq) (len : Z) : lfq :=
  {| data := data q; head := (head q + len)%sz; tail := tail q;
     size := size q |}.

End Lfq.

(** The [lfq] with the cursors, the storage and the capacity of a [bq]. *)
Definition lfq_of_bq (q : bq) : Lfq.lfq :=
  {| Lfq.data := data q; Lfq.head := head q; Lfq.tail := tail q;
     Lfq.size := capacity q |}.

(** ** The queue of [others/vbq.h]

    A ring with wrapped indices and an element count, whose operations
    copy bytes in and out under a mutex.  The lock and unlock calls are
    taken to succeed, as the source asserts, and to do nothing else: the
    operations are modelled as they run in one thread.  The caller's
    array is a list of bytes: the source of a push, and what a pop has
    written to it. *)

Module Vbq.

Record vbq : Type := mk_vbq {
  data : ptr;
  head : Z;
  tail : Z;
  nelem : Z;
  size : Z
}.

Definition set_head (q : vbq) (v : Z) : vbq :=
  {| data := data q; head := v; tail := tail q; nelem := nelem q;
     size := size q |}.

Definition set_tail (q : vbq) (v : Z) : vbq :=
  {| data := data q; head := head q; tail := v; nelem := nelem q;
     size := size q |}.

Definition set_nelem (q : vbq) (v : Z) : vbq :=
  {| data := data q; head := head q; tail := tail q; nelem := v;
     size := size q |}.

Definition vbq_queue_init (buffer : ptr) (size : Z) : vbq :=
  {| data := buffer; size := size; head := 0; tail := 0; nelem := 0 |}.

(** The result is the returned count, the queue and the memory. *)
Definition vbq_queue_push_vector
    (q : vbq) (m : memory) (bytes : list byte) (count : Z)
  : Z * vbq * memory :=
  let tailcopy_size := 0 in
  let total := 0 in
  let '(tailcopy_size, total, q, m) :=
    if (head q <? tail q) || (nelem q =? 0) then
      let tailcopy_size := MIN (size q - tail q)%sz count in
      let m :=
        memcpy m (data q + tail q) (firstn (Z.to_nat tailcopy_size) bytes) in
      let q := set_tail q ((tail q + tailcopy_size)%sz mod size q) in
      (tailcopy_size, (total + tailcopy_size)%sz, q, m)
    else (tailcopy_size, total, q, m) in
  let headcopy_size := MIN (head q - tail q)%sz (count - tailcopy_size)%sz in
  let '(total, q, m) :=
    if 0 <? headcopy_size then
      let m :=
        memcpy m (data q + tail q)
          (firstn (Z.to_nat headcopy_size)
                  (skipn (Z.to_nat tailcopy_size) bytes)) in
      let q := set_tail q (tail q + headcopy_size)%sz in
      ((total + headcopy_size)%sz, q, m)
    else (total, q, m) in
  let q := set_nelem q (nelem q + total)%sz in
  (total, q, m).

(** The result is the returned count, the bytes written to the caller's
    array, and the queue. *)
Definition vbq_queue_pop_vector (q : vbq) (m : memory) (count : Z)
  : Z * list byte * vbq :=
  if nelem q =? 0 then (0, [], q)
  else if head q <? tail q then
    let to_pop := MIN (tail q - head q)%sz count in
    let bytes := read_bytes m (data q + head q) (Z.to_nat to_pop) in
    let q := set_head q ((head q + to_pop)%sz mod size q) in
    let q := set_nelem q (nelem q - to_pop)%sz in
    (to_pop, bytes, q)
  else
    let frst_pop := MIN (size q - head q)%sz count in
    let bytes := read_bytes m (data q + head q) (Z.to_nat frst_pop) in
    let q := set_head q ((head q + frst_pop)%sz mod size q) in
    let q := set_nelem q (nelem q - frst_pop)%sz in
    let scnd_pop := MIN (tail q - head q)%sz (count - frst_pop)%sz in
    let '(bytes, q) :=
      if 0 <? scnd_pop then
        let bytes :=
          bytes ++ read_bytes m (data q + head q) (Z.to_nat scnd_pop) in
        let q := set_head q ((head q + scnd_pop)%sz mod size q) in
        let q := set_nelem q (nelem q - scnd_pop)%sz in
        (bytes, q)
      else (bytes, q) in
    ((frst_pop + scnd_pop)%sz, bytes, q).

(** What the operations keep: indices inside the storage, a count of at
    most [size], and [tail] at [nelem] positions after [head]. *)
Record vinv (q : vbq) : Prop := mk_vinv {
  vinv_size : 0 < size q < SizeT.modulus;
  vinv_head : 0 <= head q < size q;
  vinv_tail : 0 <= tail q < size q;
  vinv_nelem : 0 <= nelem q <= size q;
  vinv_ring : tail q = (head q + nelem q) mod size q
}.

(** The bytes at [n] successive slots from index [idx] on, around the
    end of the storage. *)
Fixpoint slots (m : memory) (q : vbq) (idx : Z) (n : nat) : list byte :=
  match n with
  | O => []
  | S n' => m (data q + idx) :: slots m q ((idx + 1) mod size q) n'
  end.

(** The bytes the queue holds, oldest first. *)
Definition contents (q : vbq) (m : memory) : list byte :=
  slots m q (head q) (Z.to_nat (nelem q)).

(** A push or a pop of the caller, and a run of them that collects the
    bytes accepted and the bytes returned. *)
Inductive op : Type :=
| PushVector (bytes : list byte)
| PopVector (count : Z).

Record trace : Type := mk_trace {
  tq : vbq;
  tm : memory;
  accepted : list byte;
  returned : list byte
}.

Definition apply_op (t : trace) (o : op) : trace :=
  match o with
  | PushVector bytes =>
      let '(total, q, m) :=
        vbq_queue_push_vector (tq t) (tm t) bytes (Z.of_nat (length bytes)) in
      {| tq := q; tm := m;
         accepted := accepted t ++ firstn (Z.to_nat total) bytes;
         returned := returned t |}
  | PopVector count =>
      let '(total, bytes, q) := vbq_queue_pop_vector (tq t) (tm t) count in
      {| tq := q; tm := tm t; accepted := accepted t;
         returned := returned t ++ bytes |}
  end.

Definition apply_ops (t : trace) (ops : list op) : trace :=
  fold_left apply_op ops t.

(** A run starts on the queue [vbq_queue_init] sets up. *)
Definition start (buffer : ptr) (size : Z) (m : memory) : trace :=
  {| tq := vbq_queue_init buffer size; tm := m;
     accepted := []; returned := [] |}.

(** The counts of an operation are [size_t] values. *)
Definition in_range (o : op) : Prop :=
  match o with
  | PushVector bytes => Z.of_nat (length bytes) < SizeT.modulus
  | PopVector count => 0 <= count < SizeT.modulus
  end.

End Vbq.

(** ** The test driver on the other queues

    The blocks of [producer_thread] and [consumer_thread] that drive
    [vbq_queue] and [lfq_queue]. *)

(** [for (size_t i = 0; i < res; i++)
       assert(bytes[i] == (uint8_t)(vbq_remaining - i));] *)
Definition check_vector (bytes : list byte) (vbq_remaining : Z) (res : Z)
  : bool :=
  forallb
    (fun i => Byte.eqb (nth i bytes x00)
                       (uint8 (vbq_remaining - Z.of_nat i)%sz))
    (seq 0 (Z.to_nat res)).

Record vbq_harness : Type := mk_vbq_harness {
  vbq_queue : Vbq.vbq;
  vbq_heap : memory;
  vbq_producer_remaining : Z;
  vbq_consumer_remaining : Z
}.

Definition vbq_harness_init (buf : ptr) (size total : Z) (m : memory)
  : vbq_harness :=
  {| vbq_queue := Vbq.vbq_queue_init buf size; vbq_heap := m;
     vbq_producer_remaining := total; vbq_consumer_remaining := total |}.

(** The [if (vbq_remaining > 0)] block of [producer_thread]. *)
Definition producer_vbq (st : vbq_harness) : vbq_harness :=
  let vbq_remaining := vbq_producer_remaining st in
  if 0 <? vbq_remaining then
    let count := MIN MAX_BYTES_PER_OP vbq_remaining in
    let bytes := fill_bytes vbq_remaining count in
    let '(pushed, q, m) :=
      Vbq.vbq_queue_push_vector (vbq_queue st) (vbq_heap st) bytes count in
    {| vbq_queue := q; vbq_heap := m;
       vbq_producer_remaining := (vbq_remaining - pushed)%sz;
       vbq_consumer_remaining := vbq_consumer_remaining st |}
  else st.

(** The [if (vbq_remaining > 0)] block of [consumer_thread]; [None] is a
    failed assertion. *)
Definition consumer_vbq (st : vbq_harness) : option vbq_harness :=
  let vbq_remaining := vbq_consumer_remaining st in
  if 0 <? vbq_remaining then
    let count := MIN MAX_BYTES_PER_OP vbq_remaining in
    let '(res, bytes, q) :=
      Vbq.vbq_queue_pop_vector (vbq_queue st) (vbq_heap st) count in
    if check_vector bytes vbq_remaining res then
      Some {| vbq_queue := q; vbq_heap := vbq_heap st;
              vbq_producer_remaining := vbq_producer_remaining st;
              vbq_consumer_remaining := (vbq_remaining - res)%sz |}
    else None
  else Some st.

Definition take_turn_vbq (st : vbq_harness) (t : turn) : option vbq_harness :=
  match t with
  | Producer => Some (producer_vbq st)
  | Consumer => consumer_vbq st
  end.

Fixpoint schedule_vbq (st : vbq_harness) (turns : list turn)
  : option vbq_harness :=
  match turns with
  | [] => Some st
  | t :: turns' =>
      match take_turn_vbq st t with
      | Some st' => schedule_vbq st' turns'
      | None => None
      end
  end.

Record vbq_harness_inv (total : Z) (st : vbq_harness) : Prop :=
  mk_vbq_harness_inv {
  vhi_inv : Vbq.vinv (vbq_queue st);
  vhi_prod : 0 <= vbq_producer_remaining st <= total;
  vhi_cons : vbq_consumer_remaining st =
             vbq_producer_remaining st + Vbq.nelem (vbq_queue st);
  vhi_total : vbq_consumer_remaining st <= total;
  vhi_bytes : Vbq.contents (vbq_queue st) (vbq_heap st) =
              fill_bytes (vbq_consumer_remaining st)
                         (Vbq.nelem (vbq_queue st))
}.

Record lfq_harness : Type := mk_lfq_harness {
  lfq_queue : Lfq.lfq;
  lfq_heap : memory;
  lfq_producer_remaining : Z;
  lfq_consumer_remaining : Z
}.

Definition lfq_harness_init (buf : ptr) (size total : Z) (m : memory)
  : lfq_harness :=
  {| lfq_queue := Lfq.lfq_queue_init buf size; lfq_heap := m;
     lfq_producer_remaining := total; lfq_consumer_remaining := total |}.

(** The [if (lfq_remaining > 0)] block of [producer_thread]. *)
Definition producer_lfq (st : lfq_harness) : lfq_harness :=
  let lfq_remaining := lfq_producer_remaining st in
  if 0 <? lfq_remaining then
    let count := MIN MAX_BYTES_PER_OP lfq_remaining in
    let bytes := fill_bytes lfq_remaining count in
    let (addr, pushable) := Lfq.lfq_queue_get_push_buf (lfq_queue st) in
    let count := MIN count pushable in
    let m1 := memcpy (lfq_heap st) addr (firstn (Z.to_nat count) bytes) in
    let q1 := Lfq.lfq_queue_commit_push (lfq_queue st) count in
    {| lfq_queue := q1; lfq_heap := m1;
       lfq_producer_remaining := (lfq_remaining - count)%sz;
       lfq_consumer_remaining := lfq_consumer_remaining st |}
  else st.

(** The [if (lfq_remaining > 0)] block of [consumer_thread]; [None] is a
    failed assertion. *)
Definition consumer_lfq (st : lfq_harness) : option lfq_harness :=
  let lfq_remaining := lfq_consumer_remaining st in
  if 0 <? lfq_remaining then
    let (addr, count) := Lfq.lfq_queue_get_pop_buf (lfq_queue st) in
    let count := MIN count lfq_remaining in
    let count := MIN count MAX_BYTES_PER_OP in
    match check_bytes (lfq_heap st) addr lfq_remaining (Z.to_nat count) with
    | Some lfq_remaining' =>
        let q1 := Lfq.lfq_queue_commit_pop (lfq_queue st) count in
        Some {| lfq_queue := q1; lfq_heap := lfq_heap st;
                lfq_producer_remaining := lfq_producer_remaining st;
                lfq_consumer_remaining := lfq_remaining' |}
    | None => None
    end
  else Some st.

Definition take_turn_lfq (st : lfq_harness) (t : turn) : option lfq_harness :=
  match t with
  | Producer => Some (producer_lfq st)
  | Consumer => consumer_lfq st
  end.

Fixpoint schedule_lfq (st : lfq_harness) (turns : list turn)
  : option lfq_harness :=
  match turns with
  | [] => Some st
  | t :: turns' =>
      match take_turn_lfq st t with
      | Some st' => schedule_lfq st' turns'
      | None => None
      end
  end.

(** The [lfq] driver state that matches a [bq] driver state. *)
Definition lfq_harness_of (st : harness) : lfq_harness :=
  {| lfq_queue := lfq_of_bq (bq_queue st); lfq_heap := heap st;
     lfq_producer_remaining := producer_remaining st;
     lfq_consumer_remaining := consumer_remaining st |}.

(** ** The queue [abq]

    The array queue whose header guard is [ABQ_H]: the slices of [lfq]
    over the wrapped indices and the element count of [vbq].  The lock
    and unlock calls are taken to succeed and to do nothing else, as
    for [vbq]. *)

Module Abq.

Record abq : Type := mk_abq {
  data : ptr;
  head : Z;
  tail : Z;
  nelem : Z;
  size : Z
}.

Definition abq_queue_init (buffer : ptr) (size : Z) : abq :=
  {| data := buffer; size := size; head := 0; tail := 0; nelem := 0 |}.

(** The result is the returned pointer and the value stored in [*len]. *)
Definition abq_queue_get_push_buf (q : abq) : ptr * Z :=
  let len :=
    if (head q <? tail q) || (nelem q =? 0)
    then (size q - tail q)%sz
    else (head q - tail q)%sz in
  (data q + tail q, len).

Definition abq_queue_commit_push (q : abq) (len : Z) : abq :=
  {| data := data q; head := head q;
     tail := (tail q + len)%sz mod size q;
     nelem := (nelem q + len)%sz; size := size q |}.

Definition abq_queue_get_pop_buf (q : abq) : ptr * Z :=
  let len :=
    if (head q <? tail q) || (nelem q =? 0)
    then (tail q - head q)%sz
    else (size q - head q)%sz in
  (data q + head q, len).

Definition abq_queue_commit_pop (q : abq) (len : Z) : abq :=
  {| data := data q; head := (head q + len)%sz mod size q;
     tail := tail q; nelem := (nelem q - len)%sz; size := size q |}.

End Abq.

(** The [vbq] with the fields of an [abq]: the two structures have the
    same members. *)
Definition vbq_of_abq (q : Abq.abq) : Vbq.vbq :=
  {| Vbq.data := Abq.data q; Vbq.head := Abq.head q; Vbq.tail := Abq.tail q;
     Vbq.nelem := Abq.nelem q; Vbq.size := Abq.size q |}.

(** ** The queue [bbq]

    The byte queue whose header guard is [BBQ_H]: one byte in or out per
    call.  A pop that returns [true] has written [*byte]; it is [Some]
    of that byte, and [None] is the pop that returns [false] and leaves
    [*byte] alone. *)

Module Bbq.

Record bbq : Type := mk_bbq {
  data : ptr;
  head : Z;
  tail : Z;
  nelem : Z;
  size : Z
}.

Definition bbq_queue_init (buffer : ptr) (size : Z) : bbq :=
  {| data := buffer; size := size; head := 0; tail := 0; nelem := 0 |}.

Definition bbq_queue_push (q : bbq) (m : memory) (byte : byte)
  : bool * bbq * memory :=
  if nelem q <? size q then
    let m := store_byte m (data q + tail q) byte in
    let q := {| data := data q; head := head q;
                tail := (tail q + 1)%sz mod size q;
                nelem := (nelem q + 1)%sz; size := size q |} in
    (true, q, m)
  else (false, q, m).

Definition bbq_queue_pop (q : bbq) (m : memory) : option byte * bbq :=
  if 0 <? nelem q then
    let byte := m (data q + head q) in
    let q := {| data := data q; head := (head q + 1)%sz mod size q;
                tail := tail q; nelem := (nelem q - 1)%sz;
                size := size q |} in
    (Some byte, q)
  else (None, q).

(** A push or a pop of the caller, and a run of them that collects the
    bytes accepted and the bytes returned. *)
Inductive op : Type :=
| PushByte (b : byte)
| PopByte.

Record trace : Type := mk_trace {
  tq : bbq;
  tm : memory;
  accepted : list byte;
  returned : list byte
}.

Definition apply_op (t : trace) (o : op) : trace :=
  match o with
  | PushByte b =>
      let '(ok, q, m) := bbq_queue_push (tq t) (tm t) b in
      {| tq := q; tm := m;
         accepted := if ok then accepted t ++ [b] else accepted t;
         returned := returned t |}
  | PopByte =>
      let '(val, q) := bbq_queue_pop (tq t) (tm t) in
      {| tq := q; tm := tm t; accepted := accepted t;
         returned := match val with
                     | Some b => returned t ++ [b]
                     | None => returned t
                     end |}
  end.

Definition apply_ops (t : trace) (ops : list op) : trace :=
  fold_left apply_op ops t.

Definition start (buffer : ptr) (size : Z) (m : memory) : trace :=
  {| tq := bbq_queue_init buffer size; tm := m;
     accepted := []; returned := [] |}.

End Bbq.

(** The [vbq] with the fields of a [bbq]. *)
Definition vbq_of_bbq (q : Bbq.bbq) : Vbq.vbq :=
  {| Vbq.data := Bbq.data q; Vbq.head := Bbq.head q; Vbq.tail := Bbq.tail q;
     Vbq.nelem := Bbq.nelem q; Vbq.size := Bbq.size q |}.

(** ** The test driver on [abq] and [bbq] *)

(** A queue of type [Q], the memory its storage lies in, and the
    counter of each thread. *)
Record driver (Q : Type) : Type := mk_driver {
  dqueue : Q;
  dheap : memory;
  dproducer_remaining : Z;
  dconsumer_remaining : Z
}.

Arguments mk_driver {Q}.
Arguments dqueue {Q}.
Arguments dheap {Q}.
Arguments dproducer_remaining {Q}.
Arguments dconsumer_remaining {Q}.

Definition abq_driver_init (buf : ptr) (size total : Z) (m : memory)
  : driver Abq.abq :=
  {| dqueue := Abq.abq_queue_init buf size; dheap := m;
     dproducer_remaining := total; dconsumer_remaining := total |}.

(** The [if (abq_remaining > 0)] block of [producer_thread]. *)
Definition producer_abq (st : driver Abq.abq) : driver Abq.abq :=
  let abq_remaining := dproducer_remaining st in
  if 0 <? abq_remaining then
    let count := MIN MAX_BYTES_PER_OP abq_remaining in
    let bytes := fill_bytes abq_remaining count in
    let (addr, pushable) := Abq.abq_queue_get_push_buf (dqueue st) in
    let count := MIN count pushable in
    let m1 := memcpy (dheap st) addr (firstn (Z.to_nat count) bytes) in
    let q1 := Abq.abq_queue_commit_push (dqueue st) count in
    {| dqueue := q1; dheap := m1;
       dproducer_remaining := (abq_remaining - count)%sz;
       dconsumer_remaining := dconsumer_remaining st |}
  else st.

(** The [if (abq_remaining > 0)] block of [consumer_thread]; [None] is a
    failed assertion. *)
Definition consumer_abq (st : driver Abq.abq) : option (driver Abq.abq) :=
  let abq_remaining := dconsumer_remaining st in
  if 0 <? abq_remaining then
    let (addr, count) := Abq.abq_queue_get_pop_buf (dqueue st) in
    let count := MIN count abq_remaining in
    let count := MIN count MAX_BYTES_PER_OP in
    match check_bytes (dheap st) addr abq_remaining (Z.to_nat count) with
    | Some abq_remaining' =>
        let q1 := Abq.abq_queue_commit_pop (dqueue st) count in
        Some {| dqueue := q1; dheap := dheap st;
                dproducer_remaining := dproducer_remaining st;
                dconsumer_remaining := abq_remaining' |}
    | None => None
    end
  else Some st.

Definition take_turn_abq (st : driver Abq.abq) (t : turn)
  : option (driver Abq.abq) :=
  match t with
  | Producer => Some (producer_abq st)
  | Consumer => consumer_abq st
  end.

Fixpoint schedule_abq (st : driver Abq.abq) (turns : list turn)
  : option (driver Abq.abq) :=
  match turns with
  | [] => Some st
  | t :: turns' =>
      match take_turn_abq st t with
      | Some st' => schedule_abq st' turns'
      | None => None
      end
  end.

(** What the driver keeps true of a queue with an element count, seen
    as a [vbq]. *)
Record driver_inv {Q : Type} (view : Q -> Vbq.vbq) (total : Z)
    (st : driver Q) : Prop := mk_driver_inv {
  di_inv : Vbq.vinv (view (dqueue st));
  di_prod : 0 <= dproducer_remaining st <= total;
  di_cons : dconsumer_remaining st =
            dproducer_remaining st + Vbq.nelem (view (dqueue st));
  di_total : dconsumer_remaining st <= total;
  di_bytes : Vbq.contents (view (dqueue st)) (dheap st) =
             fill_bytes (dconsumer_remaining st)
                        (Vbq.nelem (view (dqueue st)))
}.

(** How a loop of the [bbq] blocks ends: its condition fails, an
    assertion in its body fails, or the iterations allowed run out. *)
Inductive outcome (A : Type) : Type :=
| Finished (a : A)
| AssertionFailed
| OutOfFuel.

Arguments Finished {A}.
Arguments AssertionFailed {A}.
Arguments OutOfFuel {A}.

(** [for (; bbq_remaining > target &&
           bbq_queue_push(&bbq_queue, bbq_remaining); bbq_remaining--);]
    The byte pushed is the counter converted to [uint8_t]. *)
Fixpoint bbq_push_loop (fuel : nat) (target : Z) (q : Bbq.bbq) (m : memory)
    (bbq_remaining : Z) : outcome (Bbq.bbq * memory * Z) :=
  match fuel with
  | O => OutOfFuel
  | S fuel' =>
      if target <? bbq_remaining then
        let '(ok, q', m') := Bbq.bbq_queue_push q m (uint8 bbq_remaining) in
        if ok
        then bbq_push_loop fuel' target q' m' (bbq_remaining - 1)%sz
        else Finished (q', m', bbq_remaining)
      else Finished (q, m, bbq_remaining)
  end.

(** [for (; bbq_remaining > target && bbq_queue_pop(&bbq_queue, &val);
           bbq_remaining--)
       assert(val == (uint8_t)bbq_remaining);] *)
Fixpoint bbq_pop_loop (fuel : nat) (target : Z) (q : Bbq.bbq) (m : memory)
    (bbq_remaining : Z) : outcome (Bbq.bbq * Z) :=
  match fuel with
  | O => OutOfFuel
  | S fuel' =>
      if target <? bbq_remaining then
        match Bbq.bbq_queue_pop q m with
        | (Some val, q') =>
            if Byte.eqb val (uint8 bbq_remaining)
            then bbq_pop_loop fuel' target q' m (bbq_remaining - 1)%sz
            else AssertionFailed
        | (None, q') => Finished (q', bbq_remaining)
        end
      else Finished (q, bbq_remaining)
  end.

Definition bbq_driver_init (buf : ptr) (size total : Z) (m : memory)
  : driver Bbq.bbq :=
  {| dqueue := Bbq.bbq_queue_init buf size; dheap := m;
     dproducer_remaining := total; dconsumer_remaining := total |}.

(** The [if (bbq_remaining > 0)] block of [producer_thread]. *)
Definition producer_bbq (fuel : nat) (st : driver Bbq.bbq)
  : outcome (driver Bbq.bbq) :=
  let bbq_remaining := dproducer_remaining st in
  if 0 <? bbq_remaining then
    let target := (bbq_remaining - MIN bbq_remaining MAX_BYTES_PER_OP)%sz in
    match bbq_push_loop fuel target (dqueue st) (dheap st) bbq_remaining with
    | Finished (q, m, bbq_remaining) =>
        Finished {| dqueue := q; dheap := m;
                    dproducer_remaining := bbq_remaining;
                    dconsumer_remaining := dconsumer_remaining st |}
    | AssertionFailed => AssertionFailed
    | OutOfFuel => OutOfFuel
    end
  else Finished st.

(** The [if (bbq_remaining > 0)] block of [consumer_thread]. *)
Definition consumer_bbq (fuel : nat) (st : driver Bbq.bbq)
  : outcome (driver Bbq.bbq) :=
  let bbq_remaining := dconsumer_remaining st in
  if 0 <? bbq_remaining then
    let target := (bbq_remaining - MIN bbq_remaining MAX_BYTES_PER_OP)%sz in
    match bbq_pop_loop fuel target (dqueue st) (dheap st) bbq_remaining with
    | Finished (q, bbq_remaining) =>
        Finished {| dqueue := q; dheap := dheap st;
                    dproducer_remaining := dproducer_remaining st;
                    dconsumer_remaining := bbq_remaining |}
    | AssertionFailed => AssertionFailed
    | OutOfFuel => OutOfFuel
    end
  else Finished st.

Definition take_turn_bbq (fuel : nat) (st : driver Bbq.bbq) (t : turn)
  : outcome (driver Bbq.bbq) :=
  match t with
  | Producer => producer_bbq fuel st
  | Consumer => consumer_bbq fuel st
  end.

Fixpoint schedule_bbq (fuel : nat) (st : driver Bbq.bbq) (turns : list turn)
  : outcome (driver Bbq.bbq) :=
  match turns with
  | [] => Finished st
  | t :: turns' =>
      match take_turn_bbq fuel st t with
      | Finished st' => schedule_bbq fuel st' turns'
      | AssertionFailed => AssertionFailed
      | OutOfFuel => OutOfFuel
      end
  end.

(** The [abq] that a [bq] stands for: the indices of the two cursors,
    the number of bytes held, and the capacity. *)
Definition abq_of_bq (q : bq) : Abq.abq :=
  {| Abq.data := data q;
     Abq.head := (head q & mask q)%sz;
     Abq.tail := (tail q & mask q)%sz;
     Abq.nelem := used q;
     Abq.size := capacity q |}.

(** ** Arithmetic of epochs *)

Section Epochs.

Variables c E2 : Z.
Hypothesis c_pos : 0 < c.
Hypothesis E2_pos : 0 < E2.

Let W := c * (2 * E2).

Lemma W_ge_2c : 2 * c <= W.
Proof. unfold W. nia. Qed.

Lemma diff_cases (h t : Z) :
  0 <= h < W -> 0 <= t < W ->
  t = h + (t - h) mod W \/ t = h + (t - h) mod W - W.
Proof.
  intros Hh Ht.
  assert (HW : 0 < W) by (pose proof W_ge_2c; lia).
  pose proof (Z.div_mod (t - h) W ltac:(lia)) as Hdm.
  pose proof (Z.mod_pos_bound (t - h) W HW) as Hb.
  assert (Hq : (t - h) / W = 0 \/ (t - h) / W = -1) by nia.
  destruct Hq as [Hq | Hq]; rewrite Hq in Hdm; lia.
Qed.

Lemma epoch_bound (h : Z) : 0 <= h < W -> 0 <= h / c < 2 * E2.
Proof.
  intros Hh. split.
  - apply Z.div_pos; lia.
  - apply Z.div_lt_upper_bound; unfold W in Hh; lia.
Qed.

(** Where [tail] lies relative to [head]: in the same block of [c]
    bytes, or in the next one, possibly across the wrap of the cursor. *)
Lemma epoch_split (h t : Z) :
  0 <= h < W -> 0 <= t < W -> (t - h) mod W <= c ->
  (h mod c + (t - h) mod W < c /\
   t / c = h / c /\ t mod c = h mod c + (t - h) mod W) \/
  (c <= h mod c + (t - h) mod W /\
   t mod c = h mod c + (t - h) mod W - c /\
   ((t / c - h / c) mod W) mod 2 = 1).
Proof.
  intros Hh Ht Hd.
  pose proof W_ge_2c as HW2.
  assert (HW : 0 < W) by lia.
  pose proof (Z.mod_pos_bound (t - h) W HW) as Hdb.
  pose proof (Z.div_mod h c ltac:(lia)) as Hhdm.
  pose proof (Z.mod_pos_bound h c c_pos) as Hho.
  pose proof (epoch_bound h Hh) as Heh.
  set (d := (t - h) mod W) in *.
  set (eh := h / c) in *. set (ho := h mod c) in *.
  destruct (diff_cases h t Hh Ht) as [Ht' | Ht']; fold d in Ht'.
  - destruct (Z_lt_ge_dec (ho + d) c) as [Hlt | Hge].
    + left. split; [exact Hlt|].
      assert (Hq : t = c * eh + (ho + d)) by lia.
      split.
      * symmetry. apply (Z.div_unique_pos t c eh (ho + d)); lia.
      * symmetry. apply (Z.mod_unique_pos t c eh (ho + d)); lia.
    + right. split; [lia|].
      assert (Hq : t = c * (eh + 1) + (ho + d - c)) by lia.
      assert (Hdiv : t / c = eh + 1)
        by (symmetry; apply (Z.div_unique_pos t c (eh + 1) (ho + d - c)); lia).
      split.
      * symmetry. apply (Z.mod_unique_pos t c (eh + 1) (ho + d - c)); lia.
      * rewrite Hdiv. replace (eh + 1 - eh) with 1 by lia.
        rewrite (Z.mod_small 1 W) by lia. reflexivity.
  - assert (Heh' : eh = 2 * E2 - 1) by (unfold W in *; nia).
    assert (Hge : c <= ho + d) by (unfold W in *; nia).
    assert (Hq : t = ho + d - c) by (unfold W in *; nia).
    right. split; [exact Hge|].
    assert (Hdiv : t / c = 0) by (apply Z.div_small; lia).
    split.
    + rewrite Z.mod_small by lia. exact Hq.
    + rewrite Hdiv, Heh'.
      assert (Hm : (0 - (2 * E2 - 1)) mod W = W + 1 - 2 * E2).
      { symmetry. apply (Z.mod_unique_pos _ W (-1)); unfold W in *; nia. }
      rewrite Hm. symmetry.
      apply (Z.mod_unique_pos _ 2 (c * E2 - E2)); unfold W; lia.
Qed.

End Epochs.

(** ** From bit operations to division and remainder *)

Lemma modulus_split (k : Z) :
  0 <= k < SizeT.bits ->
  SizeT.modulus = 2 ^ k * (2 * 2 ^ (SizeT.bits - 1 - k)).
Proof.
  intros Hk. unfold SizeT.modulus.
  replace SizeT.bits with (k + (1 + (SizeT.bits - 1 - k))) at 1 by lia.
  rewrite Z.pow_add_r by lia.
  rewrite (Z.pow_add_r 2 1) by lia.
  reflexivity.
Qed.

Lemma pow2_pos (k : Z) : 0 <= k -> 0 < 2 ^ k.
Proof. intros; apply Z.pow_pos_nonneg; lia. Qed.

Lemma pow2_lt_modulus (k : Z) :
  0 <= k < SizeT.bits -> 2 * 2 ^ k <= SizeT.modulus.
Proof.
  intros Hk. rewrite (modulus_split k Hk).
  pose proof (pow2_pos k ltac:(lia)).
  pose proof (pow2_pos (SizeT.bits - 1 - k) ltac:(lia)). nia.
Qed.

Lemma modulus_pos : 0 < SizeT.modulus.
Proof. reflexivity. Qed.

Lemma wrap_small (x : Z) : SizeT.in_range x -> SizeT.wrap x = x.
Proof. intros H. apply Z.mod_small. exact H. Qed.

Lemma wrap_range (x : Z) : SizeT.in_range (SizeT.wrap x).
Proof. apply Z.mod_pos_bound. exact modulus_pos. Qed.

Lemma and_mask (x k : Z) : 0 <= k -> (x & (2 ^ k - 1)%Z)%sz = x mod 2 ^ k.
Proof.
  intros Hk. unfold SizeT.and.
  rewrite <- Z.land_ones by exact Hk.
  rewrite Z.ones_equiv. reflexivity.
Qed.

Lemma and_one (x : Z) : (x & 1)%sz = x mod 2.
Proof. exact (and_mask x 1 ltac:(lia)). Qed.

Lemma shr_div (x k : Z) : 0 <= k -> (x >> k)%sz = x / 2 ^ k.
Proof. intros Hk. apply Z.shiftr_div_pow2. exact Hk. Qed.

Lemma epoch_split_sz (k h t : Z) :
  0 <= k < SizeT.bits ->
  SizeT.in_range h -> SizeT.in_range t ->
  (t - h)%sz <= 2 ^ k ->
  (h mod 2 ^ k + (t - h)%sz < 2 ^ k /\
   (t >> k)%sz = (h >> k)%sz /\
   t mod 2 ^ k = h mod 2 ^ k + (t - h)%sz /\
   (((t >> k) - (h >> k)) & 1)%sz = 0) \/
  (2 ^ k <= h mod 2 ^ k + (t - h)%sz /\
   (t >> k)%sz <> (h >> k)%sz /\
   t mod 2 ^ k = h mod 2 ^ k + (t - h)%sz - 2 ^ k /\
   (((t >> k) - (h >> k)) & 1)%sz = 1).
Proof.
  intros Hk Hh Ht Hd.
  unfold SizeT.in_range, SizeT.sub, SizeT.wrap in *.
  rewrite and_one, !shr_div by lia.
  rewrite (modulus_split k Hk) in *.
  pose proof (pow2_pos k ltac:(lia)) as Hc.
  pose proof (pow2_pos (SizeT.bits - 1 - k) ltac:(lia)) as HE.
  destruct (epoch_split (2 ^ k) (2 ^ (SizeT.bits - 1 - k)) Hc HE h t Hh Ht Hd)
    as [(H1 & H2 & H3) | (H1 & H2 & H3)].
  - left. repeat split; try assumption.
    rewrite H2, Z.sub_diag. reflexivity.
  - right. repeat split; try assumption.
    intros Heq. rewrite Heq, Z.sub_diag in H3. discriminate H3.
Qed.

(** ** Closed forms of the two lengths *)

Section Lengths.

Variable q : bq.
Hypothesis Hwf : wf q.
Hypothesis Hinv : I1 q.

Lemma capacity_pow2 : capacity q = 2 ^ cap_lg2 q.
Proof.
  destruct Hwf as [Hk Hm _ _]. unfold capacity, SizeT.add.
  rewrite Hm. replace (2 ^ cap_lg2 q - 1 + 1) with (2 ^ cap_lg2 q) by lia.
  apply wrap_small. unfold SizeT.in_range.
  pose proof (pow2_pos (cap_lg2 q) ltac:(lia)).
  pose proof (pow2_lt_modulus (cap_lg2 q) Hk). lia.
Qed.

Lemma head_index : (head q & mask q)%sz = head q mod 2 ^ cap_lg2 q.
Proof. destruct Hwf as [Hk Hm _ _]. rewrite Hm. apply and_mask. lia. Qed.

Lemma tail_index : (tail q & mask q)%sz = tail q mod 2 ^ cap_lg2 q.
Proof. destruct Hwf as [Hk Hm _ _]. rewrite Hm. apply and_mask. lia. Qed.

Lemma index_bound (x : Z) : 0 <= x mod 2 ^ cap_lg2 q < capacity q.
Proof.
  rewrite capacity_pow2. apply Z.mod_pos_bound.
  apply pow2_pos. destruct Hwf; lia.
Qed.

(** The two cases of the branchless computation. *)
Lemma lengths_cases :
  ((head q & mask q)%sz + used q < capacity q /\
   (tail q >> cap_lg2 q)%sz = (head q >> cap_lg2 q)%sz /\
   (tail q & mask q)%sz = (head q & mask q)%sz + used q /\
   popbuf_len q = used q /\
   pushbuf_len q = capacity q - used q - (head q & mask q)%sz) \/
  (capacity q <= (head q & mask q)%sz + used q /\
   (tail q >> cap_lg2 q)%sz <> (head q >> cap_lg2 q)%sz /\
   (tail q & mask q)%sz = (head q & mask q)%sz + used q - capacity q /\
   popbuf_len q = (used q - (tail q & mask q))%sz /\
   popbuf_len q = capacity q - (head q & mask q)%sz /\
   pushbuf_len q = capacity q - used q).
Proof.
  pose proof capacity_pow2 as Hcap.
  pose proof head_index as Hhi. pose proof tail_index as Hti.
  pose proof (index_bound (head q)) as Hhb.
  pose proof (index_bound (tail q)) as Htb.
  destruct Hwf as [Hk Hm Hh Ht].
  pose proof (pow2_lt_modulus (cap_lg2 q) Hk) as Hlt.
  assert (Hd : (tail q - head q)%sz <= 2 ^ cap_lg2 q).
  { rewrite <- Hcap. apply Hinv. }
  pose proof (wrap_range (tail q - head q)) as Hur.
  unfold popbuf_len, pushbuf_len, bq_popbuf, bq_pushbuf, bind, ret,
    field, atomic_load_n; cbn [fst snd].
  fold (capacity q). fold (used q).
  rewrite Hhi, Hti.
  destruct (epoch_split_sz (cap_lg2 q) (head q) (tail q) Hk Hh Ht Hd)
    as [(H1 & H2 & H3 & H4) | (H1 & H2 & H3 & H4)];
    fold (used q) in *; rewrite H4; [left | right].
  - repeat split; try assumption; try lia.
    + unfold SizeT.mul, SizeT.sub. rewrite Z.mul_0_r.
      change (SizeT.wrap 0) with 0. rewrite Z.sub_0_r.
      apply wrap_small. exact Hur.
    + change (1 - 1 - 0)%sz with 1. unfold SizeT.mul, SizeT.sub.
      change (1 - 0)%sz with 1.
      unfold SizeT.in_range in *.
      rewrite Z.mul_1_r.
      rewrite (wrap_small (head q mod _)) by (unfold SizeT.in_range; lia).
      rewrite (wrap_small (capacity q - used q))
        by (unfold SizeT.in_range; unfold used in *; lia).
      apply wrap_small. unfold SizeT.in_range, used in *. lia.
  - unfold SizeT.in_range in *.
    assert (Hp : (used q - tail q mod 2 ^ cap_lg2 q)%sz =
                 capacity q - head q mod 2 ^ cap_lg2 q).
    { unfold SizeT.sub at 1. rewrite H3.
      replace (used q - (head q mod 2 ^ cap_lg2 q + used q - 2 ^ cap_lg2 q))
        with (capacity q - head q mod 2 ^ cap_lg2 q) by lia.
      apply wrap_small. unfold SizeT.in_range. lia. }
    assert (Hmul : (tail q mod 2 ^ cap_lg2 q * 1)%sz = tail q mod 2 ^ cap_lg2 q).
    { unfold SizeT.mul. rewrite Z.mul_1_r. apply wrap_small.
      unfold SizeT.in_range. lia. }
    repeat split; try assumption; try lia.
    + rewrite Hmul. reflexivity.
    + rewrite Hmul. exact Hp.
    + change (1 - 1)%sz with 0. unfold SizeT.mul. rewrite Z.mul_0_r.
      change (SizeT.wrap 0) with 0. unfold SizeT.sub at 1.
      rewrite Z.sub_0_r.
      rewrite (wrap_small (capacity q - used q)%sz) by apply wrap_range.
      unfold SizeT.sub. apply wrap_small. unfold SizeT.in_range, used in *.
      lia.
Qed.

End Lengths.

(** ** Memory *)

Lemma memcpy_outside (bs : list byte) (m : memory) (dst a : ptr) :
  a < dst \/ dst + Z.of_nat (length bs) <= a ->
  memcpy m dst bs a = m a.
Proof.
  revert m dst. induction bs as [|b bs IH]; intros m dst Ha; cbn [memcpy].
  - reflexivity.
  - cbn [length] in Ha. rewrite IH by lia.
    unfold store_byte. destruct (Z.eqb_spec a dst); [lia | reflexivity].
Qed.

Lemma read_memcpy (bs : list byte) (m : memory) (dst : ptr) :
  read_bytes (memcpy m dst bs) dst (length bs) = bs.
Proof.
  revert m dst. induction bs as [|b bs IH]; intros m dst;
    cbn [memcpy read_bytes length].
  - reflexivity.
  - rewrite IH. f_equal.
    rewrite memcpy_outside by lia.
    unfold store_byte. rewrite Z.eqb_refl. reflexivity.
Qed.

Lemma read_bytes_length (m : memory) (a : ptr) (n : nat) :
  length (read_bytes m a n) = n.
Proof.
  revert a. induction n as [|n IH]; intros a; cbn [read_bytes length].
  - reflexivity.
  - rewrite IH. reflexivity.
Qed.

(** ** Cursors and indices *)

Lemma wrap_add_l (a b : Z) : (SizeT.wrap a + b)%sz = (a + b)%sz.
Proof. unfold SizeT.add, SizeT.wrap. apply Zplus_mod_idemp_l. Qed.

Lemma add_assoc_sz (a b c : Z) : ((a + b) + c)%sz = (a + (b + c)%Z)%sz.
Proof.
  unfold SizeT.add, SizeT.wrap. rewrite Zplus_mod_idemp_l.
  f_equal. lia.
Qed.

Lemma add_0_sz (a : Z) : SizeT.in_range a -> (a + 0)%sz = a.
Proof. intros H. unfold SizeT.add. rewrite Z.add_0_r. apply wrap_small, H. Qed.

Lemma wrap_mod_pow2 (x k : Z) :
  0 <= k < SizeT.bits -> SizeT.wrap x mod 2 ^ k = x mod 2 ^ k.
Proof.
  intros Hk. unfold SizeT.wrap. rewrite (modulus_split k Hk).
  pose proof (pow2_pos k ltac:(lia)).
  pose proof (pow2_pos (SizeT.bits - 1 - k) ltac:(lia)).
  rewrite Z.rem_mul_r by lia.
  rewrite Z.mul_comm, Z.mod_add by lia.
  apply Z.mod_mod. lia.
Qed.

Section Indices.

Variable q : bq.
Hypothesis Hwf : wf q.

(** The storage index of the cursor [i] positions after [cursor]. *)
Lemma index_add (cursor i : Z) :
  0 <= i < capacity q ->
  ((cursor + i) & mask q)%sz =
  if (cursor & mask q)%sz + i <? capacity q
  then (cursor & mask q)%sz + i
  else (cursor & mask q)%sz + i - capacity q.
Proof.
  intros Hi.
  rewrite (capacity_pow2 q Hwf) in *.
  destruct Hwf as [Hk Hm _ _]. rewrite Hm, !and_mask by lia.
  unfold SizeT.add. rewrite wrap_mod_pow2 by exact Hk.
  pose proof (pow2_pos (cap_lg2 q) ltac:(lia)) as Hc.
  pose proof (Z.mod_pos_bound cursor (2 ^ cap_lg2 q) Hc) as Hb.
  rewrite <- Zplus_mod_idemp_l.
  destruct (Z.ltb_spec (cursor mod 2 ^ cap_lg2 q + i) (2 ^ cap_lg2 q)).
  - apply Z.mod_small. lia.
  - symmetry. apply (Z.mod_unique_pos _ _ 1); lia.
Qed.

Lemma index_wrap (cursor : Z) :
  (SizeT.wrap cursor & mask q)%sz = (cursor & mask q)%sz.
Proof.
  destruct Hwf as [Hk Hm _ _]. rewrite Hm, !and_mask by lia.
  apply wrap_mod_pow2. exact Hk.
Qed.

Lemma ring_bytes_wrap (m : memory) (n : nat) (cursor : Z) :
  ring_bytes m q (SizeT.wrap cursor) n = ring_bytes m q cursor n.
Proof.
  destruct n as [|n]; cbn [ring_bytes]; [reflexivity|].
  rewrite index_wrap, wrap_add_l. reflexivity.
Qed.

Lemma ring_bytes_app (m : memory) (a b : nat) (cursor : Z) :
  ring_bytes m q cursor (a + b) =
  ring_bytes m q cursor a ++ ring_bytes m q (cursor + Z.of_nat a)%sz b.
Proof.
  revert cursor. induction a as [|a IH]; intros cursor.
  - cbn [Nat.add ring_bytes app Z.of_nat].
    unfold SizeT.add. rewrite Z.add_0_r, ring_bytes_wrap. reflexivity.
  - cbn [Nat.add ring_bytes app]. rewrite IH, add_assoc_sz.
    replace (1 + Z.of_nat a) with (Z.of_nat (S a)) by lia. reflexivity.
Qed.

Lemma ring_bytes_ext (m m' : memory) (n : nat) (cursor : Z) :
  (forall i, 0 <= i < Z.of_nat n ->
     m' (data q + ((cursor + i) & mask q)%sz) =
     m (data q + ((cursor + i) & mask q)%sz)) ->
  ring_bytes m' q cursor n = ring_bytes m q cursor n.
Proof.
  revert cursor. induction n as [|n IH]; intros cursor Hagree;
    cbn [ring_bytes]; [reflexivity|].
  f_equal.
  - specialize (Hagree 0 ltac:(lia)).
    unfold SizeT.add in Hagree.
    rewrite Z.add_0_r, index_wrap in Hagree. exact Hagree.
  - apply IH. intros i Hi. rewrite add_assoc_sz.
    apply Hagree. lia.
Qed.

Lemma index_range (cursor : Z) : 0 <= (cursor & mask q)%sz < capacity q.
Proof.
  rewrite (capacity_pow2 q Hwf).
  destruct Hwf as [Hk Hm _ _]. rewrite Hm, and_mask by lia.
  apply Z.mod_pos_bound, pow2_pos. lia.
Qed.

Lemma ring_bytes_contig (m : memory) (n : nat) (cursor : Z) :
  (cursor & mask q)%sz + Z.of_nat n <= capacity q ->
  ring_bytes m q cursor n = read_bytes m (data q + (cursor & mask q)%sz) n.
Proof.
  revert cursor. induction n as [|n IH]; intros cursor Hfit;
    cbn [ring_bytes read_bytes]; [reflexivity|].
  f_equal. destruct n as [|n]; [reflexivity|].
  pose proof (index_range cursor) as Hr.
  assert (Hnext : ((cursor + 1) & mask q)%sz = (cursor & mask q)%sz + 1).
  { rewrite index_add by lia.
    destruct (Z.ltb_spec ((cursor & mask q)%sz + 1) (capacity q)); lia. }
  rewrite IH, Hnext by lia.
  f_equal. lia.
Qed.

End Indices.

(** ** What the four operations do to the structure *)

Lemma bq_popbuf_eq (q : bq) :
  bq_popbuf q = ((popbuf_ptr q, popbuf_len q), q).
Proof. reflexivity. Qed.

Lemma bq_pushbuf_eq (q : bq) :
  bq_pushbuf q = ((pushbuf_ptr q, pushbuf_len q), q).
Proof. reflexivity. Qed.

Lemma bq_push_eq (count : Z) (q : bq) :
  bq_push count q = (tt, set_tail q (tail q + count)%sz).
Proof. reflexivity. Qed.

Lemma bq_pop_eq (count : Z) (q : bq) :
  bq_pop count q = (tt, set_head q (head q + count)%sz).
Proof. reflexivity. Qed.

Lemma after_push (count : Z) (q : bq) :
  after (bq_push count) q = set_tail q (tail q + count)%sz.
Proof. reflexivity. Qed.

Lemma after_pop (count : Z) (q : bq) :
  after (bq_pop count) q = set_head q (head q + count)%sz.
Proof. reflexivity. Qed.

Lemma popbuf_ptr_eq (q : bq) : popbuf_ptr q = data q + (head q & mask q)%sz.
Proof. reflexivity. Qed.

Lemma pushbuf_ptr_eq (q : bq) : pushbuf_ptr q = data q + (tail q & mask q)%sz.
Proof. reflexivity. Qed.

Lemma add_range (a b : Z) : SizeT.in_range (a + b)%sz.
Proof. apply wrap_range. Qed.

Lemma wf_set_tail (q : bq) (v : Z) :
  wf q -> SizeT.in_range v -> wf (set_tail q v).
Proof. intros [Hk Hm Hh Ht] Hv. constructor; cbn; assumption. Qed.

Lemma wf_set_head (q : bq) (v : Z) :
  wf q -> SizeT.in_range v -> wf (set_head q v).
Proof. intros [Hk Hm Hh Ht] Hv. constructor; cbn; assumption. Qed.

Lemma used_range (q : bq) : 0 <= used q < SizeT.modulus.
Proof. apply wrap_range. Qed.

Lemma used_after_push (q : bq) (count : Z) :
  0 <= count -> used q + count < SizeT.modulus ->
  used (set_tail q (tail q + count)%sz) = used q + count.
Proof.
  intros H0 Hlt. pose proof (used_range q) as Hu.
  unfold used, SizeT.sub, SizeT.add, SizeT.wrap in *. cbn [head tail set_tail].
  rewrite Zminus_mod_idemp_l.
  replace (tail q + count - head q) with (tail q - head q + count) by lia.
  rewrite <- Zplus_mod_idemp_l. apply Z.mod_small. lia.
Qed.

Lemma used_after_pop (q : bq) (count : Z) :
  0 <= count <= used q ->
  used (set_head q (head q + count)%sz) = used q - count.
Proof.
  intros Hc. pose proof (used_range q) as Hu.
  unfold used, SizeT.sub, SizeT.add, SizeT.wrap in *. cbn [head tail set_head].
  rewrite Zminus_mod_idemp_r.
  replace (tail q - (head q + count)) with (tail q - head q - count) by lia.
  rewrite <- Zminus_mod_idemp_l. apply Z.mod_small. lia.
Qed.

Lemma head_plus_used (q : bq) : wf q -> (head q + used q)%sz = tail q.
Proof.
  intros [_ _ _ Ht]. unfold used, SizeT.sub, SizeT.add, SizeT.wrap.
  rewrite Zplus_mod_idemp_r.
  replace (head q + (tail q - head q)) with (tail q) by lia.
  apply Z.mod_small. exact Ht.
Qed.

Lemma is_empty_used (q : bq) : wf q -> (is_empty q <-> used q = 0).
Proof.
  intros Hwf. unfold is_empty. split.
  - intros He. unfold used, SizeT.sub. rewrite He, Z.sub_diag. reflexivity.
  - intros H0. rewrite <- (head_plus_used q Hwf), H0.
    apply add_0_sz. apply Hwf.
Qed.

(** The two lengths as minima. *)
Lemma pushbuf_len_min_eq (q : bq) :
  wf q -> I1 q ->
  pushbuf_len q =
  Z.min (capacity q - used q) (capacity q - (tail q & mask q)%sz).
Proof.
  intros Hwf Hinv. pose proof (index_range q Hwf (head q)) as Hh.
  destruct (lengths_cases q Hwf Hinv)
    as [(H1 & _ & H3 & _ & H5) | (H1 & _ & H3 & _ & _ & H5)];
    rewrite H5, H3; lia.
Qed.

Lemma popbuf_len_min_eq (q : bq) :
  wf q -> I1 q ->
  popbuf_len q = Z.min (used q) (capacity q - (head q & mask q)%sz).
Proof.
  intros Hwf Hinv. pose proof (index_range q Hwf (tail q)) as Ht.
  destruct (lengths_cases q Hwf Hinv)
    as [(H1 & _ & H3 & H4 & _) | (H1 & _ & H3 & _ & H4 & _)];
    rewrite H4; lia.
Qed.

Lemma capacity_bounds (q : bq) :
  wf q -> 1 <= capacity q /\ 2 * capacity q <= SizeT.modulus.
Proof.
  intros Hwf. rewrite (capacity_pow2 q Hwf). destruct Hwf as [Hk _ _ _].
  pose proof (pow2_pos (cap_lg2 q) ltac:(lia)).
  pose proof (pow2_lt_modulus (cap_lg2 q) Hk). lia.
Qed.

Lemma I1_after_push (q : bq) (count : Z) :
  wf q -> I1 q -> 0 <= count <= pushbuf_len q ->
  I1 (set_tail q (tail q + count)%sz) /\
  used (set_tail q (tail q + count)%sz) = used q + count.
Proof.
  intros Hwf Hinv Hc. pose proof (capacity_bounds q Hwf) as Hcap.
  pose proof (pushbuf_len_min_eq q Hwf Hinv) as Hlen.
  pose proof (used_range q) as Hu.
  assert (Hused : used (set_tail q (tail q + count)%sz) = used q + count)
    by (apply used_after_push; lia).
  split; [|exact Hused].
  unfold I1. rewrite Hused. change (capacity (set_tail q _)) with (capacity q).
  lia.
Qed.

Lemma I1_after_pop (q : bq) (count : Z) :
  wf q -> I1 q -> 0 <= count <= popbuf_len q ->
  I1 (set_head q (head q + count)%sz) /\
  used (set_head q (head q + count)%sz) = used q - count.
Proof.
  intros Hwf Hinv Hc.
  pose proof (popbuf_len_min_eq q Hwf Hinv) as Hlen.
  pose proof (used_range q) as Hu. unfold I1 in Hinv.
  assert (Hused : used (set_head q (head q + count)%sz) = used q - count)
    by (apply used_after_pop; lia).
  split; [|exact Hused].
  unfold I1. rewrite Hused. change (capacity (set_head q _)) with (capacity q).
  lia.
Qed.

(** ** Construction *)

Lemma msb_step_good (L s : Z) (st : Z * Z) :
  0 < s -> msb_good L (2 * s) st -> msb_good L s (msb_step s st).
Proof.
  intros Hs. destruct st as [len msb]. unfold msb_good, msb_step.
  intros (Hlen & Hmsb & Hsum & Hdiv).
  pose proof (pow2_pos s ltac:(lia)) as Hps.
  pose proof (pow2_pos msb Hmsb) as Hpm.
  rewrite shr_div by lia.
  replace (2 * s) with (s + s) in Hlen by lia.
  rewrite Z.pow_add_r in Hlen by lia.
  destruct (Z.eqb_spec (len / 2 ^ s) 0) as [Hz | Hnz].
  - repeat split; try lia.
    apply Z.div_small_iff in Hz; lia.
  - assert (Hq : 0 <= len / 2 ^ s) by (apply Z.div_pos; lia).
    unfold UChar.add, UChar.modulus.
    rewrite Z.mod_small by (unfold SizeT.bits in *; lia).
    repeat split; try lia.
    + apply Z.div_lt_upper_bound; lia.
    + rewrite Hdiv, Z.pow_add_r, Z.div_div by lia. reflexivity.
Qed.

Lemma msb_last_good (L : Z) (st : Z * Z) :
  msb_good L 2 st ->
  0 <= msb_last st < SizeT.bits /\
  2 ^ msb_last st <= L < 2 * 2 ^ msb_last st.
Proof.
  destruct st as [len msb]. unfold msb_good, msb_last.
  intros (Hlen & Hmsb & Hsum & Hdiv).
  pose proof (pow2_pos msb Hmsb) as Hpm.
  assert (HL : 0 <= L).
  { destruct (Z_lt_ge_dec L 0) as [Hneg|]; [|lia].
    pose proof (Z.div_lt_upper_bound L (2 ^ msb) 0 Hpm ltac:(lia)). lia. }
  pose proof (Z.mul_div_le L (2 ^ msb) Hpm) as Hlo.
  pose proof (Z.mul_succ_div_gt L (2 ^ msb) Hpm) as Hhi.
  rewrite <- Hdiv in Hlo, Hhi.
  change (2 ^ 2) with 4 in Hlen.
  rewrite shr_div by lia. change (2 ^ 1) with 2.
  destruct (Z.eqb_spec (len / 2) 0) as [Hz | Hnz].
  - apply Z.div_small_iff in Hz; [|lia].
    assert (len = 1) by lia. subst len. lia.
  - assert (2 <= len).
    { destruct (Z_lt_ge_dec len 2) as [Hlt|]; [|lia].
      rewrite Z.div_small in Hnz by lia. lia. }
    unfold UChar.add, UChar.modulus.
    rewrite Z.mod_small by (unfold SizeT.bits in *; lia).
    rewrite Z.pow_add_r by lia. change (2 ^ 1) with 2. nia.
Qed.

Lemma msb_of_spec (L : Z) :
  0 < L < SizeT.modulus ->
  0 <= msb_of L < SizeT.bits /\ 2 ^ msb_of L <= L < 2 * 2 ^ msb_of L.
Proof.
  intros HL. unfold msb_of. apply msb_last_good.
  apply (msb_step_good L 2); [lia|].
  apply (msb_step_good L 4); [lia|].
  apply (msb_step_good L 8); [lia|].
  apply (msb_step_good L 16); [lia|].
  apply (msb_step_good L 32); [lia|].
  unfold msb_good. change (2 ^ 0) with 1. rewrite Z.div_1_r.
  repeat split; try apply HL; unfold SizeT.bits; lia.
Qed.

Lemma bq_make_real (buf : ptr) (len : Z) :
  buf <> NULL -> len <> 0 ->
  bq_make buf len =
  {| head := 0; tail := 0; mask := ((1 << msb_of len) - 1)%sz;
     cap_lg2 := msb_of len; data := buf |}.
Proof.
  intros Hb Hl. unfold bq_make.
  destruct (Z.eqb_spec buf NULL); [contradiction|].
  destruct (Z.eqb_spec len 0); [contradiction|]. reflexivity.
Qed.

Lemma mask_of_msb (k : Z) :
  0 <= k < SizeT.bits -> ((1 << k) - 1)%sz = 2 ^ k - 1.
Proof.
  intros Hk. pose proof (pow2_pos k ltac:(lia)).
  pose proof (pow2_lt_modulus k Hk).
  unfold SizeT.shl, SizeT.sub. rewrite Z.shiftl_1_l.
  rewrite (wrap_small (2 ^ k)) by (unfold SizeT.in_range; lia).
  apply wrap_small. unfold SizeT.in_range. lia.
Qed.

Lemma bq_make_wf (buf : ptr) (len : Z) :
  buf <> NULL -> 0 < len < SizeT.modulus ->
  wf (bq_make buf len) /\ I1 (bq_make buf len) /\
  head (bq_make buf len) = 0 /\ tail (bq_make buf len) = 0.
Proof.
  intros Hb HL. rewrite bq_make_real by lia.
  destruct (msb_of_spec len HL) as [Hk Hpow].
  assert (Hwf : wf {| head := 0; tail := 0;
                      mask := ((1 << msb_of len) - 1)%sz;
                      cap_lg2 := msb_of len; data := buf |}).
  { constructor; cbn [head tail mask cap_lg2].
    - exact Hk.
    - apply mask_of_msb, Hk.
    - split; [lia | exact modulus_pos].
    - split; [lia | exact modulus_pos]. }
  split; [exact Hwf|]. split; [|split; reflexivity].
  pose proof (capacity_bounds _ Hwf) as Hc. unfold I1.
  change (used _) with 0. lia.
Qed.

Lemma bq_make_null (buf : ptr) (len : Z) :
  buf = NULL \/ len = 0 -> bq_make buf len = bq_zero.
Proof.
  intros [-> | ->]; unfold bq_make.
  - reflexivity.
  - rewrite Z.eqb_refl, orb_true_r. reflexivity.
Qed.

Lemma bq_zero_wf : wf bq_zero /\ I1 bq_zero.
Proof.
  split.
  - constructor; cbn; unfold SizeT.in_range; try reflexivity;
      split; try lia; reflexivity.
  - unfold I1. split; discriminate.
Qed.

(** ** Bytes stored across a commit *)

Lemma ring_bytes_set_tail (m : memory) (q : bq) (v : Z) (n : nat) (cursor : Z) :
  ring_bytes m (set_tail q v) cursor n = ring_bytes m q cursor n.
Proof.
  revert cursor. induction n as [|n IH]; intros cursor; cbn [ring_bytes].
  - reflexivity.
  - rewrite IH. reflexivity.
Qed.

Lemma ring_bytes_set_head (m : memory) (q : bq) (v : Z) (n : nat) (cursor : Z) :
  ring_bytes m (set_head q v) cursor n = ring_bytes m q cursor n.
Proof.
  revert cursor. induction n as [|n IH]; intros cursor; cbn [ring_bytes].
  - reflexivity.
  - rewrite IH. reflexivity.
Qed.

Section Commits.

Variable q : bq.
Variable m : memory.
Hypothesis Hwf : wf q.
Hypothesis Hinv : I1 q.

(** A write into the slice of [bq_pushbuf] leaves the stored bytes as
    they are. *)
Lemma write_slice_disjoint (bs : list byte) (i : Z) :
  Z.of_nat (length bs) <= pushbuf_len q ->
  0 <= i < used q ->
  memcpy m (pushbuf_ptr q) bs (data q + ((head q + i) & mask q)%sz) =
  m (data q + ((head q + i) & mask q)%sz).
Proof.
  intros Hn Hi. apply memcpy_outside. rewrite pushbuf_ptr_eq.
  pose proof (index_range q Hwf (head q)) as Hho.
  unfold I1 in Hinv.
  rewrite (index_add q Hwf) by lia.
  destruct (lengths_cases q Hwf Hinv)
    as [(H1 & _ & H3 & _ & H5) | (H1 & _ & H3 & _ & _ & H5)];
    rewrite H3;
    destruct (Z.ltb_spec ((head q & mask q)%sz + i) (capacity q)); lia.
Qed.

Lemma stored_after_push (bs : list byte) :
  Z.of_nat (length bs) <= pushbuf_len q ->
  stored (set_tail q (tail q + Z.of_nat (length bs))%sz)
         (memcpy m (pushbuf_ptr q) bs) =
  stored q m ++ bs.
Proof.
  intros Hn. pose proof (used_range q) as Hu.
  destruct (I1_after_push q (Z.of_nat (length bs)) Hwf Hinv ltac:(lia))
    as [_ Hused].
  unfold stored. rewrite Hused, ring_bytes_set_tail.
  cbn [head set_tail].
  rewrite Z2Nat.inj_add, Nat2Z.id by lia.
  rewrite (ring_bytes_app q Hwf).
  rewrite Z2Nat.id by lia. rewrite (head_plus_used q Hwf).
  f_equal.
  - apply (ring_bytes_ext q Hwf). intros i Hi.
    apply write_slice_disjoint; [exact Hn | lia].
  - rewrite (ring_bytes_contig q Hwf).
    + rewrite <- pushbuf_ptr_eq. apply read_memcpy.
    + pose proof (pushbuf_len_min_eq q Hwf Hinv). lia.
Qed.

Lemma stored_before_pop (count : Z) :
  0 <= count <= popbuf_len q ->
  stored q m =
  read_bytes m (popbuf_ptr q) (Z.to_nat count) ++
  stored (set_head q (head q + count)%sz) m.
Proof.
  intros Hc. pose proof (popbuf_len_min_eq q Hwf Hinv) as Hlen.
  destruct (I1_after_pop q count Hwf Hinv Hc) as [_ Hused].
  unfold stored. rewrite Hused, ring_bytes_set_head.
  cbn [head set_head].
  replace (Z.to_nat (used q))
    with (Z.to_nat count + Z.to_nat (used q - count))%nat by lia.
  rewrite (ring_bytes_app q Hwf), Z2Nat.id by lia.
  f_equal. rewrite popbuf_ptr_eq. apply (ring_bytes_contig q Hwf). lia.
Qed.

(** A commit on one side never shortens what the other side was
    promised. *)
Lemma pushbuf_len_after_pop (count : Z) :
  0 <= count <= popbuf_len q ->
  pushbuf_ptr (set_head q (head q + count)%sz) = pushbuf_ptr q /\
  pushbuf_len q <= pushbuf_len (set_head q (head q + count)%sz).
Proof.
  intros Hc. split; [reflexivity|].
  destruct (I1_after_pop q count Hwf Hinv Hc) as [Hinv' Hused].
  rewrite (pushbuf_len_min_eq q Hwf Hinv).
  rewrite (pushbuf_len_min_eq _ (wf_set_head q _ Hwf (add_range _ _)) Hinv').
  rewrite Hused. cbn [tail mask set_head].
  change (capacity (set_head q _)) with (capacity q). lia.
Qed.

Lemma popbuf_len_after_push (count : Z) :
  0 <= count <= pushbuf_len q ->
  popbuf_ptr (set_tail q (tail q + count)%sz) = popbuf_ptr q /\
  popbuf_len q <= popbuf_len (set_tail q (tail q + count)%sz).
Proof.
  intros Hc. split; [reflexivity|].
  destruct (I1_after_push q count Hwf Hinv Hc) as [Hinv' Hused].
  rewrite (popbuf_len_min_eq q Hwf Hinv).
  rewrite (popbuf_len_min_eq _ (wf_set_tail q _ Hwf (add_range _ _)) Hinv').
  rewrite Hused. cbn [head mask set_tail].
  change (capacity (set_tail q _)) with (capacity q). lia.
Qed.

End Commits.

(** ** The invariant of the protocol *)

Lemma start_inv (q : bq) (m : memory) : wf q -> I1 q -> inv (start q m).
Proof.
  intros Hwf Hinv. constructor; cbn; try assumption; try reflexivity;
    intros a l Hs; discriminate Hs.
Qed.

Lemma step_inv (s s' : sys) (c : call) :
  inv s -> step s c = Some s' -> inv s'.
Proof.
  intros [Hwf Hinv Hbytes Hw Hr] Hstep.
  destruct c as [| bytes | | count]; cbn [step] in Hstep.
  - rewrite bq_pushbuf_eq in Hstep. injection Hstep as <-.
    constructor; cbn [queue mem wslice rslice committed observed];
      try assumption.
    intros a l Hs. injection Hs as <- <-. split; [reflexivity | lia].
  - destruct (wslice s) as [[addr len]|] eqn:Hws; [|discriminate].
    destruct (Hw addr len eq_refl) as [-> Hlen].
    destruct (Z.leb_spec (Z.of_nat (length bytes)) len) as [Hle|];
      [|discriminate].
    rewrite bq_push_eq in Hstep. injection Hstep as <-.
    assert (Hc : 0 <= Z.of_nat (length bytes) <= pushbuf_len (queue s)) by lia.
    constructor; cbn [queue mem wslice rslice committed observed].
    + apply wf_set_tail; [exact Hwf | apply add_range].
    + apply I1_after_push; assumption.
    + rewrite stored_after_push by (assumption || lia).
      rewrite Hbytes, app_assoc. reflexivity.
    + intros a l Hs. discriminate Hs.
    + intros a l Hs. destruct (Hr a l Hs) as [-> Hl].
      destruct (popbuf_len_after_push (queue s) Hwf Hinv _ Hc) as [Hp Hm].
      split; [symmetry; exact Hp | lia].
  - rewrite bq_popbuf_eq in Hstep. injection Hstep as <-.
    constructor; cbn [queue mem wslice rslice committed observed];
      try assumption.
    intros a l Hs. injection Hs as <- <-. split; [reflexivity | lia].
  - destruct (rslice s) as [[addr len]|] eqn:Hrs; [|discriminate].
    destruct (Hr addr len eq_refl) as [-> Hlen].
    destruct (Z.leb_spec 0 count) as [H0|]; [|discriminate].
    destruct (Z.leb_spec count len) as [Hle|]; [|discriminate].
    cbn [andb] in Hstep.
    rewrite bq_pop_eq in Hstep. injection Hstep as <-.
    assert (Hc : 0 <= count <= popbuf_len (queue s)) by lia.
    constructor; cbn [queue mem wslice rslice committed observed].
    + apply wf_set_head; [exact Hwf | apply add_range].
    + apply I1_after_pop; assumption.
    + rewrite Hbytes, (stored_before_pop (queue s) (mem s) Hwf Hinv count Hc).
      rewrite app_assoc. reflexivity.
    + intros a l Hs. destruct (Hw a l Hs) as [-> Hl].
      destruct (pushbuf_len_after_pop (queue s) Hwf Hinv _ Hc) as [Hp Hm].
      split; [symmetry; exact Hp | lia].
    + intros a l Hs. discriminate Hs.
Qed.

Lemma run_inv (calls : list call) (s s' : sys) :
  inv s -> run s calls = Some s' -> inv s'.
Proof.
  revert s. induction calls as [|c calls IH]; intros s Hs Hrun;
    cbn [run] in Hrun.
  - injection Hrun as <-. exact Hs.
  - destruct (step s c) as [s1|] eqn:Hstep; [|discriminate].
    apply (IH s1); [|exact Hrun]. apply (step_inv s s1 c); assumption.
Qed.

(** ** Concrete states used below *)

Lemma wf_concrete (h t k d : Z) :
  (0 <=? k) && (k <? SizeT.bits) = true ->
  (0 <=? h) && (h <? SizeT.modulus) = true ->
  (0 <=? t) && (t <? SizeT.modulus) = true ->
  wf {| head := h; tail := t; mask := 2 ^ k - 1; cap_lg2 := k; data := d |}.
Proof.
  intros Hk Hh Ht.
  apply andb_prop in Hk, Hh, Ht.
  destruct Hk as [Hk1 Hk2], Hh as [Hh1 Hh2], Ht as [Ht1 Ht2].
  apply Z.leb_le in Hk1, Hh1, Ht1. apply Z.ltb_lt in Hk2, Hh2, Ht2.
  constructor; cbn [head tail mask cap_lg2]; unfold SizeT.in_range;
    try split; try assumption; reflexivity.
Qed.

Lemma I1_concrete (q : bq) :
  (0 <=? used q) && (used q <=? capacity q) = true -> I1 q.
Proof.
  intros H. apply andb_prop in H. destruct H as [H1 H2].
  apply Z.leb_le in H1, H2. split; assumption.
Qed.

(** * The length reported by [bq_pushbuf] *)

(** C1: in a state with capacity [2^cap_lg2], mask [capacity - 1] and I1,
    the length [bq_pushbuf] stores in [*len] is the smaller of the free
    space, [capacity - (tail - head)], and the distance from the write
    index to the end of storage, [capacity - (tail & mask)].  On a
    capacity-4 queue, after a commit of 3 written bytes and a commit of
    2 read bytes, it is 1: so for the two commits alone, and so in the
    protocol, where the consumer is then left a slice of 1 byte at
    offset 2 and the producer a slice of 1 byte at offset 3. *)
Theorem pushbuf_len_contiguous_free :
  (forall q : bq, wf q -> I1 q ->
     pushbuf_len q =
     Z.min (capacity q - (tail q - head q)%sz)
           (capacity q - (tail q & mask q)%sz)) /\
  (forall buf : ptr, buf <> NULL ->
     capacity (bq_make buf 4) = 4 /\
     pushbuf_len (after (bq_pop 2) (after (bq_push 3) (bq_make buf 4))) = 1) /\
  (forall (buf : ptr) (m : memory), buf <> NULL ->
     option_map (fun s => (rslice s, wslice s))
       (run (start (bq_make buf 4) m)
            [PushBuf; Push [x01; x02; x03]; PopBuf; Pop 2; PopBuf; PushBuf])
     = Some (Some (buf + 2, 1), Some (buf + 3, 1))).
Proof.
  split; [|split].
  - intros q Hwf Hinv. exact (pushbuf_len_min_eq q Hwf Hinv).
  - intros buf Hbuf. rewrite bq_make_real by (assumption || discriminate).
    split; reflexivity.
  - intros buf m Hbuf. rewrite bq_make_real by (assumption || discriminate).
    vm_compute. reflexivity.
Qed.

Lemma pushbuf_len_contiguous_free_witness :
  let q := after (bq_pop 2) (after (bq_push 3) (bq_make 1000 4)) in
  wf q /\ I1 q /\
  pushbuf_len q =
  Z.min (capacity q - (tail q - head q)%sz) (capacity q - (tail q & mask q)%sz).
Proof.
  assert (Hwf : wf (after (bq_pop 2) (after (bq_push 3) (bq_make 1000 4))))
    by (apply (wf_concrete 2 3 2 1000); reflexivity).
  assert (Hinv : I1 (after (bq_pop 2) (after (bq_push 3) (bq_make 1000 4))))
    by (apply I1_concrete; reflexivity).
  exact (conj Hwf (conj Hinv
           (proj1 pushbuf_len_contiguous_free _ Hwf Hinv))).
Defined.

(** * The length reported by [bq_popbuf] *)

(** C2: under the same conditions the length [bq_popbuf] stores in [*len]
    is [tail - head] when [tail >> cap_lg2] equals [head >> cap_lg2], and
    [tail - head - (tail & mask)] otherwise; either way it is the smaller
    of the bytes available, [tail - head], and the distance from the read
    index to the end of storage, [capacity - (head & mask)]. *)
Theorem popbuf_len_contiguous_avail (q : bq) :
  wf q -> I1 q ->
  popbuf_len q =
    (if (tail q >> cap_lg2 q)%sz =? (head q >> cap_lg2 q)%sz
     then (tail q - head q)%sz
     else (tail q - head q - (tail q & mask q))%sz) /\
  popbuf_len q =
    Z.min (tail q - head q)%sz (capacity q - (head q & mask q)%sz).
Proof.
  intros Hwf Hinv. split; [|exact (popbuf_len_min_eq q Hwf Hinv)].
  destruct (lengths_cases q Hwf Hinv)
    as [(_ & Hsame & _ & Hlen & _) | (_ & Hdiff & _ & Hlen & _)].
  - rewrite Hsame, Z.eqb_refl. exact Hlen.
  - destruct (Z.eqb_spec (tail q >> cap_lg2 q)%sz (head q >> cap_lg2 q)%sz);
      [contradiction | exact Hlen].
Qed.

Lemma popbuf_len_contiguous_avail_witness :
  let q := {| head := 6; tail := 9; mask := 3; cap_lg2 := 2; data := 1000 |} in
  wf q /\ I1 q /\
  popbuf_len q =
    (if (tail q >> cap_lg2 q)%sz =? (head q >> cap_lg2 q)%sz
     then (tail q - head q)%sz
     else (tail q - head q - (tail q & mask q))%sz) /\
  popbuf_len q =
    Z.min (tail q - head q)%sz (capacity q - (head q & mask q)%sz).
Proof.
  assert (Hwf : wf {| head := 6; tail := 9; mask := 3; cap_lg2 := 2;
                      data := 1000 |})
    by (apply (wf_concrete 6 9 2 1000); reflexivity).
  assert (Hinv : I1 {| head := 6; tail := 9; mask := 3; cap_lg2 := 2;
                       data := 1000 |})
    by (apply I1_concrete; reflexivity).
  exact (conj Hwf (conj Hinv (popbuf_len_contiguous_avail _ Hwf Hinv))).
Defined.

(** * No overrun, and I1 across the operations *)

(** C4: under I1 the length of [bq_pushbuf] is at most
    [capacity - (tail - head)] and that of [bq_popbuf] at most
    [tail - head]; a commit of any count within the reported length
    leads to a state within I1, and the two queries keep the state, so
    every operation preserves I1. *)
Theorem no_overrun_I1_preserved (q : bq) :
  wf q -> I1 q ->
  0 <= pushbuf_len q <= capacity q - (tail q - head q)%sz /\
  0 <= popbuf_len q <= (tail q - head q)%sz /\
  (forall count, 0 <= count <= pushbuf_len q ->
     I1 (after (bq_push count) q)) /\
  (forall count, 0 <= count <= popbuf_len q ->
     I1 (after (bq_pop count) q)) /\
  I1 (after bq_pushbuf q) /\ I1 (after bq_popbuf q).
Proof.
  intros Hwf Hinv.
  pose proof (pushbuf_len_min_eq q Hwf Hinv) as Hpush.
  pose proof (popbuf_len_min_eq q Hwf Hinv) as Hpop.
  pose proof (index_range q Hwf (head q)) as Hh.
  pose proof (index_range q Hwf (tail q)) as Ht.
  fold (used q).
  split; [unfold I1 in Hinv; lia|].
  split; [unfold I1 in Hinv; lia|].
  split; [|split; [|split; assumption]].
  - intros count Hc. rewrite after_push.
    apply (I1_after_push q count Hwf Hinv Hc).
  - intros count Hc. rewrite after_pop.
    apply (I1_after_pop q count Hwf Hinv Hc).
Qed.

Lemma no_overrun_I1_preserved_witness :
  let q := {| head := 6; tail := 9; mask := 3; cap_lg2 := 2; data := 1000 |} in
  wf q /\ I1 q /\
  0 <= pushbuf_len q <= capacity q - (tail q - head q)%sz /\
  0 <= popbuf_len q <= (tail q - head q)%sz /\
  (forall count, 0 <= count <= pushbuf_len q ->
     I1 (after (bq_push count) q)) /\
  (forall count, 0 <= count <= popbuf_len q ->
     I1 (after (bq_pop count) q)) /\
  I1 (after bq_pushbuf q) /\ I1 (after bq_popbuf q).
Proof.
  assert (Hwf : wf {| head := 6; tail := 9; mask := 3; cap_lg2 := 2;
                      data := 1000 |})
    by (apply (wf_concrete 6 9 2 1000); reflexivity).
  assert (Hinv : I1 {| head := 6; tail := 9; mask := 3; cap_lg2 := 2;
                       data := 1000 |})
    by (apply I1_concrete; reflexivity).
  exact (conj Hwf (conj Hinv (no_overrun_I1_preserved _ Hwf Hinv))).
Defined.

(** * Zero lengths *)

(** C10: under I1, [bq_pushbuf] stores 0 exactly when the queue is full
    and [bq_popbuf] stores 0 exactly when it is empty; a queue that is
    neither reports a positive length on both sides. *)
Theorem zero_length_iff_full_or_empty (q : bq) :
  wf q -> I1 q ->
  (pushbuf_len q = 0 <-> is_full q) /\
  (popbuf_len q = 0 <-> is_empty q) /\
  (~ is_full q -> ~ is_empty q -> 0 < pushbuf_len q /\ 0 < popbuf_len q).
Proof.
  intros Hwf Hinv.
  pose proof (pushbuf_len_min_eq q Hwf Hinv) as Hpush.
  pose proof (popbuf_len_min_eq q Hwf Hinv) as Hpop.
  pose proof (index_range q Hwf (head q)) as Hh.
  pose proof (index_range q Hwf (tail q)) as Ht.
  pose proof (is_empty_used q Hwf) as He.
  unfold is_full. unfold I1 in Hinv.
  split; [|split].
  - split; intros Hz; lia.
  - split.
    + intros Hz. apply He. lia.
    + intros Hempty. apply He in Hempty. lia.
  - intros Hnfull Hnempty.
    assert (Hnz : used q <> 0) by (intros Hz; apply Hnempty, He, Hz).
    lia.
Qed.

Lemma zero_length_iff_full_or_empty_witness :
  let q := {| head := SizeT.max - 1; tail := 2; mask := 3; cap_lg2 := 2;
              data := 1000 |} in
  wf q /\ I1 q /\
  (pushbuf_len q = 0 <-> is_full q) /\
  (popbuf_len q = 0 <-> is_empty q) /\
  (~ is_full q -> ~ is_empty q -> 0 < pushbuf_len q /\ 0 < popbuf_len q).
Proof.
  assert (Hwf : wf {| head := SizeT.max - 1; tail := 2; mask := 3;
                      cap_lg2 := 2; data := 1000 |})
    by (apply (wf_concrete (SizeT.max - 1) 2 2 1000); reflexivity).
  assert (Hinv : I1 {| head := SizeT.max - 1; tail := 2; mask := 3;
                       cap_lg2 := 2; data := 1000 |})
    by (apply I1_concrete; reflexivity).
  exact (conj Hwf (conj Hinv (zero_length_iff_full_or_empty _ Hwf Hinv))).
Defined.

(** * The queries change nothing *)

Lemma read_only_ret {A : Type} (a : A) : read_only (ret a).
Proof. intros q. reflexivity. Qed.

Lemma read_only_field (f : bq -> Z) : read_only (field f).
Proof. intros q. reflexivity. Qed.

Lemma read_only_atomic_load_n (f : bq -> Z) : read_only (atomic_load_n f).
Proof. intros q. reflexivity. Qed.

Lemma read_only_bind {A B : Type} (c : M A) (k : A -> M B) :
  read_only c -> (forall a, read_only (k a)) -> read_only (bind c k).
Proof.
  intros Hc Hk q. specialize (Hc q). unfold after, bind in *.
  destruct (c q) as [a q']. cbn [snd] in Hc. subst q'. apply Hk.
Qed.

(** The commits, by contrast, do write: one cursor each. *)
Lemma commits_write (q : bq) (count : Z) :
  tail (after (bq_push count) q) = (tail q + count)%sz /\
  head (after (bq_push count) q) = head q /\
  head (after (bq_pop count) q) = (head q + count)%sz /\
  tail (after (bq_pop count) q) = tail q.
Proof. repeat split. Qed.

(** C9: [bq_popbuf] and [bq_pushbuf] leave the structure as it was, every
    field of it ([head], [tail], [mask], [cap_lg2], [data]); what they
    produce is the returned pointer and the length stored in [*len]. *)
Theorem queries_are_pure (q : bq) :
  after bq_popbuf q = q /\ after bq_pushbuf q = q /\
  bq_popbuf q = ((popbuf_ptr q, popbuf_len q), q) /\
  bq_pushbuf q = ((pushbuf_ptr q, pushbuf_len q), q).
Proof.
  assert (Hpop : read_only bq_popbuf).
  { unfold bq_popbuf.
    repeat (apply read_only_bind;
            [first [apply read_only_atomic_load_n | apply read_only_field]
            | intros ?]).
    apply read_only_ret. }
  assert (Hpush : read_only bq_pushbuf).
  { unfold bq_pushbuf.
    repeat (apply read_only_bind;
            [first [apply read_only_atomic_load_n | apply read_only_field]
            | intros ?]).
    apply read_only_ret. }
  split; [apply Hpop|]. split; [apply Hpush|].
  split; [apply bq_popbuf_eq | apply bq_pushbuf_eq].
Qed.

(** * Construction *)

(** C7: right after [bq_make] on a real buffer of length at least 1 the
    cursors are both 0, [bq_popbuf] reports length 0 and [bq_pushbuf]
    reports the whole capacity. *)
Theorem fresh_queue_lengths (buf : ptr) (len : Z) :
  buf <> NULL -> 1 <= len < SizeT.modulus ->
  head (bq_make buf len) = 0 /\ tail (bq_make buf len) = 0 /\
  popbuf_len (bq_make buf len) = 0 /\
  pushbuf_len (bq_make buf len) = capacity (bq_make buf len).
Proof.
  intros Hbuf Hlen.
  destruct (bq_make_wf buf len Hbuf ltac:(lia)) as (Hwf & Hinv & Hh & Ht).
  pose proof (index_range _ Hwf (head (bq_make buf len))) as Hhi.
  pose proof (index_range _ Hwf (tail (bq_make buf len))) as Hti.
  rewrite (pushbuf_len_min_eq _ Hwf Hinv), (popbuf_len_min_eq _ Hwf Hinv).
  assert (Hu : used (bq_make buf len) = 0)
    by (unfold used; rewrite Hh, Ht; reflexivity).
  assert (Hidx : (tail (bq_make buf len) & mask (bq_make buf len))%sz = 0)
    by (rewrite Ht; reflexivity).
  rewrite Hu, Hidx. repeat split; try assumption; lia.
Qed.

Lemma fresh_queue_lengths_witness :
  1000 <> NULL /\ 1 <= 1000 < SizeT.modulus /\
  head (bq_make 1000 1000) = 0 /\ tail (bq_make 1000 1000) = 0 /\
  popbuf_len (bq_make 1000 1000) = 0 /\
  pushbuf_len (bq_make 1000 1000) = capacity (bq_make 1000 1000).
Proof.
  assert (Hbuf : 1000 <> NULL) by discriminate.
  assert (Hlen : 1 <= 1000 < SizeT.modulus)
    by (split; [discriminate | reflexivity]).
  exact (conj Hbuf (conj Hlen (fresh_queue_lengths 1000 1000 Hbuf Hlen))).
Defined.

Lemma pow2_le_capacity (k j L : Z) :
  0 <= k -> 0 <= j -> L < 2 * 2 ^ k -> 2 ^ j <= L -> 2 ^ j <= 2 ^ k.
Proof.
  intros Hk Hj Hhi Hlo.
  assert (Hlt : 2 ^ j < 2 ^ (k + 1)).
  { rewrite Z.pow_add_r by lia. change (2 ^ 1) with 2. lia. }
  apply Z.pow_lt_mono_r_iff in Hlt; [|lia|lia].
  apply Z.pow_le_mono_r; lia.
Qed.

(** C6, amended: for a real buffer and a length [1 <= L < 2^64],
    [bq_make] yields a queue whose capacity, [mask + 1 = 2^cap_lg2], is
    the largest power of two not above [L]; for [L = 0] it yields the
    all-zero structure, whose [mask + 1] is [2^0 = 1] and whose [data]
    is null. *)
Theorem bq_make_capacity (buf : ptr) (len : Z) :
  buf <> NULL ->
  (1 <= len < SizeT.modulus ->
     mask (bq_make buf len) + 1 = 2 ^ cap_lg2 (bq_make buf len) /\
     capacity (bq_make buf len) = 2 ^ cap_lg2 (bq_make buf len) /\
     0 <= cap_lg2 (bq_make buf len) < SizeT.bits /\
     capacity (bq_make buf len) <= len /\
     (forall j, 0 <= j -> 2 ^ j <= len ->
        2 ^ j <= capacity (bq_make buf len))) /\
  (len = 0 ->
     bq_make buf len = bq_zero /\
     capacity (bq_make buf len) = 1 /\
     2 ^ cap_lg2 (bq_make buf len) = 1 /\
     data (bq_make buf len) = NULL).
Proof.
  intros Hbuf. split.
  - intros Hlen.
    destruct (bq_make_wf buf len Hbuf ltac:(lia)) as (Hwf & _).
    rewrite (capacity_pow2 _ Hwf).
    assert (Hk : cap_lg2 (bq_make buf len) = msb_of len)
      by (rewrite bq_make_real by lia; reflexivity).
    destruct (msb_of_spec len ltac:(lia)) as [Hr Hpow].
    rewrite (wf_mask _ Hwf), Hk.
    split; [lia|]. split; [reflexivity|]. split; [exact Hr|].
    split; [lia|].
    intros j Hj Hle. apply (pow2_le_capacity (msb_of len) j len); lia.
  - intros ->. rewrite bq_make_null by (right; reflexivity).
    repeat split.
Qed.

Lemma bq_make_capacity_witness :
  1000 <> NULL /\ 1 <= 1000 < SizeT.modulus /\
  capacity (bq_make 1000 1000) = 2 ^ cap_lg2 (bq_make 1000 1000) /\
  cap_lg2 (bq_make 1000 1000) = 9 /\
  capacity (bq_make 1000 1000) <= 1000 /\
  2 ^ 9 <= capacity (bq_make 1000 1000) /\
  bq_make 1000 0 = bq_zero.
Proof.
  assert (Hbuf : 1000 <> NULL) by discriminate.
  assert (Hlen : 1 <= 1000 < SizeT.modulus)
    by (split; [discriminate | reflexivity]).
  destruct (proj1 (bq_make_capacity 1000 1000 Hbuf) Hlen)
    as (_ & Hcap & _ & Hle & Hmax).
  destruct (proj2 (bq_make_capacity 1000 0 Hbuf) eq_refl) as (Hzero & _).
  split; [exact Hbuf|]. split; [exact Hlen|]. split; [exact Hcap|].
  split; [reflexivity|]. split; [exact Hle|].
  split; [apply Hmax; discriminate | exact Hzero].
Defined.

(** C6 as stated fails at length 0: the capacity [mask + 1] of the queue
    made from a zero length is 1, not 0. *)
Lemma zero_length_capacity_is_not_zero :
  capacity (bq_make 1000 0) = 1 /\ capacity (bq_make 1000 0) <> 0.
Proof. split; [reflexivity | discriminate]. Qed.

(** * Degenerate construction *)

Lemma ask_all_zero (qs : list query) :
  ask_all qs bq_zero =
  (map (fun a => (a, match a with
                     | AskPop => (NULL, 0)
                     | AskPush => (NULL, 1)
                     end)) qs,
   bq_zero).
Proof.
  induction qs as [|a qs IH]; cbn [ask_all map].
  - reflexivity.
  - unfold bind at 1. destruct a; cbn [ask].
    + rewrite bq_popbuf_eq. unfold bind. rewrite IH. reflexivity.
    + rewrite bq_pushbuf_eq. unfold bind. rewrite IH. reflexivity.
Qed.

(** C5, amended: [bq_make] on a null pointer or a zero length yields the
    all-zero structure.  Whatever sequence of queries follows, each
    [bq_popbuf] reports length 0 and each [bq_pushbuf] reports length 1,
    both with a null pointer, and the structure stays as it is. *)
Theorem degenerate_queue_reports (buf : ptr) (len : Z) (qs : list query) :
  buf = NULL \/ len = 0 ->
  bq_make buf len = bq_zero /\
  ask_all qs (bq_make buf len) =
  (map (fun a => (a, match a with
                     | AskPop => (NULL, 0)
                     | AskPush => (NULL, 1)
                     end)) qs,
   bq_make buf len).
Proof.
  intros Hdeg. rewrite (bq_make_null buf len Hdeg).
  split; [reflexivity | apply ask_all_zero].
Qed.

Lemma degenerate_queue_reports_witness :
  (1000 = NULL \/ 0 = 0) /\
  bq_make 1000 0 = bq_zero /\
  ask_all [AskPush; AskPop; AskPush] (bq_make 1000 0) =
  ([(AskPush, (NULL, 1)); (AskPop, (NULL, 0)); (AskPush, (NULL, 1))],
   bq_make 1000 0).
Proof.
  assert (Hdeg : 1000 = NULL \/ 0 = 0) by (right; reflexivity).
  exact (conj Hdeg
           (degenerate_queue_reports 1000 0 [AskPush; AskPop; AskPush] Hdeg)).
Defined.

(** C5 as stated fails: on the queue made from a null pointer, and on
    the one made from a zero length, [bq_pushbuf] reports length 1. *)
Lemma degenerate_pushbuf_len_is_not_zero :
  pushbuf_len (bq_make NULL 16) <> 0 /\ pushbuf_len (bq_make 1000 0) <> 0.
Proof. split; discriminate. Qed.

(** * Conservation of bytes *)

Lemma ring_bytes_length (m : memory) (q : bq) (n : nat) (cursor : Z) :
  length (ring_bytes m q cursor n) = n.
Proof.
  revert cursor. induction n as [|n IH]; intros cursor; cbn [ring_bytes length].
  - reflexivity.
  - rewrite IH. reflexivity.
Qed.

Lemma stored_length (q : bq) (m : memory) :
  Z.of_nat (length (stored q m)) = used q.
Proof.
  unfold stored. rewrite ring_bytes_length.
  apply Z2Nat.id. apply used_range.
Qed.

Lemma slice_is_prefix (s : sys) (a : ptr) (l count : Z) :
  inv s -> rslice s = Some (a, l) -> 0 <= count <= l ->
  stored (queue s) (mem s) =
  read_bytes (mem s) a (Z.to_nat count) ++
  stored (set_head (queue s) (head (queue s) + count)%sz) (mem s).
Proof.
  intros [Hwf Hinv _ _ Hr] Hs Hc. destruct (Hr a l Hs) as [-> Hl].
  apply stored_before_pop; [assumption | assumption | lia].
Qed.

(** C3: take a queue made by [bq_make] on a real buffer and any
    sequential interleaving of the producer's [bq_pushbuf]/[bq_push] and
    the consumer's [bq_popbuf]/[bq_pop] in which every commit stays
    within the length its query returned.  Nothing was committed at the
    start; at the end the committed bytes are, in order, the observed
    bytes followed by the bytes still stored, whose number is
    [tail - head]; so the observed bytes are a prefix of the committed
    ones, and so are they extended by whatever the consumer reads next
    from the slice it holds. *)
Theorem bytes_conserved
    (buf : ptr) (len : Z) (m : memory) (calls : list call) (s : sys) :
  buf <> NULL -> 1 <= len < SizeT.modulus ->
  run (start (bq_make buf len) m) calls = Some s ->
  committed (start (bq_make buf len) m) = [] /\
  committed s = observed s ++ stored (queue s) (mem s) /\
  Z.of_nat (length (stored (queue s) (mem s))) =
    (tail (queue s) - head (queue s))%sz /\
  (exists rest, committed s = observed s ++ rest) /\
  (forall a l count, rslice s = Some (a, l) -> 0 <= count <= l ->
     exists rest,
       committed s =
       (observed s ++ read_bytes (mem s) a (Z.to_nat count)) ++ rest).
Proof.
  intros Hbuf Hlen Hrun.
  destruct (bq_make_wf buf len Hbuf ltac:(lia)) as (Hwf & Hinv & Hh & Ht).
  pose proof (run_inv calls _ s (start_inv _ m Hwf Hinv) Hrun) as Hs.
  split.
  { cbn [committed start]. unfold stored, used. rewrite Hh, Ht. reflexivity. }
  split; [apply (inv_bytes s Hs)|].
  split; [apply stored_length|].
  split; [exists (stored (queue s) (mem s)); apply (inv_bytes s Hs)|].
  intros a l count Hsl Hc.
  exists (stored (set_head (queue s) (head (queue s) + count)%sz) (mem s)).
  rewrite <- app_assoc, <- (slice_is_prefix s a l count Hs Hsl Hc).
  apply (inv_bytes s Hs).
Qed.

Lemma bytes_conserved_witness :
  exists s : sys,
    run (start (bq_make 1000 4) (fun _ => x00))
        [PushBuf; Push [x01; x02; x03]; PopBuf; Pop 2; PushBuf; Push [x04];
         PopBuf; Pop 1; PushBuf; PopBuf; Push [x05; x06]; Pop 1; PopBuf]
    = Some s /\
    observed s = [x01; x02; x03; x04] /\
    committed s = [x01; x02; x03; x04; x05; x06] /\
    committed s = observed s ++ stored (queue s) (mem s).
Proof.
  destruct (run (start (bq_make 1000 4) (fun _ => x00))
        [PushBuf; Push [x01; x02; x03]; PopBuf; Pop 2; PushBuf; Push [x04];
         PopBuf; Pop 1; PushBuf; PopBuf; Push [x05; x06]; Pop 1; PopBuf])
    as [s|] eqn:Hrun.
  - exists s. split; [reflexivity|].
    assert (Hbuf : 1000 <> NULL) by discriminate.
    assert (Hlen : 1 <= 4 < SizeT.modulus)
      by (split; [discriminate | reflexivity]).
    pose proof (bytes_conserved 1000 4 _ _ s Hbuf Hlen Hrun)
      as (_ & Hcons & _).
    vm_compute in Hrun. injection Hrun as <-.
    split; [reflexivity|]. split; [reflexivity|]. exact Hcons.
  - vm_compute in Hrun. discriminate Hrun.
Defined.

(** * Cursors that wrap past the largest [size_t] *)

Lemma wrap_once (x : Z) :
  SizeT.modulus <= x < 2 * SizeT.modulus -> SizeT.wrap x = x - SizeT.modulus.
Proof.
  intros Hx. unfold SizeT.wrap. symmetry.
  apply (Z.mod_unique_pos x SizeT.modulus 1); lia.
Qed.

(** The run of one write and commit followed by one read and commit. *)
Lemma run_write_read
    (q : bq) (m : memory) (bytes : list byte) (count : Z) (s : sys) :
  run (start q m) [PushBuf; Push bytes; PopBuf; Pop count] = Some s ->
  let n := Z.of_nat (length bytes) in
  let q1 := set_tail q (tail q + n)%sz in
  let m1 := memcpy m (pushbuf_ptr q) bytes in
  n <= pushbuf_len q /\ 0 <= count <= popbuf_len q1 /\
  queue s = set_head q1 (head q + count)%sz /\
  mem s = m1 /\
  committed s = stored q m ++ bytes /\
  observed s = read_bytes m1 (popbuf_ptr q1) (Z.to_nat count).
Proof.
  intros Hrun. cbn zeta.
  cbn [run] in Hrun.
  unfold step at 1 in Hrun. rewrite bq_pushbuf_eq in Hrun.
  cbn [start queue mem wslice rslice committed observed] in Hrun.
  unfold step at 1 in Hrun.
  cbn [queue mem wslice rslice committed observed] in Hrun.
  destruct (Z.leb_spec (Z.of_nat (length bytes)) (pushbuf_len q)) as [Hn|];
    [|discriminate].
  rewrite bq_push_eq in Hrun.
  unfold step at 1 in Hrun. rewrite bq_popbuf_eq in Hrun.
  cbn [queue mem wslice rslice committed observed] in Hrun.
  unfold step at 1 in Hrun.
  cbn [queue mem wslice rslice committed observed] in Hrun.
  destruct (Z.leb_spec 0 count) as [H0|]; [|discriminate].
  destruct (Z.leb_spec count
              (popbuf_len (set_tail q (tail q + Z.of_nat (length bytes))%sz)))
    as [Hc|]; [|discriminate].
  cbn [andb] in Hrun. rewrite bq_pop_eq in Hrun.
  injection Hrun as <-.
  cbn [queue mem committed observed app]. repeat split; assumption.
Qed.

(** C8: let the cursors lie anywhere in [size_t], in particular with
    [head] within one capacity of [2^64], under I1.  Every run of the
    protocol from there keeps I1, keeps the committed bytes equal to the
    observed ones followed by the stored ones, and keeps the two lengths
    equal to their minima.  When a write and commit takes [tail] past
    [2^64 - 1] and the read and commit after it takes [head] past it too,
    both cursors come out reduced by [2^64], and the bytes observed are
    the first [count] of those stored before followed by those written. *)
Theorem cursor_wrap_conserves (q : bq) (m : memory) :
  wf q -> I1 q -> SizeT.modulus - capacity q <= head q ->
  (forall calls s, run (start q m) calls = Some s ->
     I1 (queue s) /\
     committed s = observed s ++ stored (queue s) (mem s) /\
     pushbuf_len (queue s) =
       Z.min (capacity (queue s) - (tail (queue s) - head (queue s))%sz)
             (capacity (queue s) - (tail (queue s) & mask (queue s))%sz) /\
     popbuf_len (queue s) =
       Z.min (tail (queue s) - head (queue s))%sz
             (capacity (queue s) - (head (queue s) & mask (queue s))%sz)) /\
  (forall bytes count s,
     run (start q m) [PushBuf; Push bytes; PopBuf; Pop count] = Some s ->
     SizeT.modulus <= tail q + Z.of_nat (length bytes) ->
     SizeT.modulus <= head q + count ->
     tail (queue s) = tail q + Z.of_nat (length bytes) - SizeT.modulus /\
     head (queue s) = head q + count - SizeT.modulus /\
     committed s = stored q m ++ bytes /\
     observed s = firstn (Z.to_nat count) (stored q m ++ bytes)).
Proof.
  intros Hwf Hinv Hnear. split.
  - intros calls s Hrun.
    pose proof (run_inv calls _ s (start_inv q m Hwf Hinv) Hrun)
      as [Hwf' Hinv' Hbytes _ _].
    split; [exact Hinv'|]. split; [exact Hbytes|].
    split; [apply pushbuf_len_min_eq | apply popbuf_len_min_eq]; assumption.
  - intros bytes count s Hrun Htail Hhead.
    destruct (run_write_read q m bytes count s Hrun)
      as (Hn & Hc & Hq & Hm & Hcom & Hobs).
    pose proof (capacity_bounds q Hwf) as Hcap.
    pose proof (pushbuf_len_min_eq q Hwf Hinv) as Hpush.
    pose proof (used_range q) as Hu.
    assert (Hn' : 0 <= Z.of_nat (length bytes) <= pushbuf_len q) by lia.
    destruct (I1_after_push q _ Hwf Hinv Hn') as [Hinv1 Hused1].
    assert (Hwf1 : wf (set_tail q (tail q + Z.of_nat (length bytes))%sz))
      by (apply wf_set_tail; [exact Hwf | apply add_range]).
    pose proof (popbuf_len_min_eq _ Hwf1 Hinv1) as Hpop.
    change (capacity (set_tail q _)) with (capacity q) in Hpop.
    pose proof (index_range q Hwf (head q)) as Hidx.
    cbn [head mask set_tail] in Hpop.
    destruct Hwf as [Hk Hmask Hh Ht]. unfold SizeT.in_range in *.
    rewrite Hq. cbn [head tail set_head set_tail].
    split; [apply wrap_once; lia|].
    split; [apply wrap_once; lia|].
    split; [exact Hcom|].
    rewrite Hobs, <- (stored_after_push q m (mk_wf q Hk Hmask Hh Ht) Hinv bytes)
      by lia.
    rewrite (stored_before_pop _ (memcpy m (pushbuf_ptr q) bytes)
               Hwf1 Hinv1 count Hc).
    rewrite <- (Nat.add_0_r (Z.to_nat count)) at 2.
    rewrite <- (read_bytes_length (memcpy m (pushbuf_ptr q) bytes)
                  (popbuf_ptr (set_tail q (tail q + Z.of_nat (length bytes))%sz))
                  (Z.to_nat count)) at 2.
    rewrite firstn_app_2. cbn [firstn]. rewrite app_nil_r. reflexivity.
Qed.

Lemma cursor_wrap_conserves_witness :
  let q := {| head := SizeT.max - 1; tail := SizeT.max; mask := 3;
              cap_lg2 := 2; data := 1000 |} in
  let m := memcpy (fun _ => x00) 1002 [x0a] in
  exists s : sys,
    run (start q m) [PushBuf; Push [x0b]; PopBuf; Pop 2] = Some s /\
    SizeT.modulus <= tail q + 1 /\
    SizeT.modulus <= head q + 2 /\
    tail (queue s) = 0 /\ head (queue s) = 0 /\
    committed s = [x0a; x0b] /\
    observed s = firstn 2 (stored q m ++ [x0b]) /\
    observed s = [x0a; x0b].
Proof.
  cbn zeta.
  assert (Hwf : wf {| head := SizeT.max - 1; tail := SizeT.max; mask := 3;
                      cap_lg2 := 2; data := 1000 |})
    by (apply (wf_concrete (SizeT.max - 1) SizeT.max 2 1000); reflexivity).
  assert (Hinv : I1 {| head := SizeT.max - 1; tail := SizeT.max; mask := 3;
                       cap_lg2 := 2; data := 1000 |})
    by (apply I1_concrete; reflexivity).
  assert (Hnear : SizeT.modulus -
                  capacity {| head := SizeT.max - 1; tail := SizeT.max;
                              mask := 3; cap_lg2 := 2; data := 1000 |} <=
                  head {| head := SizeT.max - 1; tail := SizeT.max;
                          mask := 3; cap_lg2 := 2; data := 1000 |})
    by discriminate.
  assert (Ht : SizeT.modulus <= SizeT.max + Z.of_nat (length [x0b]))
    by discriminate.
  assert (Hh : SizeT.modulus <= SizeT.max - 1 + 2) by discriminate.
  destruct (run (start {| head := SizeT.max - 1; tail := SizeT.max; mask := 3;
                          cap_lg2 := 2; data := 1000 |}
                       (memcpy (fun _ => x00) 1002 [x0a]))
                [PushBuf; Push [x0b]; PopBuf; Pop 2]) as [s|] eqn:Hrun.
  - exists s. split; [reflexivity|].
    destruct (proj2 (cursor_wrap_conserves _ _ Hwf Hinv Hnear)
                [x0b] 2 s Hrun Ht Hh) as (H1 & H2 & H3 & H4).
    split; [exact Ht|]. split; [exact Hh|].
    split; [exact H1|]. split; [exact H2|].
    split; [exact H3|]. split; [exact H4|].
    rewrite H4. reflexivity.
  - vm_compute in Hrun. discriminate Hrun.
Defined.

(** * Further properties of [bq.h] *)

(** ** Construction on a power of two *)

Lemma pow2_between (k m : Z) :
  0 <= k -> 0 <= m -> 2 ^ m <= 2 ^ k < 2 * 2 ^ m -> m = k.
Proof.
  intros Hk Hm [Hlo Hhi].
  assert (Hle : m <= k).
  { apply (Z.pow_le_mono_r_iff 2); lia. }
  assert (Hlt : k < m + 1).
  { apply (Z.pow_lt_mono_r_iff 2); try lia.
    rewrite Z.pow_add_r by lia. change (2 ^ 1) with 2. lia. }
  lia.
Qed.

Lemma bq_make_power_of_two_gen (buf : ptr) (k : Z) :
  buf <> NULL -> 0 <= k < SizeT.bits ->
  bq_make buf (2 ^ k) =
  {| head := 0; tail := 0; mask := 2 ^ k - 1; cap_lg2 := k; data := buf |} /\
  capacity {| head := 0; tail := 0; mask := 2 ^ k - 1; cap_lg2 := k;
              data := buf |} = 2 ^ k.
Proof.
  intros Hbuf Hk.
  pose proof (pow2_pos k ltac:(lia)) as Hpos.
  pose proof (pow2_lt_modulus k Hk) as Hlt.
  destruct (msb_of_spec (2 ^ k) ltac:(lia)) as [Hr Hpow].
  assert (Hm : msb_of (2 ^ k) = k) by (apply pow2_between; lia).
  split.
  - rewrite bq_make_real by lia. rewrite Hm, mask_of_msb by exact Hk.
    reflexivity.
  - unfold capacity. cbn [mask]. unfold SizeT.add.
    replace (2 ^ k - 1 + 1) with (2 ^ k) by lia.
    apply wrap_small. unfold SizeT.in_range. lia.
Qed.

(** X1: on a real buffer whose length is a power of two, [bq_make] uses
    the whole of it: the capacity is the length and [cap_lg2] its
    logarithm. *)
Theorem bq_make_power_of_two (buf : ptr) (k : Z) :
  buf <> NULL -> 0 <= k < SizeT.bits ->
  bq_make buf (2 ^ k) =
  {| head := 0; tail := 0; mask := 2 ^ k - 1; cap_lg2 := k; data := buf |} /\
  capacity (bq_make buf (2 ^ k)) = 2 ^ k.
Proof.
  intros Hbuf Hk.
  destruct (bq_make_power_of_two_gen buf k Hbuf Hk) as [Heq Hcap].
  split; [exact Heq|]. rewrite Heq. exact Hcap.
Qed.

Lemma bq_make_power_of_two_witness :
  1000 <> NULL /\ 0 <= 20 < SizeT.bits /\
  bq_make 1000 (2 ^ 20) =
  {| head := 0; tail := 0; mask := 2 ^ 20 - 1; cap_lg2 := 20; data := 1000 |} /\
  capacity (bq_make 1000 (2 ^ 20)) = 2 ^ 20.
Proof.
  assert (Hbuf : 1000 <> NULL) by discriminate.
  assert (Hk : 0 <= 20 < SizeT.bits) by (split; [discriminate | reflexivity]).
  exact (conj Hbuf (conj Hk (bq_make_power_of_two 1000 20 Hbuf Hk))).
Defined.

(** ** Two contiguous runs *)

Lemma index_after_add (q : bq) (cursor n : Z) :
  wf q ->
  ((cursor + n) & mask q)%sz = ((cursor & mask q)%sz + n) mod capacity q.
Proof.
  intros Hwf. rewrite (capacity_pow2 q Hwf).
  destruct Hwf as [Hk Hm _ _]. rewrite Hm, !and_mask by lia.
  unfold SizeT.add. rewrite wrap_mod_pow2 by exact Hk.
  rewrite Zplus_mod_idemp_l. reflexivity.
Qed.

(** X2: whatever the queue holds can be read in two rounds of
    [bq_popbuf]/[bq_pop], each committing the whole reported length: the
    two lengths add up to [tail - head] and the queue is then empty.
    Likewise two rounds of [bq_pushbuf]/[bq_push] fill it: the two
    lengths add up to the free space and the queue is then full. *)
Theorem two_runs_drain_and_fill (q : bq) :
  wf q -> I1 q ->
  (let q1 := after (bq_pop (popbuf_len q)) q in
   popbuf_len q + popbuf_len q1 = used q /\
   is_empty (after (bq_pop (popbuf_len q1)) q1)) /\
  (let q1 := after (bq_push (pushbuf_len q)) q in
   pushbuf_len q + pushbuf_len q1 = capacity q - used q /\
   is_full (after (bq_push (pushbuf_len q1)) q1)).
Proof.
  intros Hwf Hinv. cbn zeta. rewrite !after_pop, !after_push.
  pose proof (popbuf_len_min_eq q Hwf Hinv) as Hpop.
  pose proof (pushbuf_len_min_eq q Hwf Hinv) as Hpush.
  pose proof (index_range q Hwf (head q)) as Hh.
  pose proof (index_range q Hwf (tail q)) as Ht.
  pose proof (capacity_bounds q Hwf) as Hcap.
  assert (HI : 0 <= used q <= capacity q) by exact Hinv.
  split.
  - destruct (I1_after_pop q (popbuf_len q) Hwf Hinv ltac:(lia))
      as [Hinv1 Hused1].
    assert (Hwf1 : wf (set_head q (head q + popbuf_len q)%sz))
      by (apply wf_set_head; [exact Hwf | apply add_range]).
    pose proof (popbuf_len_min_eq _ Hwf1 Hinv1) as Hpop1.
    rewrite Hused1 in Hpop1. cbn [head mask set_head] in Hpop1.
    change (capacity (set_head q _)) with (capacity q) in Hpop1.
    rewrite (index_after_add q (head q) (popbuf_len q) Hwf) in Hpop1.
    pose proof (Z.mod_pos_bound ((head q & mask q)%sz + popbuf_len q)
                  (capacity q) ltac:(lia)) as Hmod.
    assert (Hsum : popbuf_len q +
                   popbuf_len (set_head q (head q + popbuf_len q)%sz) = used q).
    { destruct (Z_le_gt_dec (used q) (capacity q - (head q & mask q)%sz)).
      - lia.
      - replace ((head q & mask q)%sz + popbuf_len q) with (capacity q) in Hpop1
          by lia.
        rewrite Z.mod_same in Hpop1 by lia. lia. }
    split; [exact Hsum|].
    destruct (I1_after_pop _ (popbuf_len (set_head q (head q + popbuf_len q)%sz))
                Hwf1 Hinv1) as [_ Hused2].
    { lia. }
    apply is_empty_used.
    + apply wf_set_head; [exact Hwf1 | apply add_range].
    + rewrite Hused2, Hused1. lia.
  - destruct (I1_after_push q (pushbuf_len q) Hwf Hinv ltac:(lia))
      as [Hinv1 Hused1].
    assert (Hwf1 : wf (set_tail q (tail q + pushbuf_len q)%sz))
      by (apply wf_set_tail; [exact Hwf | apply add_range]).
    pose proof (pushbuf_len_min_eq _ Hwf1 Hinv1) as Hpush1.
    rewrite Hused1 in Hpush1. cbn [tail mask set_tail] in Hpush1.
    change (capacity (set_tail q _)) with (capacity q) in Hpush1.
    rewrite (index_after_add q (tail q) (pushbuf_len q) Hwf) in Hpush1.
    pose proof (Z.mod_pos_bound ((tail q & mask q)%sz + pushbuf_len q)
                  (capacity q) ltac:(lia)) as Hmod.
    assert (Hsum : pushbuf_len q +
                   pushbuf_len (set_tail q (tail q + pushbuf_len q)%sz) =
                   capacity q - used q).
    { destruct (Z_le_gt_dec (capacity q - used q)
                            (capacity q - (tail q & mask q)%sz)).
      - lia.
      - replace ((tail q & mask q)%sz + pushbuf_len q) with (capacity q)
          in Hpush1 by lia.
        rewrite Z.mod_same in Hpush1 by lia. lia. }
    split; [exact Hsum|].
    destruct (I1_after_push _
                (pushbuf_len (set_tail q (tail q + pushbuf_len q)%sz))
                Hwf1 Hinv1) as [_ Hused2].
    { lia. }
    unfold is_full. rewrite Hused2, Hused1.
    change (capacity (set_tail _ _)) with (capacity q). lia.
Qed.

Lemma two_runs_drain_and_fill_witness :
  let q := {| head := 6; tail := 9; mask := 3; cap_lg2 := 2; data := 1000 |} in
  wf q /\ I1 q /\
  (let q1 := after (bq_pop (popbuf_len q)) q in
   popbuf_len q + popbuf_len q1 = used q /\
   is_empty (after (bq_pop (popbuf_len q1)) q1)) /\
  (let q1 := after (bq_push (pushbuf_len q)) q in
   pushbuf_len q + pushbuf_len q1 = capacity q - used q /\
   is_full (after (bq_push (pushbuf_len q1)) q1)).
Proof.
  assert (Hwf : wf {| head := 6; tail := 9; mask := 3; cap_lg2 := 2;
                      data := 1000 |})
    by (apply (wf_concrete 6 9 2 1000); reflexivity).
  assert (Hinv : I1 {| head := 6; tail := 9; mask := 3; cap_lg2 := 2;
                       data := 1000 |})
    by (apply I1_concrete; reflexivity).
  exact (conj Hwf (conj Hinv (two_runs_drain_and_fill _ Hwf Hinv))).
Defined.

(** ** Slices and the caller's buffer *)






(** X4: at every point of an in-contract interleaving from a well-formed
    state within I1, the slice the producer holds and the slice the
    consumer holds have no byte in common. *)
Theorem held_slices_are_disjoint
    (q : bq) (m : memory) (calls : list call) (s : sys) :
  wf q -> I1 q ->
  run (start q m) calls = Some s ->
  forall aw lw ar lr,
    wslice s = Some (aw, lw) -> rslice s = Some (ar, lr) ->
    aw + lw <= ar \/ ar + lr <= aw.
Proof.
  intros Hwf Hinv Hrun aw lw ar lr Hws Hrs.
  pose proof (run_inv calls _ s (start_inv q m Hwf Hinv) Hrun)
    as [Hwf' Hinv' _ Hw Hr].
  destruct (Hw aw lw Hws) as [-> Hlw]. destruct (Hr ar lr Hrs) as [-> Hlr].
  rewrite popbuf_ptr_eq, pushbuf_ptr_eq.
  pose proof (index_range (queue s) Hwf' (head (queue s))) as Hh.
  assert (HI : 0 <= used (queue s) <= capacity (queue s)) by exact Hinv'.
  destruct (lengths_cases (queue s) Hwf' Hinv')
    as [(H1 & _ & H3 & H4 & H5) | (H1 & _ & H3 & _ & H4 & H5)];
    rewrite H3; lia.
Qed.

Lemma held_slices_are_disjoint_witness :
  let q := {| head := SizeT.max - 1; tail := 1; mask := 3; cap_lg2 := 2;
              data := 1000 |} in
  exists s : sys,
    wf q /\ I1 q /\
    run (start q (fun _ => x00)) [PushBuf; PopBuf] = Some s /\
    forall aw lw ar lr,
      wslice s = Some (aw, lw) -> rslice s = Some (ar, lr) ->
      aw + lw <= ar \/ ar + lr <= aw.
Proof.
  cbn zeta.
  assert (Hwf : wf {| head := SizeT.max - 1; tail := 1; mask := 3;
                      cap_lg2 := 2; data := 1000 |})
    by (apply (wf_concrete (SizeT.max - 1) 1 2 1000); reflexivity).
  assert (Hinv : I1 {| head := SizeT.max - 1; tail := 1; mask := 3;
                       cap_lg2 := 2; data := 1000 |})
    by (apply I1_concrete; reflexivity).
  destruct (run (start {| head := SizeT.max - 1; tail := 1; mask := 3;
                          cap_lg2 := 2; data := 1000 |} (fun _ => x00))
                [PushBuf; PopBuf]) as [s|] eqn:Hrun.
  - exists s. split; [exact Hwf|]. split; [exact Hinv|].
    split; [reflexivity|].
    exact (held_slices_are_disjoint _ _ _ s Hwf Hinv Hrun).
  - vm_compute in Hrun. discriminate Hrun.
Defined.

(** X5: a slice stays good while the other side commits.  At every point
    of an in-contract interleaving, the slice a side still holds starts
    where the matching query would start now and is no longer than what
    that query would report now. *)
Theorem held_slices_stay_valid
    (q : bq) (m : memory) (calls : list call) (s : sys) :
  wf q -> I1 q ->
  run (start q m) calls = Some s ->
  (forall a l, wslice s = Some (a, l) ->
     a = pushbuf_ptr (queue s) /\ l <= pushbuf_len (queue s)) /\
  (forall a l, rslice s = Some (a, l) ->
     a = popbuf_ptr (queue s) /\ l <= popbuf_len (queue s)).
Proof.
  intros Hwf Hinv Hrun.
  pose proof (run_inv calls _ s (start_inv q m Hwf Hinv) Hrun)
    as [_ _ _ Hw Hr].
  split; assumption.
Qed.

Lemma held_slices_stay_valid_witness :
  exists s : sys,
    run (start (bq_make 1000 4) (fun _ => x00))
        [PushBuf; Push [x01; x02; x03]; PushBuf; PopBuf; Pop 3;
         PopBuf; Push [x04]] = Some s /\
    (forall a l, wslice s = Some (a, l) ->
       a = pushbuf_ptr (queue s) /\ l <= pushbuf_len (queue s)) /\
    (forall a l, rslice s = Some (a, l) ->
       a = popbuf_ptr (queue s) /\ l <= popbuf_len (queue s)).
Proof.
  destruct (run (start (bq_make 1000 4) (fun _ => x00))
        [PushBuf; Push [x01; x02; x03]; PushBuf; PopBuf; Pop 3;
         PopBuf; Push [x04]]) as [s|] eqn:Hrun.
  - exists s. split; [reflexivity|].
    assert (Hwf : wf (bq_make 1000 4))
      by (apply (wf_concrete 0 0 2 1000); reflexivity).
    assert (Hinv : I1 (bq_make 1000 4)) by (apply I1_concrete; reflexivity).
    exact (held_slices_stay_valid _ _ _ s Hwf Hinv Hrun).
  - vm_compute in Hrun. discriminate Hrun.
Defined.

(** X6: a commit of [count] moves the slice of the next query by [count]
    positions around the storage, whether or not the cursor wraps past
    [2^64 - 1] on the way. *)
Theorem commit_advances_slice (q : bq) (count : Z) :
  wf q ->
  popbuf_ptr (after (bq_pop count) q) =
    data q + ((head q & mask q)%sz + count) mod capacity q /\
  pushbuf_ptr (after (bq_push count) q) =
    data q + ((tail q & mask q)%sz + count) mod capacity q.
Proof.
  intros Hwf. rewrite after_pop, after_push, popbuf_ptr_eq, pushbuf_ptr_eq.
  cbn [head tail mask data set_head set_tail].
  rewrite !(index_after_add q _ _ Hwf). split; reflexivity.
Qed.

Lemma commit_advances_slice_witness :
  let q := {| head := SizeT.max - 1; tail := SizeT.max; mask := 3;
              cap_lg2 := 2; data := 1000 |} in
  wf q /\
  popbuf_ptr (after (bq_pop 2) q) =
    data q + ((head q & mask q)%sz + 2) mod capacity q /\
  pushbuf_ptr (after (bq_push 1) q) =
    data q + ((tail q & mask q)%sz + 1) mod capacity q.
Proof.
  assert (Hwf : wf {| head := SizeT.max - 1; tail := SizeT.max; mask := 3;
                      cap_lg2 := 2; data := 1000 |})
    by (apply (wf_concrete (SizeT.max - 1) SizeT.max 2 1000); reflexivity).
  exact (conj Hwf
           (conj (proj1 (commit_advances_slice _ 2 Hwf))
                 (proj2 (commit_advances_slice _ 1 Hwf)))).
Defined.

(** * The test driver *)

Lemma MIN_min (x y : Z) : MIN x y = Z.min x y.
Proof. unfold MIN. destruct (Z.ltb_spec x y); lia. Qed.

Lemma sub_sub_sz (r a b : Z) : ((r - a) - b)%sz = (r - (a + b)%Z)%sz.
Proof.
  unfold SizeT.sub, SizeT.wrap. rewrite Zminus_mod_idemp_l.
  f_equal. lia.
Qed.

Lemma uint8_wrap (x : Z) : uint8 (SizeT.wrap x) = uint8 x.
Proof.
  assert (H : SizeT.wrap x mod 256 = x mod 256).
  { unfold SizeT.wrap. change SizeT.modulus with (256 * 2 ^ 56).
    rewrite Z.rem_mul_r by lia.
    rewrite Z.mul_comm, Z.mod_add by lia. apply Z.mod_mod. lia. }
  unfold uint8. rewrite H. reflexivity.
Qed.

Lemma fill_bytes_length (r n : Z) : length (fill_bytes r n) = Z.to_nat n.
Proof. unfold fill_bytes. rewrite length_map, length_seq. reflexivity. Qed.

Lemma seq_from (a n : nat) : seq a n = map (fun i => (a + i)%nat) (seq 0 n).
Proof.
  induction a as [|a IH]; cbn [Nat.add].
  - symmetry. apply map_id.
  - rewrite <- seq_shift, IH, map_map. reflexivity.
Qed.

Lemma fill_bytes_app (r a b : Z) :
  0 <= a -> 0 <= b ->
  fill_bytes r (a + b) = fill_bytes r a ++ fill_bytes (r - a)%sz b.
Proof.
  intros Ha Hb. unfold fill_bytes.
  rewrite Z2Nat.inj_add, seq_app, map_app by lia. f_equal.
  cbn [Nat.add]. rewrite seq_from, map_map. apply map_ext. intros i.
  rewrite sub_sub_sz. do 2 f_equal. lia.
Qed.

Lemma fill_bytes_prefix (r n k : Z) :
  0 <= k <= n ->
  firstn (Z.to_nat k) (fill_bytes r n) = fill_bytes r k.
Proof.
  intros Hk. replace n with (k + (n - k)) by lia.
  rewrite fill_bytes_app by lia.
  rewrite <- (fill_bytes_length r k) at 1.
  rewrite <- (Nat.add_0_r (length (fill_bytes r k))).
  rewrite firstn_app_2. cbn [firstn]. apply app_nil_r.
Qed.

Lemma app_same_length {A : Type} (l1 l1' l2 l2' : list A) :
  length l1 = length l1' -> l1 ++ l2 = l1' ++ l2' -> l1 = l1' /\ l2 = l2'.
Proof.
  revert l1'. induction l1 as [|x l1 IH]; intros [|y l1'] Hlen Heq;
    cbn in Hlen; try discriminate.
  - split; [reflexivity | exact Heq].
  - cbn [app] in Heq. injection Heq as -> Heq.
    destruct (IH l1' ltac:(lia) Heq) as [-> ->]. split; reflexivity.
Qed.

Lemma check_bytes_ok (m : memory) (n : nat) (addr : ptr) (r : Z) :
  SizeT.in_range r ->
  read_bytes m addr n = fill_bytes r (Z.of_nat n) ->
  check_bytes m addr r n = Some (r - Z.of_nat n)%sz.
Proof.
  revert addr r. induction n as [|n IH]; intros addr r Hr Hread.
  - cbn [check_bytes Z.of_nat]. unfold SizeT.sub.
    rewrite Z.sub_0_r, wrap_small by exact Hr. reflexivity.
  - replace (Z.of_nat (S n)) with (1 + Z.of_nat n) in Hread by lia.
    rewrite fill_bytes_app in Hread by lia.
    cbn [read_bytes] in Hread. change (fill_bytes r 1) with
      [uint8 (r - 0)%sz] in Hread. cbn [app] in Hread.
    injection Hread as Hhd Htl.
    unfold SizeT.sub in Hhd at 1. rewrite Z.sub_0_r, uint8_wrap in Hhd.
    cbn [check_bytes]. rewrite Hhd, (Byte.byte_dec_lb eq_refl).
    rewrite (IH (addr + 1) (r - 1)%sz (wrap_range _) Htl), sub_sub_sz.
    do 2 f_equal. lia.
Qed.

Lemma harness_init_inv (buf : ptr) (len total : Z) (m : memory) :
  buf <> NULL -> 1 <= len < SizeT.modulus -> 0 <= total ->
  harness_inv total (harness_init buf len total m).
Proof.
  intros Hbuf Hlen Htotal.
  destruct (bq_make_wf buf len Hbuf ltac:(lia)) as (Hwf & Hinv & Hh & Ht).
  assert (Hu : used (bq_make buf len) = 0)
    by (unfold used; rewrite Hh, Ht; reflexivity).
  constructor; cbn [bq_queue heap producer_remaining consumer_remaining
                    harness_init]; try assumption; try lia.
  unfold stored. rewrite Hu. reflexivity.
Qed.

(** What one pass of the producer's body does. *)
Lemma producer_bq_spec (total : Z) (st : harness) :
  total < SizeT.modulus -> harness_inv total st ->
  let n := if 0 <? producer_remaining st
           then Z.min (Z.min MAX_BYTES_PER_OP (producer_remaining st))
                      (pushbuf_len (bq_queue st))
           else 0 in
  harness_inv total (producer_bq st) /\
  producer_remaining (producer_bq st) = producer_remaining st - n /\
  consumer_remaining (producer_bq st) = consumer_remaining st /\
  used (bq_queue (producer_bq st)) = used (bq_queue st) + n.
Proof.
  intros Htotal [Hwf Hinv Hprod Hcons Hle Hbytes]. cbn zeta.
  unfold producer_bq.
  destruct (Z.ltb_spec 0 (producer_remaining st)) as [Hpos | Hzero].
  2: { split; [constructor; assumption | repeat split; lia]. }
  rewrite bq_pushbuf_eq, bq_push_eq, !MIN_min.
  set (n := Z.min (Z.min MAX_BYTES_PER_OP (producer_remaining st))
                  (pushbuf_len (bq_queue st))).
  pose proof (pushbuf_len_min_eq _ Hwf Hinv) as Hpush.
  pose proof (index_range _ Hwf (tail (bq_queue st))) as Hti.
  assert (HI : 0 <= used (bq_queue st) <= capacity (bq_queue st)) by exact Hinv.
  assert (Hn : 0 <= n <= pushbuf_len (bq_queue st))
    by (unfold n, MAX_BYTES_PER_OP; lia).
  assert (Hn' : n <= Z.min MAX_BYTES_PER_OP (producer_remaining st))
    by (unfold n; lia).
  rewrite fill_bytes_prefix by lia.
  destruct (I1_after_push _ n Hwf Hinv Hn) as [Hinv1 Hused1].
  assert (Hlenb : Z.of_nat (length (fill_bytes (producer_remaining st) n)) = n)
    by (rewrite fill_bytes_length; lia).
  pose proof (stored_after_push (bq_queue st) (heap st) Hwf Hinv
                (fill_bytes (producer_remaining st) n)) as Hst.
  rewrite Hlenb in Hst. specialize (Hst ltac:(lia)).
  assert (Hsub : (producer_remaining st - n)%sz = producer_remaining st - n)
    by (apply wrap_small; unfold SizeT.in_range; lia).
  cbn [bq_queue heap producer_remaining consumer_remaining].
  split; [|repeat split; lia].
  constructor; cbn [bq_queue heap producer_remaining consumer_remaining].
  - apply wf_set_tail; [exact Hwf | apply add_range].
  - exact Hinv1.
  - lia.
  - lia.
  - exact Hle.
  - rewrite Hst, Hbytes, Hused1, fill_bytes_app by lia.
    do 2 f_equal. symmetry. unfold SizeT.sub.
    replace (consumer_remaining st - used (bq_queue st))
      with (producer_remaining st) by lia.
    apply wrap_small. unfold SizeT.in_range. lia.
Qed.

(** What one pass of the consumer's body does: no assertion fails. *)
Lemma consumer_bq_spec (total : Z) (st : harness) :
  total < SizeT.modulus -> harness_inv total st ->
  let n := if 0 <? consumer_remaining st
           then Z.min (Z.min (popbuf_len (bq_queue st)) (consumer_remaining st))
                      MAX_BYTES_PER_OP
           else 0 in
  exists st',
    consumer_bq st = Some st' /\
    harness_inv total st' /\
    producer_remaining st' = producer_remaining st /\
    consumer_remaining st' = consumer_remaining st - n /\
    used (bq_queue st') = used (bq_queue st) - n.
Proof.
  intros Htotal [Hwf Hinv Hprod Hcons Hle Hbytes]. cbn zeta.
  unfold consumer_bq.
  destruct (Z.ltb_spec 0 (consumer_remaining st)) as [Hpos | Hzero].
  2: { exists st. split; [reflexivity|].
       split; [constructor; assumption | repeat split; lia]. }
  rewrite bq_popbuf_eq, bq_pop_eq, !MIN_min.
  set (n := Z.min (Z.min (popbuf_len (bq_queue st)) (consumer_remaining st))
                  MAX_BYTES_PER_OP).
  pose proof (popbuf_len_min_eq _ Hwf Hinv) as Hpop.
  pose proof (index_range _ Hwf (head (bq_queue st))) as Hhi.
  assert (HI : 0 <= used (bq_queue st) <= capacity (bq_queue st)) by exact Hinv.
  assert (Hn : 0 <= n <= popbuf_len (bq_queue st))
    by (unfold n, MAX_BYTES_PER_OP; lia).
  destruct (I1_after_pop _ n Hwf Hinv Hn) as [Hinv1 Hused1].
  pose proof (stored_before_pop (bq_queue st) (heap st) Hwf Hinv n Hn) as Hst.
  rewrite Hbytes in Hst.
  replace (used (bq_queue st)) with (n + (used (bq_queue st) - n)) in Hst
    at 1 by lia.
  rewrite fill_bytes_app in Hst by lia.
  apply app_same_length in Hst;
    [|rewrite fill_bytes_length, read_bytes_length; reflexivity].
  destruct Hst as [Hread Hrest].
  assert (Hsub : (consumer_remaining st - n)%sz = consumer_remaining st - n)
    by (apply wrap_small; unfold SizeT.in_range; lia).
  rewrite (check_bytes_ok (heap st) (Z.to_nat n) _ (consumer_remaining st)).
  - rewrite Z2Nat.id by lia. rewrite Hsub.
    eexists. split; [reflexivity|].
    cbn [bq_queue heap producer_remaining consumer_remaining].
    split; [|repeat split; lia].
    constructor; cbn [bq_queue heap producer_remaining consumer_remaining].
    + apply wf_set_head; [exact Hwf | apply add_range].
    + exact Hinv1.
    + exact Hprod.
    + lia.
    + lia.
    + rewrite <- Hrest, Hused1, Hsub. reflexivity.
  - unfold SizeT.in_range. lia.
  - rewrite Z2Nat.id by lia. symmetry. exact Hread.
Qed.

Lemma schedule_inv (total : Z) (turns : list turn) (st : harness) :
  total < SizeT.modulus -> harness_inv total st ->
  exists st', schedule st turns = Some st' /\ harness_inv total st'.
Proof.
  intros Htotal. revert st.
  induction turns as [|t turns IH]; intros st Hst; cbn [schedule].
  - exists st. split; [reflexivity | exact Hst].
  - destruct t; cbn [take_turn].
    + apply IH. apply (producer_bq_spec total st Htotal Hst).
    + destruct (consumer_bq_spec total st Htotal Hst) as (st1 & -> & Hst1 & _).
      apply IH. exact Hst1.
Qed.



(** One round, producer then consumer, takes the consumer at least one
    byte further unless it is done. *)
Lemma round_progress (total : Z) (st : harness) :
  total < SizeT.modulus -> harness_inv total st ->
  exists st',
    schedule st [Producer; Consumer] = Some st' /\
    harness_inv total st' /\
    consumer_remaining st' <= Z.max 0 (consumer_remaining st - 1).
Proof.
  intros Htotal Hst. cbn [schedule take_turn].
  destruct (producer_bq_spec total st Htotal Hst) as (Hst1 & Hp1 & Hc1 & Hu1).
  destruct (consumer_bq_spec total _ Htotal Hst1)
    as (st2 & Hrun & Hst2 & Hp2 & Hc2 & Hu2).
  rewrite Hrun. exists st2. split; [reflexivity|]. split; [exact Hst2|].
  rewrite Hc2, Hc1. clear Hrun Hst2 Hp2 Hc2 Hu2.
  destruct Hst as [Hwf Hinv Hprod Hcons Hle _].
  destruct Hst1 as [Hwf1 Hinv1 _ _ _ _].
  pose proof (pushbuf_len_min_eq _ Hwf Hinv) as Hpush.
  pose proof (popbuf_len_min_eq _ Hwf1 Hinv1) as Hpop.
  pose proof (index_range _ Hwf (tail (bq_queue st))) as Hti.
  pose proof (index_range _ Hwf1 (head (bq_queue (producer_bq st)))) as Hhi.
  pose proof (used_range (bq_queue st)) as Hu.
  assert (HI : 0 <= used (bq_queue st) <= capacity (bq_queue st)) by exact Hinv.
  unfold MAX_BYTES_PER_OP in *.
  destruct (Z.ltb_spec 0 (consumer_remaining st)); [|lia].
  destruct (Z.ltb_spec 0 (producer_remaining st)); lia.
Qed.

Lemma rounds_progress (total : Z) (n : nat) (st : harness) :
  total < SizeT.modulus -> harness_inv total st ->
  exists st',
    schedule st (rounds n) = Some st' /\
    harness_inv total st' /\
    consumer_remaining st' <= Z.max 0 (consumer_remaining st - Z.of_nat n).
Proof.
  intros Htotal. revert st. induction n as [|n IH]; intros st Hst.
  - exists st. split; [reflexivity|]. split; [exact Hst|]. cbn [Z.of_nat]. lia.
  - destruct (round_progress total st Htotal Hst) as (st1 & Hrun1 & Hst1 & Hc1).
    destruct (IH st1 Hst1) as (st2 & Hrun2 & Hst2 & Hc2).
    exists st2. split; [|split; [exact Hst2 | lia]].
    cbn [rounds schedule] in *.
    destruct (take_turn st Producer) as [sa|]; [|discriminate].
    destruct (take_turn sa Consumer) as [sb|]; [|discriminate].
    injection Hrun1 as ->. exact Hrun2.
Qed.

(** X8: when the two loop bodies alternate, producer first, the transfer
    completes.  After as many rounds as there are bytes to produce, with
    no assertion failed on the way, both threads have nothing left and
    the queue is empty. *)
Theorem driver_completes
    (buf : ptr) (len total : Z) (m : memory) (n : nat) :
  buf <> NULL -> 1 <= len < SizeT.modulus -> 0 <= total < SizeT.modulus ->
  total <= Z.of_nat n ->
  exists st,
    schedule (harness_init buf len total m) (rounds n) = Some st /\
    producer_remaining st = 0 /\ consumer_remaining st = 0 /\
    is_empty (bq_queue st).
Proof.
  intros Hbuf Hlen Htotal Hn.
  destruct (rounds_progress total n _ ltac:(lia)
              (harness_init_inv buf len total m Hbuf Hlen ltac:(lia)))
    as (st & Hrun & [Hwf Hinv Hprod Hcons Hle Hbytes] & Hc).
  cbn [consumer_remaining harness_init] in Hc.
  pose proof (used_range (bq_queue st)) as Hu.
  exists st. split; [exact Hrun|].
  split; [lia|]. split; [lia|].
  apply is_empty_used; [exact Hwf | lia].
Qed.

Lemma driver_completes_witness :
  1000 <> NULL /\ 1 <= 4 < SizeT.modulus /\ 0 <= 10 < SizeT.modulus /\
  10 <= Z.of_nat 10 /\
  exists st,
    schedule (harness_init 1000 4 10 (fun _ => x00)) (rounds 10) = Some st /\
    producer_remaining st = 0 /\ consumer_remaining st = 0 /\
    is_empty (bq_queue st).
Proof.
  assert (Hbuf : 1000 <> NULL) by discriminate.
  assert (Hlen : 1 <= 4 < SizeT.modulus)
    by (split; [discriminate | reflexivity]).
  assert (Htotal : 0 <= 10 < SizeT.modulus)
    by (split; [discriminate | reflexivity]).
  assert (Hn : 10 <= Z.of_nat 10) by discriminate.
  exact (conj Hbuf (conj Hlen (conj Htotal (conj Hn
           (driver_completes 1000 4 10 (fun _ => x00) 10
              Hbuf Hlen Htotal Hn))))).
Defined.

(** * The queue of [others/lfq.h] *)

Lemma lfq_of_bq_queries (q : bq) :
  wf q -> I1 q ->
  Lfq.lfq_queue_get_push_buf (lfq_of_bq q) = (pushbuf_ptr q, pushbuf_len q) /\
  Lfq.lfq_queue_get_pop_buf (lfq_of_bq q) = (popbuf_ptr q, popbuf_len q).
Proof.
  intros Hwf Hinv.
  pose proof (capacity_pow2 q Hwf) as Hcap.
  pose proof (head_index q Hwf) as Hhi. pose proof (tail_index q Hwf) as Hti.
  pose proof (index_range q Hwf (head q)) as Hhr.
  pose proof (index_range q Hwf (tail q)) as Htr.
  pose proof (capacity_bounds q Hwf) as Hcb.
  pose proof (used_range q) as Hur.
  assert (HI : 0 <= used q <= capacity q) by exact Hinv.
  assert (Hk : 0 <= cap_lg2 q) by (destruct Hwf; lia).
  unfold Lfq.lfq_queue_get_push_buf, Lfq.lfq_queue_get_pop_buf, lfq_of_bq.
  cbn [Lfq.data Lfq.head Lfq.tail Lfq.size].
  rewrite popbuf_ptr_eq, pushbuf_ptr_eq.
  replace (head q / capacity q) with (head q >> cap_lg2 q)%sz
    by (rewrite Hcap; apply shr_div; exact Hk).
  replace (tail q / capacity q) with (tail q >> cap_lg2 q)%sz
    by (rewrite Hcap; apply shr_div; exact Hk).
  replace (head q mod capacity q) with (head q & mask q)%sz
    by (rewrite Hcap; exact Hhi).
  replace (tail q mod capacity q) with (tail q & mask q)%sz
    by (rewrite Hcap; exact Hti).
  fold (used q).
  destruct (lengths_cases q Hwf Hinv)
    as [(H1 & Hsame & H3 & H4 & H5) | (H1 & Hdiff & H3 & H4 & _ & H5)].
  - rewrite Hsame, Z.eqb_refl, H4, H5. split; [|reflexivity].
    unfold SizeT.sub.
    rewrite wrap_small by (unfold SizeT.in_range; lia).
    apply f_equal. lia.
  - destruct (Z.eqb_spec (head q >> cap_lg2 q)%sz (tail q >> cap_lg2 q)%sz)
      as [Heq|_]; [symmetry in Heq; contradiction|].
    rewrite H4, H5. split; [|reflexivity].
    unfold SizeT.sub at 1.
    rewrite wrap_small by (unfold SizeT.in_range; lia). reflexivity.
Qed.

(** X9: on a power-of-two size, [lfq] and [bq] are the same queue.  For a
    [bq] state within I1 and the [lfq] with the same cursors, storage and
    capacity, the two queries return the same pointer and the same
    length, and the commits lead to matching states; and
    [lfq_queue_init] on a power of two matches [bq_make] on it. *)
Theorem lfq_agrees_with_bq :
  (forall q : bq, wf q -> I1 q ->
     Lfq.lfq_queue_get_push_buf (lfq_of_bq q) = (pushbuf_ptr q, pushbuf_len q) /\
     Lfq.lfq_queue_get_pop_buf (lfq_of_bq q) = (popbuf_ptr q, popbuf_len q)) /\
  (forall (q : bq) (count : Z),
     Lfq.lfq_queue_commit_push (lfq_of_bq q) count =
       lfq_of_bq (after (bq_push count) q) /\
     Lfq.lfq_queue_commit_pop (lfq_of_bq q) count =
       lfq_of_bq (after (bq_pop count) q)) /\
  (forall (buf : ptr) (k : Z), buf <> NULL -> 0 <= k < SizeT.bits ->
     Lfq.lfq_queue_init buf (2 ^ k) = lfq_of_bq (bq_make buf (2 ^ k))).
Proof.
  split; [|split].
  - intros q Hwf Hinv. exact (lfq_of_bq_queries q Hwf Hinv).
  - intros q count. split; reflexivity.
  - intros buf k Hbuf Hk.
    destruct (bq_make_power_of_two_gen buf k Hbuf Hk) as [-> Hc].
    unfold Lfq.lfq_queue_init, lfq_of_bq. cbn [head tail data].
    rewrite Hc. reflexivity.
Qed.

Lemma lfq_agrees_with_bq_witness :
  let q := {| head := SizeT.max - 1; tail := 1; mask := 3; cap_lg2 := 2;
              data := 1000 |} in
  wf q /\ I1 q /\
  Lfq.lfq_queue_get_push_buf (lfq_of_bq q) = (pushbuf_ptr q, pushbuf_len q) /\
  Lfq.lfq_queue_get_pop_buf (lfq_of_bq q) = (popbuf_ptr q, popbuf_len q).
Proof.
  assert (Hwf : wf {| head := SizeT.max - 1; tail := 1; mask := 3;
                      cap_lg2 := 2; data := 1000 |})
    by (apply (wf_concrete (SizeT.max - 1) 1 2 1000); reflexivity).
  assert (Hinv : I1 {| head := SizeT.max - 1; tail := 1; mask := 3;
                       cap_lg2 := 2; data := 1000 |})
    by (apply I1_concrete; reflexivity).
  exact (conj Hwf (conj Hinv (proj1 lfq_agrees_with_bq _ Hwf Hinv))).
Defined.

(** Where [tail] lies relative to [head] for a size that need not be a
    power of two, as long as the cursors have not wrapped. *)
Lemma epoch_split_nowrap (c h d : Z) :
  0 < c -> 0 <= h -> 0 <= d <= c ->
  (h mod c + d < c /\ (h + d) / c = h / c /\ (h + d) mod c = h mod c + d) \/
  (c <= h mod c + d /\ (h + d) / c = h / c + 1 /\
   (h + d) mod c = h mod c + d - c).
Proof.
  intros Hc Hh Hd.
  pose proof (Z.div_mod h c ltac:(lia)) as Hdm.
  pose proof (Z.mod_pos_bound h c Hc) as Hb.
  assert (Hq : 0 <= h / c) by (apply Z.div_pos; lia).
  destruct (Z_lt_ge_dec (h mod c + d) c) as [Hlt | Hge]; [left | right].
  - split; [exact Hlt|]. split; symmetry.
    + apply (Z.div_unique_pos _ c (h / c) (h mod c + d)); lia.
    + apply (Z.mod_unique_pos _ c (h / c) (h mod c + d)); lia.
  - split; [lia|]. split; symmetry.
    + apply (Z.div_unique_pos _ c (h / c + 1) (h mod c + d - c)); lia.
    + apply (Z.mod_unique_pos _ c (h / c + 1) (h mod c + d - c)); lia.
Qed.

(** X10: for any size, a power of two or not, as long as the cursors
    have not wrapped ([head <= tail] as numbers) and hold at most [size]
    bytes, [lfq_queue_get_push_buf] reports the smaller of the free
    space and the distance from the write index to the end of storage,
    and [lfq_queue_get_pop_buf] the smaller of the bytes held and the
    distance from the read index to the end of storage. *)
Theorem lfq_lengths_without_wrap (q : Lfq.lfq) :
  0 < Lfq.size q < SizeT.modulus ->
  0 <= Lfq.head q <= Lfq.tail q -> Lfq.tail q < SizeT.modulus ->
  Lfq.tail q - Lfq.head q <= Lfq.size q ->
  Lfq.lfq_queue_get_push_buf q =
    (Lfq.data q + Lfq.tail q mod Lfq.size q,
     Z.min (Lfq.size q - (Lfq.tail q - Lfq.head q))
           (Lfq.size q - Lfq.tail q mod Lfq.size q)) /\
  Lfq.lfq_queue_get_pop_buf q =
    (Lfq.data q + Lfq.head q mod Lfq.size q,
     Z.min (Lfq.tail q - Lfq.head q)
           (Lfq.size q - Lfq.head q mod Lfq.size q)).
Proof.
  intros Hsize Hht Ht Hd.
  unfold Lfq.lfq_queue_get_push_buf, Lfq.lfq_queue_get_pop_buf.
  pose proof (Z.mod_pos_bound (Lfq.head q) (Lfq.size q) ltac:(lia)) as Hhm.
  pose proof (Z.mod_pos_bound (Lfq.tail q) (Lfq.size q) ltac:(lia)) as Htm.
  assert (Hsub : (Lfq.tail q - Lfq.head q)%sz = Lfq.tail q - Lfq.head q)
    by (apply wrap_small; unfold SizeT.in_range; lia).
  rewrite Hsub.
  destruct (epoch_split_nowrap (Lfq.size q) (Lfq.head q)
              (Lfq.tail q - Lfq.head q) ltac:(lia) ltac:(lia) ltac:(lia))
    as [(H1 & H2 & H3) | (H1 & H2 & H3)];
    replace (Lfq.head q + (Lfq.tail q - Lfq.head q)) with (Lfq.tail q)
      in H2, H3 by lia.
  - rewrite H2, Z.eqb_refl. split; apply f_equal.
    + unfold SizeT.sub. rewrite wrap_small by (unfold SizeT.in_range; lia).
      lia.
    + lia.
  - destruct (Z.eqb_spec (Lfq.head q / Lfq.size q) (Lfq.tail q / Lfq.size q));
      [lia|].
    split; apply f_equal; unfold SizeT.sub;
      rewrite wrap_small by (unfold SizeT.in_range; lia); lia.
Qed.

Lemma lfq_lengths_without_wrap_witness :
  let q := {| Lfq.data := 1000; Lfq.head := 4; Lfq.tail := 7;
              Lfq.size := 6 |} in
  Lfq.lfq_queue_get_push_buf q = (1001, 3) /\
  Lfq.lfq_queue_get_pop_buf q = (1004, 2).
Proof.
  cbn zeta.
  assert (H1 : 0 < 6 < SizeT.modulus) by (split; reflexivity).
  assert (H2 : 0 <= 4 <= 7) by (split; discriminate).
  assert (H3 : 7 < SizeT.modulus) by reflexivity.
  assert (H4 : 7 - 4 <= 6) by discriminate.
  exact (lfq_lengths_without_wrap
           {| Lfq.data := 1000; Lfq.head := 4; Lfq.tail := 7; Lfq.size := 6 |}
           H1 H2 H3 H4).
Defined.

(** X11: the read slot of [lfq] follows the cursor around the storage
    only while the cursor does not wrap.  A commit of [count] that keeps
    [head] below [2^64] moves the slot by [count] modulo [size], for any
    size; the commit that takes [head] from [2^64 - 1] to 0 moves the
    slot to its successor exactly when [size] divides [2^64]. *)
Theorem lfq_slot_follows_cursor (q : Lfq.lfq) :
  0 < Lfq.size q ->
  (forall count, 0 <= Lfq.head q -> 0 <= count ->
     Lfq.head q + count < SizeT.modulus ->
     fst (Lfq.lfq_queue_get_pop_buf (Lfq.lfq_queue_commit_pop q count)) =
     Lfq.data q + (Lfq.head q mod Lfq.size q + count) mod Lfq.size q) /\
  (Lfq.head q = SizeT.max ->
     (fst (Lfq.lfq_queue_get_pop_buf (Lfq.lfq_queue_commit_pop q 1)) =
      Lfq.data q + (Lfq.head q mod Lfq.size q + 1) mod Lfq.size q
      <-> SizeT.modulus mod Lfq.size q = 0)).
Proof.
  intros Hsize. split.
  - intros count Hh Hc Hlt.
    unfold Lfq.lfq_queue_get_pop_buf, Lfq.lfq_queue_commit_pop.
    cbn [fst Lfq.data Lfq.head Lfq.tail Lfq.size].
    unfold SizeT.add. rewrite wrap_small by (unfold SizeT.in_range; lia).
    rewrite Zplus_mod_idemp_l. reflexivity.
  - intros Hmax.
    unfold Lfq.lfq_queue_get_pop_buf, Lfq.lfq_queue_commit_pop.
    cbn [fst Lfq.data Lfq.head Lfq.tail Lfq.size].
    rewrite Hmax, Zplus_mod_idemp_l.
    change (SizeT.max + 1)%sz with 0. change (SizeT.max + 1) with SizeT.modulus.
    rewrite Z.mod_0_l by lia. split; intros H; lia.
Qed.

Lemma lfq_slot_follows_cursor_witness :
  let q := {| Lfq.data := 1000; Lfq.head := SizeT.max; Lfq.tail := 0;
              Lfq.size := 3 |} in
  0 < Lfq.size q /\
  fst (Lfq.lfq_queue_get_pop_buf q) = 1000 /\
  fst (Lfq.lfq_queue_get_pop_buf (Lfq.lfq_queue_commit_pop q 1)) = 1000 /\
  SizeT.modulus mod Lfq.size q <> 0 /\
  fst (Lfq.lfq_queue_get_pop_buf (Lfq.lfq_queue_commit_pop q 1)) <>
    Lfq.data q + (Lfq.head q mod Lfq.size q + 1) mod Lfq.size q.
Proof.
  cbn zeta.
  assert (Hsize : 0 < Lfq.size {| Lfq.data := 1000; Lfq.head := SizeT.max;
                                  Lfq.tail := 0; Lfq.size := 3 |})
    by reflexivity.
  pose proof (proj2 (lfq_slot_follows_cursor _ Hsize) eq_refl) as Hiff.
  split; [exact Hsize|]. split; [reflexivity|]. split; [reflexivity|].
  split; [discriminate|].
  intros Heq. apply Hiff in Heq. discriminate Heq.
Defined.

(** * The queue of [others/vbq.h] *)

Lemma firstn_plus {A : Type} (a b : nat) (l : list A) :
  firstn (a + b) l = firstn a l ++ firstn b (skipn a l).
Proof.
  revert l. induction a as [|a IH]; intros l; cbn [Nat.add firstn skipn app].
  - reflexivity.
  - destruct l as [|x l]; cbn [firstn skipn app].
    + rewrite firstn_nil. reflexivity.
    + rewrite IH. reflexivity.
Qed.

Lemma firstn_length_exact {A : Type} (n : nat) (l : list A) :
  (n <= length l)%nat -> length (firstn n l) = n.
Proof. intros H. rewrite length_firstn. lia. Qed.

Section Slots.

Variable q : Vbq.vbq.
Hypothesis Hsize : 0 < Vbq.size q.

Lemma slots_app (m : memory) (a b : nat) (idx : Z) :
  0 <= idx < Vbq.size q ->
  Vbq.slots m q idx (a + b) =
  Vbq.slots m q idx a ++
  Vbq.slots m q ((idx + Z.of_nat a) mod Vbq.size q) b.
Proof.
  revert idx. induction a as [|a IH]; intros idx Hidx.
  - cbn [Nat.add Vbq.slots app Z.of_nat].
    rewrite Z.add_0_r, Z.mod_small by lia. reflexivity.
  - cbn [Nat.add Vbq.slots app].
    rewrite IH by (apply Z.mod_pos_bound; lia).
    rewrite Zplus_mod_idemp_l.
    replace (idx + 1 + Z.of_nat a) with (idx + Z.of_nat (S a)) by lia.
    reflexivity.
Qed.

Lemma slots_contig (m : memory) (n : nat) (idx : Z) :
  0 <= idx -> idx + Z.of_nat n <= Vbq.size q ->
  Vbq.slots m q idx n = read_bytes m (Vbq.data q + idx) n.
Proof.
  revert idx. induction n as [|n IH]; intros idx H0 Hfit;
    cbn [Vbq.slots read_bytes]; [reflexivity|].
  f_equal. destruct n as [|n]; [reflexivity|].
  rewrite Z.mod_small by lia. rewrite IH by lia. f_equal. lia.
Qed.

Lemma slots_ext (m m' : memory) (n : nat) (idx : Z) :
  0 <= idx < Vbq.size q ->
  (forall i, 0 <= i < Z.of_nat n ->
     m' (Vbq.data q + (idx + i) mod Vbq.size q) =
     m (Vbq.data q + (idx + i) mod Vbq.size q)) ->
  Vbq.slots m' q idx n = Vbq.slots m q idx n.
Proof.
  revert idx. induction n as [|n IH]; intros idx Hidx Hagree;
    cbn [Vbq.slots]; [reflexivity|].
  f_equal.
  - specialize (Hagree 0 ltac:(lia)).
    rewrite Z.add_0_r, Z.mod_small in Hagree by lia. exact Hagree.
  - apply IH; [apply Z.mod_pos_bound; lia|].
    intros i Hi. rewrite Zplus_mod_idemp_l.
    replace (idx + 1 + i) with (idx + (1 + i)) by lia.
    apply Hagree. lia.
Qed.

Lemma slots_length (m : memory) (n : nat) (idx : Z) :
  length (Vbq.slots m q idx n) = n.
Proof.
  revert idx. induction n as [|n IH]; intros idx; cbn [Vbq.slots length].
  - reflexivity.
  - rewrite IH. reflexivity.
Qed.

End Slots.

Lemma slots_frame (m : memory) (q q' : Vbq.vbq) (n : nat) (idx : Z) :
  Vbq.data q' = Vbq.data q -> Vbq.size q' = Vbq.size q ->
  Vbq.slots m q' idx n = Vbq.slots m q idx n.
Proof.
  intros Hd Hs. revert idx.
  induction n as [|n IH]; intros idx; cbn [Vbq.slots].
  - reflexivity.
  - rewrite IH, Hd, Hs. reflexivity.
Qed.

(** Where [tail] is, given [head] and [nelem]. *)
Lemma vinv_cases (q : Vbq.vbq) :
  Vbq.vinv q ->
  (Vbq.head q + Vbq.nelem q < Vbq.size q /\
   Vbq.tail q = Vbq.head q + Vbq.nelem q) \/
  (Vbq.size q <= Vbq.head q + Vbq.nelem q /\
   Vbq.tail q = Vbq.head q + Vbq.nelem q - Vbq.size q).
Proof.
  intros [Hs Hh Ht Hn Hr].
  destruct (Z_lt_ge_dec (Vbq.head q + Vbq.nelem q) (Vbq.size q)) as [Hlt | Hge].
  - left. split; [exact Hlt|]. rewrite Hr. apply Z.mod_small. lia.
  - right. split; [lia|]. rewrite Hr. symmetry.
    apply (Z.mod_unique_pos _ _ 1); lia.
Qed.

Ltac vbq_cbn :=
  cbn [Vbq.head Vbq.tail Vbq.nelem Vbq.size Vbq.data
       Vbq.set_head Vbq.set_tail Vbq.set_nelem].

Ltac sz_small :=
  unfold SizeT.add, SizeT.sub;
  repeat match goal with
         | |- context [SizeT.wrap ?x] =>
             rewrite (wrap_small x) by (unfold SizeT.in_range; lia)
         end.

Lemma read_bytes_ext (m m' : memory) (n : nat) (a : ptr) :
  (forall i, 0 <= i < Z.of_nat n -> m' (a + i) = m (a + i)) ->
  read_bytes m' a n = read_bytes m a n.
Proof.
  revert a. induction n as [|n IH]; intros a Hagree; cbn [read_bytes].
  - reflexivity.
  - f_equal.
    + specialize (Hagree 0 ltac:(lia)). rewrite Z.add_0_r in Hagree.
      exact Hagree.
    + apply IH. intros i Hi.
      replace (a + 1 + i) with (a + (1 + i)) by lia. apply Hagree. lia.
Qed.

Lemma min_sub_0 (a b : Z) : Z.min (a - b)%sz 0 = 0.
Proof.
  pose proof (wrap_range (a - b)) as H. unfold SizeT.in_range in H.
  unfold SizeT.sub. lia.
Qed.

(** What a push does. *)
Lemma vbq_push_spec (q : Vbq.vbq) (m : memory) (bytes : list byte) (count : Z) :
  Vbq.vinv q -> 0 <= count <= Z.of_nat (length bytes) ->
  count < SizeT.modulus ->
  exists q' m',
    Vbq.vbq_queue_push_vector q m bytes count =
      (Z.min count (Vbq.size q - Vbq.nelem q), q', m') /\
    Vbq.vinv q' /\
    Vbq.data q' = Vbq.data q /\ Vbq.size q' = Vbq.size q /\
    Vbq.head q' = Vbq.head q /\
    Vbq.nelem q' = Vbq.nelem q + Z.min count (Vbq.size q - Vbq.nelem q) /\
    Vbq.contents q' m' =
      Vbq.contents q m ++
      firstn (Z.to_nat (Z.min count (Vbq.size q - Vbq.nelem q))) bytes.
Proof.
  intros Hinv Hcount Hmod.
  pose proof (vinv_cases q Hinv) as Hcases.
  destruct Hinv as [Hs Hh Ht Hn Hr].
  unfold Vbq.vbq_queue_push_vector.
  destruct Hcases as [[Hlt Htail] | [Hge Htail]].
  - (* the held bytes do not wrap: the first copy runs *)
    assert (Hcond : (Vbq.head q <? Vbq.tail q) || (Vbq.nelem q =? 0) = true).
    { destruct (Z.eqb_spec (Vbq.nelem q) 0); [apply orb_true_r|].
      apply orb_true_iff. left. apply Z.ltb_lt. lia. }
    rewrite Hcond, !MIN_min.
    vbq_cbn.
    replace (Vbq.size q - Vbq.tail q)%sz with (Vbq.size q - Vbq.tail q)
      by (sz_small; reflexivity).
    destruct (Z_lt_ge_dec count (Vbq.size q - Vbq.tail q)) as [Hfit | Hfill].
    + (* everything fits before the end of storage *)
      rewrite (Z.min_r _ count) by lia.
      replace (Vbq.tail q + count)%sz with (Vbq.tail q + count)
        by (sz_small; reflexivity).
      rewrite (Z.mod_small (Vbq.tail q + count)) by lia.
      replace (count - count)%sz with 0
        by (unfold SizeT.sub; rewrite Z.sub_diag; reflexivity).
      rewrite min_sub_0.
      cbn [Z.ltb Z.compare].
      replace (0 + count)%sz with count by (sz_small; reflexivity).
      replace (Z.min count (Vbq.size q - Vbq.nelem q)) with count by lia.
      eexists. eexists. split; [reflexivity|].
      vbq_cbn.
      replace (Vbq.nelem q + count)%sz with (Vbq.nelem q + count)
        by (sz_small; reflexivity).
      split.
      { constructor; vbq_cbn; try lia.
        rewrite Z.mod_small by lia. lia. }
      repeat (split; [reflexivity|]).
      unfold Vbq.contents. vbq_cbn.
      rewrite (slots_frame _ q) by reflexivity.
      rewrite Z2Nat.inj_add, (slots_app q) by lia.
      rewrite Z2Nat.id, <- Htail, (Z.mod_small (Vbq.tail q)) by lia.
      f_equal.
      * apply (slots_ext q); [lia | lia |].
        intros i Hi. apply memcpy_outside. left.
        rewrite Z.mod_small by lia. lia.
      * assert (Hl : length (firstn (Z.to_nat count) bytes) = Z.to_nat count)
          by (apply firstn_length_exact; lia).
        rewrite (slots_contig q) by lia.
        rewrite <- Hl at 2. apply read_memcpy.
    + (* the first copy reaches the end of storage *)
      rewrite (Z.min_l _ count) by lia.
      replace (Vbq.tail q + (Vbq.size q - Vbq.tail q)%Z)%sz with (Vbq.size q)
        by (sz_small; lia).
      rewrite Z.mod_same by lia.
      replace (Vbq.head q - 0)%sz with (Vbq.head q) by (sz_small; lia).
      replace (count - (Vbq.size q - Vbq.tail q)%Z)%sz
        with (count - (Vbq.size q - Vbq.tail q)) by (sz_small; reflexivity).
      set (tc := Vbq.size q - Vbq.tail q).
      set (hc := Z.min (Vbq.head q) (count - tc)).
      assert (Htc : 0 < tc) by (unfold tc; lia).
      assert (Hhc : 0 <= hc <= Vbq.head q) by (unfold hc, tc; lia).
      assert (Htot : Z.min count (Vbq.size q - Vbq.nelem q) = tc + hc)
        by (unfold hc, tc; lia).
      rewrite Htot.
      assert (Hl1 : length (firstn (Z.to_nat tc) bytes) = Z.to_nat tc)
        by (apply firstn_length_exact; unfold tc, hc in *; lia).
      assert (Hl2 : length (firstn (Z.to_nat hc) (skipn (Z.to_nat tc) bytes)) =
                    Z.to_nat hc).
      { apply firstn_length_exact. rewrite length_skipn.
        unfold tc, hc in *. lia. }
      assert (Hvinv : forall t', t' = hc ->
                Vbq.vinv {| Vbq.data := Vbq.data q; Vbq.head := Vbq.head q;
                            Vbq.tail := t'; Vbq.nelem := Vbq.nelem q + (tc + hc);
                            Vbq.size := Vbq.size q |}).
      { intros t' ->. constructor; vbq_cbn; try (unfold tc in *; lia).
        apply (Z.mod_unique_pos _ _ 1); unfold tc in *; lia. }
      assert (Hold : forall m',
                (forall a, Vbq.data q + Vbq.head q <= a <
                           Vbq.data q + Vbq.tail q -> m' a = m a) ->
                Vbq.slots m' q (Vbq.head q) (Z.to_nat (Vbq.nelem q)) =
                Vbq.slots m q (Vbq.head q) (Z.to_nat (Vbq.nelem q))).
      { intros m' Hsame. apply (slots_ext q); [lia | lia |].
        intros i Hi. apply Hsame. rewrite Z.mod_small by lia. lia. }
      destruct (Z.ltb_spec 0 hc) as [Hpos | Hzero].
      * replace (0 + tc + hc)%sz with (tc + hc) by (sz_small; reflexivity).
        replace (0 + hc)%sz with hc by (sz_small; reflexivity).
        eexists. eexists. split; [reflexivity|]. vbq_cbn.
        replace (Vbq.nelem q + (tc + hc)%Z)%sz with (Vbq.nelem q + (tc + hc))
          by (sz_small; unfold tc; lia).
        split; [apply Hvinv; reflexivity|].
        repeat (split; [reflexivity|]).
        unfold Vbq.contents. vbq_cbn.
        rewrite (slots_frame _ q) by reflexivity.
        rewrite !Z2Nat.inj_add, (slots_app q) by lia.
        rewrite Z2Nat.id, <- Htail, (Z.mod_small (Vbq.tail q)) by lia.
        rewrite (slots_app q), firstn_plus by lia.
        rewrite Z2Nat.id by lia.
        replace (Vbq.tail q + tc) with (Vbq.size q) by (unfold tc; lia).
        rewrite Z.mod_same by lia.
        f_equal; [|f_equal].
        -- apply Hold. intros a Ha.
           rewrite memcpy_outside by (right; rewrite Hl2; lia).
           apply memcpy_outside. left. lia.
        -- rewrite (slots_contig q) by (unfold tc; lia).
           rewrite (read_bytes_ext
                      (memcpy m (Vbq.data q + Vbq.tail q)
                         (firstn (Z.to_nat tc) bytes))).
           ++ rewrite <- Hl1 at 2. apply read_memcpy.
           ++ intros i Hi. apply memcpy_outside. right. rewrite Hl2. lia.
        -- rewrite (slots_contig q) by lia.
           rewrite <- Hl2 at 2. apply read_memcpy.
      * assert (hc = 0) by lia.
        replace (0 + tc)%sz with tc by (sz_small; unfold tc; lia).
        replace (tc + hc) with tc by lia.
        eexists. eexists. split; [reflexivity|]. vbq_cbn.
        replace (Vbq.nelem q + tc)%sz with (Vbq.nelem q + tc)
          by (sz_small; unfold tc; lia).
        split.
        { replace tc with (tc + hc) by lia. apply Hvinv. vbq_cbn. lia. }
        repeat (split; [reflexivity|]).
        unfold Vbq.contents. vbq_cbn.
        rewrite (slots_frame _ q) by reflexivity.
        rewrite !Z2Nat.inj_add, (slots_app q) by lia.
        rewrite Z2Nat.id, <- Htail, (Z.mod_small (Vbq.tail q)) by lia.
        f_equal.
        -- apply Hold. intros a Ha. apply memcpy_outside. left. lia.
        -- rewrite (slots_contig q) by (unfold tc; lia).
           rewrite <- Hl1 at 2. apply read_memcpy.
  - (* the held bytes wrap, or fill the storage: only the second copy *)
    assert (Hcond : (Vbq.head q <? Vbq.tail q) || (Vbq.nelem q =? 0) = false).
    { apply orb_false_iff. split; [apply Z.ltb_ge | apply Z.eqb_neq]; lia. }
    rewrite Hcond, !MIN_min. vbq_cbn.
    replace (Vbq.head q - Vbq.tail q)%sz with (Vbq.head q - Vbq.tail q)
      by (sz_small; reflexivity).
    replace (count - 0)%sz with count by (sz_small; lia).
    set (hc := Z.min (Vbq.head q - Vbq.tail q) count).
    assert (Hhc : 0 <= hc <= Vbq.head q - Vbq.tail q) by (unfold hc; lia).
    assert (Htot : Z.min count (Vbq.size q - Vbq.nelem q) = hc)
      by (unfold hc; lia).
    rewrite Htot.
    assert (Hl : length (firstn (Z.to_nat hc) (skipn (Z.to_nat 0) bytes)) =
                 Z.to_nat hc).
    { apply firstn_length_exact. cbn [Z.to_nat skipn]. unfold hc in *. lia. }
    destruct (Z.ltb_spec 0 hc) as [Hpos | Hzero].
    + replace (0 + hc)%sz with hc by (sz_small; reflexivity).
      replace (Vbq.tail q + hc)%sz with (Vbq.tail q + hc)
        by (sz_small; reflexivity).
      eexists. eexists. split; [reflexivity|]. vbq_cbn.
      replace (Vbq.nelem q + hc)%sz with (Vbq.nelem q + hc)
        by (sz_small; reflexivity).
      split.
      { constructor; vbq_cbn; try lia.
        apply (Z.mod_unique_pos _ _ 1); lia. }
      repeat (split; [reflexivity|]).
      unfold Vbq.contents. vbq_cbn.
      rewrite (slots_frame _ q) by reflexivity.
      rewrite Z2Nat.inj_add, (slots_app q) by lia.
      rewrite Z2Nat.id, <- Hr by lia.
      f_equal.
      * apply (slots_ext q); [lia | lia |].
        intros i Hi. apply memcpy_outside. rewrite Hl.
        destruct (Z_lt_ge_dec (Vbq.head q + i) (Vbq.size q)).
        -- right. rewrite Z.mod_small by lia. lia.
        -- left.
           rewrite <- (Z.mod_unique_pos (Vbq.head q + i) (Vbq.size q) 1
                         (Vbq.head q + i - Vbq.size q)) by lia.
           lia.
      * rewrite (slots_contig q) by lia.
        rewrite <- Hl at 2. cbn [Z.to_nat skipn]. apply read_memcpy.
    + assert (Hz : hc = 0) by lia. rewrite Hz.
      eexists. eexists. split; [reflexivity|]. vbq_cbn.
      replace (Vbq.nelem q + 0)%sz with (Vbq.nelem q) by (sz_small; lia).
      split.
      { constructor; vbq_cbn; assumption. }
      split; [reflexivity|]. split; [reflexivity|]. split; [reflexivity|].
      split; [lia|].
      unfold Vbq.contents. vbq_cbn. cbn [Z.to_nat firstn].
      rewrite app_nil_r. apply slots_frame; reflexivity.
Qed.

(** What a pop does. *)
Lemma vbq_pop_spec (q : Vbq.vbq) (m : memory) (count : Z) :
  Vbq.vinv q -> 0 <= count < SizeT.modulus ->
  exists bytes q',
    Vbq.vbq_queue_pop_vector q m count =
      (Z.min count (Vbq.nelem q), bytes, q') /\
    Vbq.vinv q' /\
    Vbq.data q' = Vbq.data q /\ Vbq.size q' = Vbq.size q /\
    Vbq.tail q' = Vbq.tail q /\
    Vbq.nelem q' = Vbq.nelem q - Z.min count (Vbq.nelem q) /\
    length bytes = Z.to_nat (Z.min count (Vbq.nelem q)) /\
    Vbq.contents q m = bytes ++ Vbq.contents q' m.
Proof.
  intros Hinv Hcount.
  pose proof (vinv_cases q Hinv) as Hcases.
  pose proof Hinv as [Hs Hh Ht Hn Hr].
  unfold Vbq.vbq_queue_pop_vector.
  destruct (Z.eqb_spec (Vbq.nelem q) 0) as [Hempty | Hsome].
  { exists [], q. rewrite Hempty, Z.min_r by lia.
    split; [reflexivity|]. split; [exact Hinv|].
    repeat (split; [reflexivity|]). reflexivity. }
  destruct Hcases as [[Hlt Htail] | [Hge Htail]].
  - (* the held bytes do not wrap *)
    assert (Hcond : (Vbq.head q <? Vbq.tail q) = true)
      by (apply Z.ltb_lt; lia).
    rewrite Hcond, MIN_min. vbq_cbn.
    replace (Vbq.tail q - Vbq.head q)%sz with (Vbq.nelem q)
      by (sz_small; lia).
    rewrite (Z.min_comm (Vbq.nelem q) count).
    set (n := Z.min count (Vbq.nelem q)).
    assert (Hn' : 0 <= n <= Vbq.nelem q) by (unfold n; lia).
    replace (Vbq.head q + n)%sz with (Vbq.head q + n) by (sz_small; reflexivity).
    replace (Vbq.nelem q - n)%sz with (Vbq.nelem q - n)
      by (sz_small; reflexivity).
    rewrite (Z.mod_small (Vbq.head q + n)) by lia.
    eexists. eexists. split; [reflexivity|]. vbq_cbn.
    split.
    { constructor; vbq_cbn; try lia.
      replace (Vbq.head q + n + (Vbq.nelem q - n))
        with (Vbq.head q + Vbq.nelem q) by lia. exact Hr. }
    repeat (split; [reflexivity|]).
    split; [apply read_bytes_length|].
    unfold Vbq.contents. vbq_cbn.
    rewrite (slots_frame m q (Vbq.set_nelem _ _)) by reflexivity.
    replace (Z.to_nat (Vbq.nelem q))
      with (Z.to_nat n + Z.to_nat (Vbq.nelem q - n))%nat by lia.
    rewrite (slots_app q), Z2Nat.id, (Z.mod_small (Vbq.head q + n)) by lia.
    f_equal. apply (slots_contig q); lia.
  - (* the held bytes wrap, or fill the storage *)
    assert (Hcond : (Vbq.head q <? Vbq.tail q) = false)
      by (apply Z.ltb_ge; lia).
    rewrite Hcond, !MIN_min. vbq_cbn.
    replace (Vbq.size q - Vbq.head q)%sz with (Vbq.size q - Vbq.head q)
      by (sz_small; reflexivity).
    destruct (Z_lt_ge_dec count (Vbq.size q - Vbq.head q)) as [Hfit | Hend].
    + (* the pop stops before the end of storage *)
      rewrite (Z.min_r _ count) by lia.
      replace (count - count)%sz with 0
        by (unfold SizeT.sub; rewrite Z.sub_diag; reflexivity).
      rewrite min_sub_0. cbn [Z.ltb Z.compare].
      replace (count + 0)%sz with count by (sz_small; lia).
      replace (Vbq.head q + count)%sz with (Vbq.head q + count)
        by (sz_small; reflexivity).
      replace (Vbq.nelem q - count)%sz with (Vbq.nelem q - count)
        by (sz_small; reflexivity).
      rewrite (Z.mod_small (Vbq.head q + count)) by lia.
      rewrite (Z.min_l count) by lia.
      eexists. eexists. split; [reflexivity|]. vbq_cbn.
      split.
      { constructor; vbq_cbn; try lia.
        replace (Vbq.head q + count + (Vbq.nelem q - count))
          with (Vbq.head q + Vbq.nelem q) by lia. exact Hr. }
      repeat (split; [reflexivity|]).
      split; [apply read_bytes_length|].
      unfold Vbq.contents. vbq_cbn.
      rewrite (slots_frame m q (Vbq.set_nelem _ _)) by reflexivity.
      replace (Z.to_nat (Vbq.nelem q))
        with (Z.to_nat count + Z.to_nat (Vbq.nelem q - count))%nat by lia.
      rewrite (slots_app q), Z2Nat.id, (Z.mod_small (Vbq.head q + count))
        by lia.
      f_equal. apply (slots_contig q); lia.
    + (* the pop reaches the end of storage and goes on from its start *)
      rewrite (Z.min_l _ count) by lia.
      set (f := Vbq.size q - Vbq.head q).
      assert (Hf : 0 < f <= Vbq.nelem q) by (unfold f; lia).
      replace (Vbq.head q + f)%sz with (Vbq.size q) by (sz_small; unfold f; lia).
      rewrite Z.mod_same by lia.
      replace (Vbq.tail q - 0)%sz with (Vbq.tail q) by (sz_small; lia).
      replace (count - f)%sz with (count - f) by (sz_small; reflexivity).
      replace (Vbq.nelem q - f)%sz with (Vbq.tail q)
        by (sz_small; unfold f; lia).
      set (s2 := Z.min (Vbq.tail q) (count - f)).
      assert (Hs2 : 0 <= s2 <= Vbq.tail q) by (unfold s2; lia).
      assert (Htot : Z.min count (Vbq.nelem q) = f + s2)
        by (unfold s2, f; lia).
      rewrite Htot.
      assert (Hsplit : Vbq.slots m q (Vbq.head q) (Z.to_nat (Vbq.nelem q)) =
                       read_bytes m (Vbq.data q + Vbq.head q) (Z.to_nat f) ++
                       Vbq.slots m q 0 (Z.to_nat (Vbq.tail q))).
      { replace (Z.to_nat (Vbq.nelem q))
          with (Z.to_nat f + Z.to_nat (Vbq.tail q))%nat by (unfold f; lia).
        rewrite (slots_app q), Z2Nat.id by lia.
        replace (Vbq.head q + f) with (Vbq.size q) by (unfold f; lia).
        rewrite Z.mod_same by lia.
        f_equal. apply (slots_contig q); unfold f; lia. }
      destruct (Z.ltb_spec 0 s2) as [Hpos | Hzero].
      * replace (0 + s2)%sz with s2 by (sz_small; reflexivity).
        replace (Vbq.tail q - s2)%sz with (Vbq.tail q - s2)
          by (sz_small; reflexivity).
        replace (f + s2)%sz with (f + s2) by (sz_small; unfold f; lia).
        rewrite (Z.mod_small s2) by lia.
        eexists. eexists. split; [reflexivity|]. vbq_cbn.
        split.
        { constructor; vbq_cbn; try lia.
          replace (s2 + (Vbq.tail q - s2)) with (Vbq.tail q) by lia.
          symmetry. apply Z.mod_small. lia. }
        split; [reflexivity|]. split; [reflexivity|]. split; [reflexivity|].
        split; [unfold f; lia|].
        split; [rewrite length_app, !read_bytes_length; lia|].
        unfold Vbq.contents. vbq_cbn.
        rewrite (slots_frame m q (Vbq.set_nelem _ _)) by reflexivity.
        rewrite Hsplit, <- app_assoc. f_equal.
        replace (Z.to_nat (Vbq.tail q))
          with (Z.to_nat s2 + Z.to_nat (Vbq.tail q - s2))%nat by lia.
        rewrite (slots_app q), Z2Nat.id, Z.add_0_l, (Z.mod_small s2) by lia.
        f_equal. apply (slots_contig q); lia.
      * assert (Hz : s2 = 0) by lia. rewrite Hz.
        replace (f + 0)%sz with f by (sz_small; unfold f; lia).
        rewrite Z.add_0_r.
        eexists. eexists. split; [reflexivity|]. vbq_cbn.
        split.
        { constructor; vbq_cbn; try lia.
          symmetry. rewrite Z.add_0_l. apply Z.mod_small. lia. }
        split; [reflexivity|]. split; [reflexivity|]. split; [reflexivity|].
        split; [unfold f; lia|].
        split; [apply read_bytes_length|].
        unfold Vbq.contents. vbq_cbn.
        rewrite (slots_frame m q (Vbq.set_nelem _ _)) by reflexivity.
        exact Hsplit.
Qed.

(** X12: [vbq_queue_push_vector] accepts as many bytes as fit.  On a
    queue that satisfies the invariant, with [count] bytes available in
    the caller's array, it returns the smaller of [count] and the free
    space [size - nelem], keeps the invariant, adds that many to
    [nelem], and appends exactly the first that many bytes of the
    caller's array to what the queue holds. *)
Theorem vbq_push_accepts_what_fits
    (q : Vbq.vbq) (m : memory) (bytes : list byte) (count : Z) :
  Vbq.vinv q -> 0 <= count <= Z.of_nat (length bytes) ->
  count < SizeT.modulus ->
  let r := Vbq.vbq_queue_push_vector q m bytes count in
  let total := fst (fst r) in
  let q' := snd (fst r) in
  total = Z.min count (Vbq.size q - Vbq.nelem q) /\
  Vbq.vinv q' /\
  Vbq.head q' = Vbq.head q /\
  Vbq.nelem q' = Vbq.nelem q + total /\
  Vbq.contents q' (snd r) =
    Vbq.contents q m ++ firstn (Z.to_nat total) bytes.
Proof.
  intros Hinv Hcount Hmod. cbn zeta.
  destruct (vbq_push_spec q m bytes count Hinv Hcount Hmod)
    as (q' & m' & -> & Hinv' & _ & _ & Hhead & Hnelem & Hcont).
  cbn [fst snd]. split; [reflexivity|]. split; [exact Hinv'|].
  split; [exact Hhead|]. split; [exact Hnelem | exact Hcont].
Qed.

Lemma vbq_push_accepts_what_fits_witness :
  let q := {| Vbq.data := 1000; Vbq.head := 3; Vbq.tail := 4; Vbq.nelem := 1;
              Vbq.size := 5 |} in
  let r := Vbq.vbq_queue_push_vector q (fun _ => x00)
             [x01; x02; x03; x04; x05; x06] 6 in
  Vbq.vinv q /\
  fst (fst r) = 4 /\
  Vbq.tail (snd (fst r)) = 3 /\
  Vbq.contents (snd (fst r)) (snd r) = [x00; x01; x02; x03; x04].
Proof.
  cbn zeta.
  assert (Hinv : Vbq.vinv {| Vbq.data := 1000; Vbq.head := 3; Vbq.tail := 4;
                             Vbq.nelem := 1; Vbq.size := 5 |}).
  { constructor; cbn; try (split; (discriminate || reflexivity));
      reflexivity. }
  assert (Hcount : 0 <= 6 <= Z.of_nat (length [x01; x02; x03; x04; x05; x06]))
    by (split; discriminate).
  assert (Hmod : 6 < SizeT.modulus) by reflexivity.
  pose proof (vbq_push_accepts_what_fits _ (fun _ => x00) _ 6 Hinv Hcount Hmod)
    as (H1 & _ & _ & _ & H5).
  split; [exact Hinv|]. split; [exact H1|]. split; [reflexivity|].
  rewrite H5. reflexivity.
Defined.

(** X13: [vbq_queue_pop_vector] returns the oldest bytes.  On a queue
    that satisfies the invariant it returns the smaller of [count] and
    [nelem], writes that many bytes to the caller's array, keeps the
    invariant, and what the queue held before is what it wrote followed
    by what the queue holds after. *)
Theorem vbq_pop_returns_oldest (q : Vbq.vbq) (m : memory) (count : Z) :
  Vbq.vinv q -> 0 <= count < SizeT.modulus ->
  let r := Vbq.vbq_queue_pop_vector q m count in
  let total := fst (fst r) in
  let bytes := snd (fst r) in
  let q' := snd r in
  total = Z.min count (Vbq.nelem q) /\
  Vbq.vinv q' /\
  Vbq.tail q' = Vbq.tail q /\
  Vbq.nelem q' = Vbq.nelem q - total /\
  Z.of_nat (length bytes) = total /\
  Vbq.contents q m = bytes ++ Vbq.contents q' m.
Proof.
  intros Hinv Hcount. cbn zeta.
  destruct (vbq_pop_spec q m count Hinv Hcount)
    as (bytes & q' & -> & Hinv' & _ & _ & Htail & Hnelem & Hlen & Hcont).
  cbn [fst snd]. destruct Hinv as [_ _ _ Hn _].
  split; [reflexivity|]. split; [exact Hinv'|].
  split; [exact Htail|]. split; [exact Hnelem|].
  split; [lia | exact Hcont].
Qed.

Lemma vbq_pop_returns_oldest_witness :
  let q := {| Vbq.data := 1000; Vbq.head := 3; Vbq.tail := 2; Vbq.nelem := 4;
              Vbq.size := 5 |} in
  let m := memcpy (fun _ => x00) 1000 [x03; x04; x00; x01; x02] in
  let r := Vbq.vbq_queue_pop_vector q m 3 in
  Vbq.vinv q /\
  fst (fst r) = 3 /\ snd (fst r) = [x01; x02; x03] /\
  Vbq.contents q m = snd (fst r) ++ Vbq.contents (snd r) m.
Proof.
  cbn zeta.
  assert (Hinv : Vbq.vinv {| Vbq.data := 1000; Vbq.head := 3; Vbq.tail := 2;
                             Vbq.nelem := 4; Vbq.size := 5 |}).
  { constructor; cbn; try (split; (discriminate || reflexivity));
      reflexivity. }
  assert (Hcount : 0 <= 3 < SizeT.modulus)
    by (split; [discriminate | reflexivity]).
  pose proof (vbq_pop_returns_oldest _
                (memcpy (fun _ => x00) 1000 [x03; x04; x00; x01; x02]) 3
                Hinv Hcount) as (H1 & _ & _ & _ & _ & H6).
  split; [exact Hinv|]. split; [exact H1|]. split; [reflexivity|]. exact H6.
Defined.

Lemma vbq_init_inv (buffer : ptr) (size : Z) :
  0 < size < SizeT.modulus -> Vbq.vinv (Vbq.vbq_queue_init buffer size).
Proof.
  intros Hs.
  constructor; cbn [Vbq.vbq_queue_init Vbq.head Vbq.tail Vbq.nelem Vbq.size];
    try lia.
  rewrite Z.add_0_l, Z.mod_0_l by lia. reflexivity.
Qed.

Lemma vbq_apply_op_inv (t : Vbq.trace) (o : Vbq.op) :
  Vbq.vinv (Vbq.tq t) -> Vbq.in_range o ->
  Vbq.accepted t = Vbq.returned t ++ Vbq.contents (Vbq.tq t) (Vbq.tm t) ->
  Vbq.vinv (Vbq.tq (Vbq.apply_op t o)) /\
  Vbq.size (Vbq.tq (Vbq.apply_op t o)) = Vbq.size (Vbq.tq t) /\
  Vbq.accepted (Vbq.apply_op t o) =
    Vbq.returned (Vbq.apply_op t o) ++
    Vbq.contents (Vbq.tq (Vbq.apply_op t o)) (Vbq.tm (Vbq.apply_op t o)).
Proof.
  intros Hinv Hr Hacc. destruct o as [bytes | count]; cbn [Vbq.apply_op].
  - cbn [Vbq.in_range] in Hr.
    destruct (vbq_push_spec (Vbq.tq t) (Vbq.tm t) bytes
                (Z.of_nat (length bytes)) Hinv ltac:(lia) Hr)
      as (q' & m' & -> & Hinv' & _ & Hsz & _ & _ & Hcont).
    cbn [Vbq.tq Vbq.tm Vbq.accepted Vbq.returned].
    split; [exact Hinv'|]. split; [exact Hsz|].
    rewrite Hcont, Hacc, app_assoc. reflexivity.
  - cbn [Vbq.in_range] in Hr.
    destruct (vbq_pop_spec (Vbq.tq t) (Vbq.tm t) count Hinv Hr)
      as (bytes & q' & -> & Hinv' & _ & Hsz & _ & _ & _ & Hcont).
    cbn [Vbq.tq Vbq.tm Vbq.accepted Vbq.returned].
    split; [exact Hinv'|]. split; [exact Hsz|].
    rewrite Hacc, Hcont, app_assoc. reflexivity.
Qed.

Lemma vbq_apply_ops_inv (ops : list Vbq.op) (t : Vbq.trace) :
  Forall Vbq.in_range ops ->
  Vbq.vinv (Vbq.tq t) ->
  Vbq.accepted t = Vbq.returned t ++ Vbq.contents (Vbq.tq t) (Vbq.tm t) ->
  Vbq.vinv (Vbq.tq (Vbq.apply_ops t ops)) /\
  Vbq.size (Vbq.tq (Vbq.apply_ops t ops)) = Vbq.size (Vbq.tq t) /\
  Vbq.accepted (Vbq.apply_ops t ops) =
    Vbq.returned (Vbq.apply_ops t ops) ++
    Vbq.contents (Vbq.tq (Vbq.apply_ops t ops)) (Vbq.tm (Vbq.apply_ops t ops)).
Proof.
  intros Hops. revert t.
  induction Hops as [|o ops Ho Hops IH]; intros t Hinv Hacc.
  - split; [exact Hinv|]. split; [reflexivity | exact Hacc].
  - unfold Vbq.apply_ops. cbn [fold_left].
    destruct (vbq_apply_op_inv t o Hinv Ho Hacc) as (Hinv1 & Hsz1 & Hacc1).
    destruct (IH _ Hinv1 Hacc1) as (Hinv2 & Hsz2 & Hacc2).
    split; [exact Hinv2|]. split; [|exact Hacc2].
    unfold Vbq.apply_ops in Hsz2. rewrite Hsz2. exact Hsz1.
Qed.

(** X14: the queue is first in, first out.  From [vbq_queue_init] on a
    storage of any positive size, after any sequence of pushes and pops
    the bytes accepted by the pushes are, in order, the bytes returned
    by the pops followed by the bytes the queue still holds, of which
    there are [nelem], never more than [size]. *)
Theorem vbq_is_fifo
    (buffer : ptr) (size : Z) (m : memory) (ops : list Vbq.op) :
  0 < size < SizeT.modulus -> Forall Vbq.in_range ops ->
  let t := Vbq.apply_ops (Vbq.start buffer size m) ops in
  Vbq.accepted t = Vbq.returned t ++ Vbq.contents (Vbq.tq t) (Vbq.tm t) /\
  Z.of_nat (length (Vbq.contents (Vbq.tq t) (Vbq.tm t))) = Vbq.nelem (Vbq.tq t) /\
  Vbq.nelem (Vbq.tq t) <= size.
Proof.
  intros Hsize Hops. cbn zeta.
  destruct (vbq_apply_ops_inv ops (Vbq.start buffer size m) Hops
              (vbq_init_inv buffer size Hsize) eq_refl)
    as (Hinv & Hsz & Hacc).
  cbn [Vbq.start Vbq.tq Vbq.vbq_queue_init Vbq.size] in Hsz.
  destruct Hinv as [_ _ _ Hn _].
  split; [exact Hacc|]. split.
  - unfold Vbq.contents. rewrite slots_length. lia.
  - lia.
Qed.

Lemma vbq_is_fifo_witness :
  let t := Vbq.apply_ops (Vbq.start 1000 5 (fun _ => x00))
             [Vbq.PushVector [x01; x02; x03]; Vbq.PopVector 2;
              Vbq.PushVector [x04; x05; x06; x07; x08; x09];
              Vbq.PopVector 4] in
  0 < 5 < SizeT.modulus /\
  Vbq.accepted t = [x01; x02; x03; x04; x05; x06; x07] /\
  Vbq.returned t = [x01; x02; x03; x04; x05; x06] /\
  Vbq.accepted t = Vbq.returned t ++ Vbq.contents (Vbq.tq t) (Vbq.tm t).
Proof.
  cbn zeta.
  assert (Hsize : 0 < 5 < SizeT.modulus) by (split; reflexivity).
  assert (Hops : Forall Vbq.in_range
            [Vbq.PushVector [x01; x02; x03]; Vbq.PopVector 2;
             Vbq.PushVector [x04; x05; x06; x07; x08; x09];
             Vbq.PopVector 4]).
  { repeat constructor; discriminate. }
  pose proof (vbq_is_fifo 1000 5 (fun _ => x00) _ Hsize Hops) as (H1 & _).
  split; [exact Hsize|]. split; [reflexivity|]. split; [reflexivity|].
  exact H1.
Defined.

(** * The test driver on [vbq] *)

Lemma check_vector_fill (r n : Z) :
  check_vector (fill_bytes r n) r n = true.
Proof.
  unfold check_vector. apply forallb_forall. intros i Hi.
  apply in_seq in Hi. apply Byte.byte_dec_lb.
  unfold fill_bytes.
  rewrite (nth_indep _ x00 (uint8 (r - Z.of_nat 0)%sz))
    by (rewrite length_map, length_seq; lia).
  rewrite (map_nth (fun i => uint8 (r - Z.of_nat i)%sz)).
  rewrite seq_nth by lia. reflexivity.
Qed.

Lemma vbq_harness_init_inv (buf : ptr) (size total : Z) (m : memory) :
  0 < size < SizeT.modulus -> 0 <= total ->
  vbq_harness_inv total (vbq_harness_init buf size total m).
Proof.
  intros Hsize Htotal. constructor;
    cbn [vbq_harness_init vbq_queue vbq_heap vbq_producer_remaining
         vbq_consumer_remaining].
  - apply vbq_init_inv. exact Hsize.
  - lia.
  - cbn. lia.
  - lia.
  - reflexivity.
Qed.

Lemma producer_vbq_inv (total : Z) (st : vbq_harness) :
  total < SizeT.modulus -> vbq_harness_inv total st ->
  vbq_harness_inv total (producer_vbq st).
Proof.
  intros Htotal [Hinv Hprod Hcons Hle Hbytes]. unfold producer_vbq.
  destruct (Z.ltb_spec 0 (vbq_producer_remaining st)) as [Hpos | Hzero];
    [|constructor; assumption].
  rewrite MIN_min.
  set (count := Z.min MAX_BYTES_PER_OP (vbq_producer_remaining st)).
  assert (Hc : 0 <= count <= vbq_producer_remaining st)
    by (unfold count, MAX_BYTES_PER_OP; lia).
  destruct (vbq_push_spec (vbq_queue st) (vbq_heap st)
              (fill_bytes (vbq_producer_remaining st) count) count Hinv)
    as (q' & m' & -> & Hinv' & _ & _ & _ & Hnelem & Hcont);
    [rewrite fill_bytes_length; lia | lia |].
  pose proof Hinv as [_ _ _ Hn _].
  set (pushed := Z.min count (Vbq.size (vbq_queue st) - Vbq.nelem (vbq_queue st)))
    in *.
  assert (Hp : 0 <= pushed <= count) by (unfold pushed; lia).
  assert (Hsub : (vbq_producer_remaining st - pushed)%sz =
                 vbq_producer_remaining st - pushed)
    by (apply wrap_small; unfold SizeT.in_range; lia).
  constructor;
    cbn [vbq_queue vbq_heap vbq_producer_remaining vbq_consumer_remaining];
    try assumption; try lia.
  rewrite Hcont, Hbytes, Hnelem, fill_bytes_prefix, fill_bytes_app by lia.
  do 2 f_equal. symmetry. unfold SizeT.sub.
  replace (vbq_consumer_remaining st - Vbq.nelem (vbq_queue st))
    with (vbq_producer_remaining st) by lia.
  apply wrap_small. unfold SizeT.in_range. lia.
Qed.

Lemma consumer_vbq_inv (total : Z) (st : vbq_harness) :
  total < SizeT.modulus -> vbq_harness_inv total st ->
  exists st', consumer_vbq st = Some st' /\ vbq_harness_inv total st'.
Proof.
  intros Htotal [Hinv Hprod Hcons Hle Hbytes]. unfold consumer_vbq.
  destruct (Z.ltb_spec 0 (vbq_consumer_remaining st)) as [Hpos | Hzero];
    [|exists st; split; [reflexivity | constructor; assumption]].
  rewrite MIN_min.
  set (count := Z.min MAX_BYTES_PER_OP (vbq_consumer_remaining st)).
  assert (Hc : 0 <= count <= vbq_consumer_remaining st)
    by (unfold count, MAX_BYTES_PER_OP; lia).
  destruct (vbq_pop_spec (vbq_queue st) (vbq_heap st) count Hinv ltac:(lia))
    as (bytes & q' & -> & Hinv' & _ & _ & _ & Hnelem & Hlen & Hcont).
  pose proof Hinv as [_ _ _ Hn _].
  set (res := Z.min count (Vbq.nelem (vbq_queue st))) in *.
  assert (Hres : 0 <= res <= Vbq.nelem (vbq_queue st)) by (unfold res; lia).
  rewrite Hbytes in Hcont.
  replace (Vbq.nelem (vbq_queue st))
    with (res + (Vbq.nelem (vbq_queue st) - res)) in Hcont at 1 by lia.
  rewrite fill_bytes_app in Hcont by lia.
  apply app_same_length in Hcont; [|rewrite fill_bytes_length; lia].
  destruct Hcont as [Hout Hrest].
  rewrite <- Hout, check_vector_fill.
  assert (Hsub : (vbq_consumer_remaining st - res)%sz =
                 vbq_consumer_remaining st - res)
    by (apply wrap_small; unfold SizeT.in_range; lia).
  eexists. split; [reflexivity|].
  constructor;
    cbn [vbq_queue vbq_heap vbq_producer_remaining vbq_consumer_remaining];
    try assumption; try lia.
  rewrite <- Hrest, Hnelem. reflexivity.
Qed.

(** X15: the driver's assertions on [vbq] hold.  From [vbq_queue_init]
    on a storage of any positive size, with any number of bytes to
    produce, whatever the order in which the [vbq] blocks of the two
    threads run, no assertion of the consumer fails, and the consumer is
    behind the producer by exactly [nelem] bytes. *)
Theorem vbq_driver_assertions_hold
    (buf : ptr) (size total : Z) (m : memory) (turns : list turn) :
  0 < size < SizeT.modulus -> 0 <= total < SizeT.modulus ->
  exists st,
    schedule_vbq (vbq_harness_init buf size total m) turns = Some st /\
    0 <= vbq_producer_remaining st <= vbq_consumer_remaining st /\
    vbq_consumer_remaining st <= total /\
    vbq_consumer_remaining st - vbq_producer_remaining st =
      Vbq.nelem (vbq_queue st) /\
    Vbq.contents (vbq_queue st) (vbq_heap st) =
      fill_bytes (vbq_consumer_remaining st) (Vbq.nelem (vbq_queue st)).
Proof.
  intros Hsize Htotal.
  assert (Hgen : forall st0, vbq_harness_inv total st0 ->
            exists st, schedule_vbq st0 turns = Some st /\
                       vbq_harness_inv total st).
  { induction turns as [|t turns IH]; intros st0 Hst0; cbn [schedule_vbq].
    - exists st0. split; [reflexivity | exact Hst0].
    - destruct t; cbn [take_turn_vbq].
      + apply IH. apply producer_vbq_inv; [lia | exact Hst0].
      + destruct (consumer_vbq_inv total st0 ltac:(lia) Hst0)
          as (st1 & -> & Hst1).
        apply IH. exact Hst1. }
  destruct (Hgen _ (vbq_harness_init_inv buf size total m Hsize ltac:(lia)))
    as (st & Hrun & [Hinv Hprod Hcons Hle Hbytes]).
  exists st. split; [exact Hrun|].
  destruct Hinv as [_ _ _ Hn _].
  split; [lia|]. split; [exact Hle|]. split; [lia | exact Hbytes].
Qed.

Lemma vbq_driver_assertions_hold_witness :
  0 < QUEUE_SIZE < SizeT.modulus /\ 0 <= BYTES_TO_PRODUCE < SizeT.modulus /\
  exists st,
    schedule_vbq
      (vbq_harness_init 1000 QUEUE_SIZE BYTES_TO_PRODUCE (fun _ => x00))
      [Consumer; Producer; Producer; Consumer] = Some st /\
    0 <= vbq_producer_remaining st <= vbq_consumer_remaining st /\
    vbq_consumer_remaining st <= BYTES_TO_PRODUCE /\
    vbq_consumer_remaining st - vbq_producer_remaining st =
      Vbq.nelem (vbq_queue st) /\
    Vbq.contents (vbq_queue st) (vbq_heap st) =
      fill_bytes (vbq_consumer_remaining st) (Vbq.nelem (vbq_queue st)).
Proof.
  assert (Hsize : 0 < QUEUE_SIZE < SizeT.modulus) by (split; reflexivity).
  assert (Htotal : 0 <= BYTES_TO_PRODUCE < SizeT.modulus)
    by (split; [discriminate | reflexivity]).
  exact (conj Hsize (conj Htotal
           (vbq_driver_assertions_hold 1000 QUEUE_SIZE BYTES_TO_PRODUCE
              (fun _ => x00) _ Hsize Htotal))).
Defined.

(** * The test driver on [lfq] *)

Lemma producer_lfq_sim (total : Z) (st : harness) :
  harness_inv total st ->
  producer_lfq (lfq_harness_of st) = lfq_harness_of (producer_bq st).
Proof.
  intros [Hwf Hinv _ _ _ _]. unfold producer_lfq, producer_bq.
  cbn [lfq_harness_of lfq_queue lfq_heap lfq_producer_remaining
       lfq_consumer_remaining].
  destruct (0 <? producer_remaining st); [|reflexivity].
  destruct (lfq_of_bq_queries _ Hwf Hinv) as [-> _].
  rewrite bq_pushbuf_eq, bq_push_eq. reflexivity.
Qed.

Lemma consumer_lfq_sim (total : Z) (st : harness) :
  harness_inv total st ->
  consumer_lfq (lfq_harness_of st) = option_map lfq_harness_of (consumer_bq st).
Proof.
  intros [Hwf Hinv _ _ _ _]. unfold consumer_lfq, consumer_bq.
  cbn [lfq_harness_of lfq_queue lfq_heap lfq_producer_remaining
       lfq_consumer_remaining].
  destruct (0 <? consumer_remaining st); [|reflexivity].
  destruct (lfq_of_bq_queries _ Hwf Hinv) as [_ ->].
  rewrite bq_popbuf_eq, bq_pop_eq.
  destruct (check_bytes _ _ _ _); reflexivity.
Qed.

Lemma schedule_lfq_sim (total : Z) (turns : list turn) (st : harness) :
  total < SizeT.modulus -> harness_inv total st ->
  schedule_lfq (lfq_harness_of st) turns =
  option_map lfq_harness_of (schedule st turns).
Proof.
  intros Htotal. revert st.
  induction turns as [|t turns IH]; intros st Hst;
    cbn [schedule_lfq schedule]; [reflexivity|].
  destruct t; cbn [take_turn_lfq take_turn].
  - rewrite (producer_lfq_sim total st Hst).
    apply IH. apply (producer_bq_spec total st Htotal Hst).
  - rewrite (consumer_lfq_sim total st Hst).
    destruct (consumer_bq_spec total st Htotal Hst) as (st1 & -> & Hst1 & _).
    cbn [option_map]. apply IH. exact Hst1.
Qed.

(** X16: on a power-of-two size the driver's run on [lfq] is its run on
    [bq], step for step: the [lfq] blocks of the two threads, in any
    order, lead to the state that matches the one the [bq] blocks lead
    to, and so no assertion of the consumer fails on [lfq] either. *)
Theorem lfq_driver_mirrors_bq
    (buf : ptr) (k total : Z) (m : memory) (turns : list turn) :
  buf <> NULL -> 0 <= k < SizeT.bits -> 0 <= total < SizeT.modulus ->
  schedule_lfq (lfq_harness_init buf (2 ^ k) total m) turns =
    option_map lfq_harness_of
      (schedule (harness_init buf (2 ^ k) total m) turns) /\
  exists st,
    schedule_lfq (lfq_harness_init buf (2 ^ k) total m) turns = Some st /\
    0 <= lfq_producer_remaining st <= lfq_consumer_remaining st /\
    lfq_consumer_remaining st <= total /\
    lfq_consumer_remaining st - lfq_producer_remaining st =
      (Lfq.tail (lfq_queue st) - Lfq.head (lfq_queue st))%sz.
Proof.
  intros Hbuf Hk Htotal.
  pose proof (pow2_pos k ltac:(lia)) as Hpos.
  pose proof (pow2_lt_modulus k Hk) as Hlt.
  assert (Hinit : lfq_harness_init buf (2 ^ k) total m =
                  lfq_harness_of (harness_init buf (2 ^ k) total m)).
  { unfold lfq_harness_init, lfq_harness_of, harness_init.
    cbn [bq_queue heap producer_remaining consumer_remaining].
    destruct (bq_make_power_of_two_gen buf k Hbuf Hk) as [-> Hc].
    unfold Lfq.lfq_queue_init, lfq_of_bq. cbn [head tail data].
    rewrite Hc. reflexivity. }
  pose proof (harness_init_inv buf (2 ^ k) total m Hbuf ltac:(lia) ltac:(lia))
    as Hst0.
  assert (Hsim := schedule_lfq_sim total turns _ ltac:(lia) Hst0).
  rewrite <- Hinit in Hsim. split; [exact Hsim|].
  destruct (schedule_inv total turns _ ltac:(lia) Hst0)
    as (st & Hrun & [Hwf Hinv Hprod Hcons Hle Hbytes]).
  exists (lfq_harness_of st). rewrite Hsim, Hrun.
  split; [reflexivity|].
  cbn [lfq_harness_of lfq_queue lfq_producer_remaining lfq_consumer_remaining
       lfq_of_bq Lfq.head Lfq.tail].
  pose proof (used_range (bq_queue st)) as Hu. fold (used (bq_queue st)).
  split; [lia|]. split; [exact Hle | lia].
Qed.

Lemma lfq_driver_mirrors_bq_witness :
  1000 <> NULL /\ 0 <= 20 < SizeT.bits /\
  0 <= BYTES_TO_PRODUCE < SizeT.modulus /\
  2 ^ 20 = QUEUE_SIZE /\
  exists st,
    schedule_lfq
      (lfq_harness_init 1000 (2 ^ 20) BYTES_TO_PRODUCE (fun _ => x00))
      [Producer; Consumer; Consumer; Producer] = Some st /\
    0 <= lfq_producer_remaining st <= lfq_consumer_remaining st /\
    lfq_consumer_remaining st <= BYTES_TO_PRODUCE /\
    lfq_consumer_remaining st - lfq_producer_remaining st =
      (Lfq.tail (lfq_queue st) - Lfq.head (lfq_queue st))%sz.
Proof.
  assert (Hbuf : 1000 <> NULL) by discriminate.
  assert (Hk : 0 <= 20 < SizeT.bits) by (split; [discriminate | reflexivity]).
  assert (Htotal : 0 <= BYTES_TO_PRODUCE < SizeT.modulus)
    by (split; [discriminate | reflexivity]).
  exact (conj Hbuf (conj Hk (conj Htotal (conj eq_refl
           (proj2 (lfq_driver_mirrors_bq 1000 20 BYTES_TO_PRODUCE
                     (fun _ => x00) _ Hbuf Hk Htotal)))))).
Defined.

(** * The queues [abq] and [bbq] *)

Lemma mod_once (x s : Z) :
  0 <= x < 2 * s ->
  x mod s = if x <? s then x else x - s.
Proof.
  intros Hx. destruct (Z.ltb_spec x s).
  - apply Z.mod_small. lia.
  - symmetry. apply (Z.mod_unique_pos _ _ 1); lia.
Qed.

Ltac abq_cbn :=
  cbn [vbq_of_abq vbq_of_bbq
       Vbq.head Vbq.tail Vbq.nelem Vbq.size Vbq.data
       Abq.head Abq.tail Abq.nelem Abq.size Abq.data
       Bbq.head Bbq.tail Bbq.nelem Bbq.size Bbq.data].

(** The slices [abq] hands out are the contiguous runs of free and of
    held bytes. *)
Lemma abq_lengths (q : Abq.abq) :
  Vbq.vinv (vbq_of_abq q) ->
  Abq.abq_queue_get_push_buf q =
    (Abq.data q + Abq.tail q,
     Z.min (Abq.size q - Abq.nelem q) (Abq.size q - Abq.tail q)) /\
  Abq.abq_queue_get_pop_buf q =
    (Abq.data q + Abq.head q,
     Z.min (Abq.nelem q) (Abq.size q - Abq.head q)).
Proof.
  intros Hinv. pose proof (vinv_cases _ Hinv) as Hcases.
  destruct Hinv as [Hs Hh Ht Hn _]. revert Hcases Hs Hh Ht Hn. abq_cbn.
  intros Hcases Hs Hh Ht Hn.
  unfold Abq.abq_queue_get_push_buf, Abq.abq_queue_get_pop_buf.
  destruct Hcases as [[Hlt Htail] | [Hge Htail]].
  - assert (Hcond : (Abq.head q <? Abq.tail q) || (Abq.nelem q =? 0) = true).
    { destruct (Z.eqb_spec (Abq.nelem q) 0); [apply orb_true_r|].
      apply orb_true_iff. left. apply Z.ltb_lt. lia. }
    rewrite Hcond. sz_small. split; apply f_equal; lia.
  - assert (Hcond : (Abq.head q <? Abq.tail q) || (Abq.nelem q =? 0) = false).
    { apply orb_false_iff. split; [apply Z.ltb_ge | apply Z.eqb_neq]; lia. }
    rewrite Hcond. sz_small. split; apply f_equal; lia.
Qed.

(** A slot of the held bytes is not in the run of free bytes after
    [tail]. *)
Lemma held_slot_outside_free (q : Vbq.vbq) (i len : Z) :
  Vbq.vinv q -> 0 <= i < Vbq.nelem q ->
  0 <= len <= Z.min (Vbq.size q - Vbq.nelem q) (Vbq.size q - Vbq.tail q) ->
  (Vbq.head q + i) mod Vbq.size q < Vbq.tail q \/
  Vbq.tail q + len <= (Vbq.head q + i) mod Vbq.size q.
Proof.
  intros Hinv Hi Hlen. pose proof (vinv_cases _ Hinv) as Hcases.
  destruct Hinv as [Hs Hh Ht Hn _].
  rewrite mod_once by lia.
  destruct (Z.ltb_spec (Vbq.head q + i) (Vbq.size q)); lia.
Qed.

(** Committing [len] bytes written to the push slice appends them. *)
Lemma abq_commit_push_spec
    (q : Abq.abq) (m : memory) (bytes : list byte) (len : Z) :
  Vbq.vinv (vbq_of_abq q) ->
  0 <= len <= snd (Abq.abq_queue_get_push_buf q) ->
  Z.of_nat (length bytes) = len ->
  let q' := Abq.abq_queue_commit_push q len in
  let m' := memcpy m (fst (Abq.abq_queue_get_push_buf q)) bytes in
  Vbq.vinv (vbq_of_abq q') /\
  Abq.data q' = Abq.data q /\ Abq.size q' = Abq.size q /\
  Abq.head q' = Abq.head q /\
  Abq.nelem q' = Abq.nelem q + len /\
  Vbq.contents (vbq_of_abq q') m' = Vbq.contents (vbq_of_abq q) m ++ bytes.
Proof.
  intros Hinv Hlen Hbytes. cbn zeta.
  destruct (abq_lengths q Hinv) as [Hpush _]. rewrite Hpush in *.
  cbn [fst snd] in *.
  pose proof (fun i Hi => held_slot_outside_free _ i len Hinv Hi Hlen)
    as Hout.
  pose proof Hinv as [Hs Hh Ht Hn Hr]. revert Hs Hh Ht Hn Hr Hout. abq_cbn.
  intros Hs Hh Ht Hn Hr Hout.
  unfold Abq.abq_queue_commit_push.
  replace (Abq.tail q + len)%sz with (Abq.tail q + len)
    by (sz_small; reflexivity).
  replace (Abq.nelem q + len)%sz with (Abq.nelem q + len)
    by (sz_small; reflexivity).
  split.
  { constructor; abq_cbn; try lia.
    - apply Z.mod_pos_bound. lia.
    - rewrite Hr, Zplus_mod_idemp_l. f_equal. lia. }
  abq_cbn. repeat (split; [reflexivity|]).
  unfold Vbq.contents. abq_cbn.
  rewrite (slots_frame _ (vbq_of_abq q)) by reflexivity.
  rewrite Z2Nat.inj_add, (slots_app (vbq_of_abq q)) by (abq_cbn; lia).
  abq_cbn. rewrite Z2Nat.id, <- Hr by lia. f_equal.
  - apply slots_ext; abq_cbn; [lia | lia |].
    intros i Hi. apply memcpy_outside.
    specialize (Hout i ltac:(lia)). lia.
  - rewrite (slots_contig (vbq_of_abq q)) by (abq_cbn; lia). abq_cbn.
    rewrite <- Hbytes, Nat2Z.id. apply read_memcpy.
Qed.

(** Committing [len] bytes of the pop slice removes them, oldest
    first. *)
Lemma abq_commit_pop_spec (q : Abq.abq) (m : memory) (len : Z) :
  Vbq.vinv (vbq_of_abq q) ->
  0 <= len <= snd (Abq.abq_queue_get_pop_buf q) ->
  let q' := Abq.abq_queue_commit_pop q len in
  Vbq.vinv (vbq_of_abq q') /\
  Abq.data q' = Abq.data q /\ Abq.size q' = Abq.size q /\
  Abq.tail q' = Abq.tail q /\
  Abq.nelem q' = Abq.nelem q - len /\
  Vbq.contents (vbq_of_abq q) m =
    read_bytes m (fst (Abq.abq_queue_get_pop_buf q)) (Z.to_nat len) ++
    Vbq.contents (vbq_of_abq q') m.
Proof.
  intros Hinv Hlen. cbn zeta.
  destruct (abq_lengths q Hinv) as [_ Hpop]. rewrite Hpop in *.
  cbn [fst snd] in *.
  pose proof Hinv as [Hs Hh Ht Hn Hr]. revert Hs Hh Ht Hn Hr. abq_cbn.
  intros Hs Hh Ht Hn Hr.
  unfold Abq.abq_queue_commit_pop.
  replace (Abq.head q + len)%sz with (Abq.head q + len)
    by (sz_small; reflexivity).
  replace (Abq.nelem q - len)%sz with (Abq.nelem q - len)
    by (sz_small; reflexivity).
  split.
  { constructor; abq_cbn; try lia.
    - apply Z.mod_pos_bound. lia.
    - rewrite Hr, Zplus_mod_idemp_l. f_equal. lia. }
  abq_cbn. repeat (split; [reflexivity|]).
  unfold Vbq.contents. abq_cbn.
  replace (Z.to_nat (Abq.nelem q))
    with (Z.to_nat len + Z.to_nat (Abq.nelem q - len))%nat by lia.
  rewrite (slots_app (vbq_of_abq q)) by (abq_cbn; lia).
  abq_cbn. rewrite Z2Nat.id by lia. f_equal.
  - apply (slots_contig (vbq_of_abq q)); abq_cbn; lia.
  - symmetry. apply slots_frame; reflexivity.
Qed.

(** X17: the slices of [abq] are the contiguous runs.  On a queue that
    satisfies the invariant, [abq_queue_get_push_buf] returns the slot
    at [tail] with the smaller of the free space and the distance to
    the end of storage, [abq_queue_get_pop_buf] the slot at [head] with
    the smaller of the held count and the distance to the end; both
    slices lie inside the storage, the push slice is empty exactly when
    the queue is full and the pop slice exactly when it is empty. *)
Theorem abq_slices_are_contiguous_runs (q : Abq.abq) :
  Vbq.vinv (vbq_of_abq q) ->
  let push := Abq.abq_queue_get_push_buf q in
  let pop := Abq.abq_queue_get_pop_buf q in
  push = (Abq.data q + Abq.tail q,
          Z.min (Abq.size q - Abq.nelem q) (Abq.size q - Abq.tail q)) /\
  pop = (Abq.data q + Abq.head q,
         Z.min (Abq.nelem q) (Abq.size q - Abq.head q)) /\
  (Abq.data q <= fst push /\ fst push + snd push <= Abq.data q + Abq.size q) /\
  (Abq.data q <= fst pop /\ fst pop + snd pop <= Abq.data q + Abq.size q) /\
  (snd push = 0 <-> Abq.nelem q = Abq.size q) /\
  (snd pop = 0 <-> Abq.nelem q = 0).
Proof.
  intros Hinv. cbn zeta.
  destruct (abq_lengths q Hinv) as [-> ->]. cbn [fst snd].
  destruct Hinv as [Hs Hh Ht Hn _]. revert Hs Hh Ht Hn. abq_cbn.
  intros Hs Hh Ht Hn.
  split; [reflexivity|]. split; [reflexivity|]. lia.
Qed.

Lemma abq_slices_are_contiguous_runs_witness :
  let q := {| Abq.data := 1000; Abq.head := 3; Abq.tail := 1; Abq.nelem := 3;
              Abq.size := 5 |} in
  Vbq.vinv (vbq_of_abq q) /\
  Abq.abq_queue_get_push_buf q = (1001, 2) /\
  Abq.abq_queue_get_pop_buf q = (1003, 2).
Proof.
  cbn zeta.
  assert (Hinv : Vbq.vinv (vbq_of_abq
            {| Abq.data := 1000; Abq.head := 3; Abq.tail := 1;
               Abq.nelem := 3; Abq.size := 5 |})).
  { constructor; cbn; try (split; (discriminate || reflexivity));
      reflexivity. }
  pose proof (abq_slices_are_contiguous_runs _ Hinv) as (H1 & H2 & _).
  exact (conj Hinv (conj H1 H2)).
Defined.

(** X18: committing a push appends.  When [len] bytes, at most the
    length [abq_queue_get_push_buf] reported, have been copied to the
    slice it returned, [abq_queue_commit_push] of [len] keeps the
    invariant, leaves [head] alone, adds [len] to [nelem], and the
    queue holds what it held followed by those bytes. *)
Theorem abq_commit_push_appends
    (q : Abq.abq) (m : memory) (bytes : list byte) (len : Z) :
  Vbq.vinv (vbq_of_abq q) ->
  0 <= len <= snd (Abq.abq_queue_get_push_buf q) ->
  Z.of_nat (length bytes) = len ->
  let q' := Abq.abq_queue_commit_push q len in
  let m' := memcpy m (fst (Abq.abq_queue_get_push_buf q)) bytes in
  Vbq.vinv (vbq_of_abq q') /\
  Abq.head q' = Abq.head q /\
  Abq.nelem q' = Abq.nelem q + len /\
  Vbq.contents (vbq_of_abq q') m' = Vbq.contents (vbq_of_abq q) m ++ bytes.
Proof.
  intros Hinv Hlen Hbytes. cbn zeta.
  destruct (abq_commit_push_spec q m bytes len Hinv Hlen Hbytes)
    as (Hinv' & _ & _ & Hhead & Hnelem & Hcont).
  split; [exact Hinv'|]. split; [exact Hhead|].
  split; [exact Hnelem | exact Hcont].
Qed.

Lemma abq_commit_push_appends_witness :
  let q := {| Abq.data := 1000; Abq.head := 3; Abq.tail := 1; Abq.nelem := 3;
              Abq.size := 5 |} in
  let m := memcpy (fun _ => x00) 1000 [x03; x00; x00; x01; x02] in
  let q' := Abq.abq_queue_commit_push q 2 in
  let m' := memcpy m (fst (Abq.abq_queue_get_push_buf q)) [x04; x05] in
  Vbq.vinv (vbq_of_abq q) /\
  Vbq.contents (vbq_of_abq q) m = [x01; x02; x03] /\
  Vbq.contents (vbq_of_abq q') m' = [x01; x02; x03; x04; x05] /\
  Abq.nelem q' = Abq.size q'.
Proof.
  cbn zeta.
  assert (Hinv : Vbq.vinv (vbq_of_abq
            {| Abq.data := 1000; Abq.head := 3; Abq.tail := 1;
               Abq.nelem := 3; Abq.size := 5 |})).
  { constructor; cbn; try (split; (discriminate || reflexivity));
      reflexivity. }
  assert (Hlen : 0 <= 2 <= snd (Abq.abq_queue_get_push_buf
            {| Abq.data := 1000; Abq.head := 3; Abq.tail := 1;
               Abq.nelem := 3; Abq.size := 5 |})).
  { split; [discriminate|]. vm_compute. discriminate. }
  pose proof (abq_commit_push_appends _
                (memcpy (fun _ => x00) 1000 [x03; x00; x00; x01; x02])
                [x04; x05] 2 Hinv Hlen eq_refl) as (_ & _ & _ & Hcont).
  split; [exact Hinv|]. split; [reflexivity|].
  split; [|reflexivity].
  rewrite Hcont. reflexivity.
Defined.

(** X19: committing a pop removes the oldest bytes.  For [len] at most
    the length [abq_queue_get_pop_buf] reported, the queue held the
    [len] bytes of the slice it returned followed by what the queue
    holds after [abq_queue_commit_pop] of [len], which keeps the
    invariant, leaves [tail] alone and takes [len] from [nelem]. *)
Theorem abq_commit_pop_removes_oldest (q : Abq.abq) (m : memory) (len : Z) :
  Vbq.vinv (vbq_of_abq q) ->
  0 <= len <= snd (Abq.abq_queue_get_pop_buf q) ->
  let q' := Abq.abq_queue_commit_pop q len in
  Vbq.vinv (vbq_of_abq q') /\
  Abq.tail q' = Abq.tail q /\
  Abq.nelem q' = Abq.nelem q - len /\
  Vbq.contents (vbq_of_abq q) m =
    read_bytes m (fst (Abq.abq_queue_get_pop_buf q)) (Z.to_nat len) ++
    Vbq.contents (vbq_of_abq q') m.
Proof.
  intros Hinv Hlen. cbn zeta.
  destruct (abq_commit_pop_spec q m len Hinv Hlen)
    as (Hinv' & _ & _ & Htail & Hnelem & Hcont).
  split; [exact Hinv'|]. split; [exact Htail|].
  split; [exact Hnelem | exact Hcont].
Qed.

Lemma abq_commit_pop_removes_oldest_witness :
  let q := {| Abq.data := 1000; Abq.head := 3; Abq.tail := 1; Abq.nelem := 3;
              Abq.size := 5 |} in
  let m := memcpy (fun _ => x00) 1000 [x03; x00; x00; x01; x02] in
  let q' := Abq.abq_queue_commit_pop q 2 in
  Vbq.vinv (vbq_of_abq q) /\
  read_bytes m (fst (Abq.abq_queue_get_pop_buf q)) 2 = [x01; x02] /\
  Abq.head q' = 0 /\
  Vbq.contents (vbq_of_abq q) m = [x01; x02] ++ Vbq.contents (vbq_of_abq q') m.
Proof.
  cbn zeta.
  assert (Hinv : Vbq.vinv (vbq_of_abq
            {| Abq.data := 1000; Abq.head := 3; Abq.tail := 1;
               Abq.nelem := 3; Abq.size := 5 |})).
  { constructor; cbn; try (split; (discriminate || reflexivity));
      reflexivity. }
  assert (Hlen : 0 <= 2 <= snd (Abq.abq_queue_get_pop_buf
            {| Abq.data := 1000; Abq.head := 3; Abq.tail := 1;
               Abq.nelem := 3; Abq.size := 5 |})).
  { split; [discriminate|]. vm_compute. discriminate. }
  pose proof (abq_commit_pop_removes_oldest _
                (memcpy (fun _ => x00) 1000 [x03; x00; x00; x01; x02])
                2 Hinv Hlen) as (_ & _ & _ & Hcont).
  split; [exact Hinv|]. split; [reflexivity|].
  split; [reflexivity | exact Hcont].
Defined.

(** * The test driver on [abq] *)

Lemma abq_init_inv (buffer : ptr) (size : Z) :
  0 < size < SizeT.modulus ->
  Vbq.vinv (vbq_of_abq (Abq.abq_queue_init buffer size)).
Proof.
  intros Hsize.
  constructor; unfold Abq.abq_queue_init; abq_cbn; try lia.
  rewrite Z.add_0_l, Z.mod_0_l by lia. reflexivity.
Qed.

Lemma abq_driver_init_inv (buf : ptr) (size total : Z) (m : memory) :
  0 < size < SizeT.modulus -> 0 <= total ->
  driver_inv vbq_of_abq total (abq_driver_init buf size total m).
Proof.
  intros Hsize Htotal. constructor;
    cbn [abq_driver_init dqueue dheap dproducer_remaining
         dconsumer_remaining].
  - apply abq_init_inv. exact Hsize.
  - lia.
  - cbn. lia.
  - lia.
  - reflexivity.
Qed.

Lemma producer_abq_inv (total : Z) (st : driver Abq.abq) :
  total < SizeT.modulus -> driver_inv vbq_of_abq total st ->
  driver_inv vbq_of_abq total (producer_abq st).
Proof.
  intros Htotal [Hinv Hprod Hcons Hle Hbytes]. unfold producer_abq.
  destruct (Z.ltb_spec 0 (dproducer_remaining st)) as [Hpos | Hzero];
    [|constructor; assumption].
  destruct (Abq.abq_queue_get_push_buf (dqueue st)) as [addr pushable] eqn:Hpush.
  rewrite !MIN_min.
  set (count0 := Z.min MAX_BYTES_PER_OP (dproducer_remaining st)).
  set (count := Z.min count0 pushable).
  assert (Hpushable : 0 <= pushable).
  { destruct (abq_lengths _ Hinv) as [Hp _]. rewrite Hpush in Hp.
    injection Hp as _ ->. destruct Hinv as [Hs Hh Ht Hn _].
    revert Hs Hh Ht Hn. abq_cbn. lia. }
  assert (Hc : 0 <= count <= count0 /\ count0 <= dproducer_remaining st)
    by (unfold count, count0, MAX_BYTES_PER_OP; lia).
  destruct (abq_commit_push_spec (dqueue st) (dheap st)
              (firstn (Z.to_nat count)
                      (fill_bytes (dproducer_remaining st) count0))
              count Hinv)
    as (Hinv' & _ & _ & _ & Hnelem & Hcont).
  { rewrite Hpush. cbn [snd]. lia. }
  { rewrite firstn_length_exact by (rewrite fill_bytes_length; lia). lia. }
  rewrite Hpush in Hcont. cbn [fst] in Hcont.
  pose proof Hinv as [_ _ _ Hn _]. revert Hn Hnelem Hcons Hbytes Hcont.
  abq_cbn. intros Hn Hnelem Hcons Hbytes Hcont.
  assert (Hsub : (dproducer_remaining st - count)%sz =
                 dproducer_remaining st - count)
    by (apply wrap_small; unfold SizeT.in_range; lia).
  constructor;
    cbn [dqueue dheap dproducer_remaining dconsumer_remaining];
    try assumption; abq_cbn; try lia.
  rewrite Hcont, Hbytes, Hnelem, fill_bytes_prefix, fill_bytes_app by lia.
  do 2 f_equal. symmetry. unfold SizeT.sub.
  replace (dconsumer_remaining st - Abq.nelem (dqueue st))
    with (dproducer_remaining st) by lia.
  apply wrap_small. unfold SizeT.in_range. lia.
Qed.

Lemma consumer_abq_inv (total : Z) (st : driver Abq.abq) :
  total < SizeT.modulus -> driver_inv vbq_of_abq total st ->
  exists st', consumer_abq st = Some st' /\ driver_inv vbq_of_abq total st'.
Proof.
  intros Htotal [Hinv Hprod Hcons Hle Hbytes]. unfold consumer_abq.
  destruct (Z.ltb_spec 0 (dconsumer_remaining st)) as [Hpos | Hzero];
    [|exists st; split; [reflexivity | constructor; assumption]].
  destruct (Abq.abq_queue_get_pop_buf (dqueue st)) as [addr cnt] eqn:Hpop.
  rewrite !MIN_min.
  set (count := Z.min (Z.min cnt (dconsumer_remaining st)) MAX_BYTES_PER_OP).
  assert (Hcnt : 0 <= cnt <= Abq.nelem (dqueue st)).
  { destruct (abq_lengths _ Hinv) as [_ Hp]. rewrite Hpop in Hp.
    injection Hp as _ ->. destruct Hinv as [Hs Hh Ht Hn _].
    revert Hs Hh Ht Hn. abq_cbn. lia. }
  assert (Hc : 0 <= count <= cnt /\ count <= dconsumer_remaining st)
    by (unfold count, MAX_BYTES_PER_OP; lia).
  destruct (abq_commit_pop_spec (dqueue st) (dheap st) count Hinv)
    as (Hinv' & _ & _ & _ & Hnelem & Hcont).
  { rewrite Hpop. cbn [snd]. lia. }
  rewrite Hpop in Hcont. cbn [fst] in Hcont.
  pose proof Hinv as [_ _ _ Hn _]. revert Hn Hnelem Hcons Hbytes Hcont.
  abq_cbn. intros Hn Hnelem Hcons Hbytes Hcont.
  rewrite Hbytes in Hcont.
  replace (Abq.nelem (dqueue st))
    with (count + (Abq.nelem (dqueue st) - count)) in Hcont at 1 by lia.
  rewrite fill_bytes_app in Hcont by lia.
  apply app_same_length in Hcont;
    [|rewrite fill_bytes_length, read_bytes_length; reflexivity].
  destruct Hcont as [Hout Hrest].
  rewrite (check_bytes_ok _ _ _ (dconsumer_remaining st));
    [| unfold SizeT.in_range; lia
     | rewrite Z2Nat.id by lia; symmetry; exact Hout].
  rewrite Z2Nat.id by lia.
  assert (Hsub : (dconsumer_remaining st - count)%sz =
                 dconsumer_remaining st - count)
    by (apply wrap_small; unfold SizeT.in_range; lia).
  eexists. split; [reflexivity|].
  constructor;
    cbn [dqueue dheap dproducer_remaining dconsumer_remaining];
    try assumption; abq_cbn; try lia.
  rewrite <- Hrest, Hnelem. reflexivity.
Qed.

(** X20: the driver's assertions on [abq] hold.  From [abq_queue_init]
    on a storage of any positive size, with any number of bytes to
    produce, whatever the order in which the [abq] blocks of the two
    threads run, no assertion of the consumer fails, the consumer is
    behind the producer by exactly [nelem] bytes, and the queue holds
    the countdown from the consumer's counter. *)
Theorem abq_driver_assertions_hold
    (buf : ptr) (size total : Z) (m : memory) (turns : list turn) :
  0 < size < SizeT.modulus -> 0 <= total < SizeT.modulus ->
  exists st,
    schedule_abq (abq_driver_init buf size total m) turns = Some st /\
    0 <= dproducer_remaining st <= dconsumer_remaining st /\
    dconsumer_remaining st <= total /\
    dconsumer_remaining st - dproducer_remaining st =
      Abq.nelem (dqueue st) /\
    Vbq.contents (vbq_of_abq (dqueue st)) (dheap st) =
      fill_bytes (dconsumer_remaining st) (Abq.nelem (dqueue st)).
Proof.
  intros Hsize Htotal.
  assert (Hgen : forall st0, driver_inv vbq_of_abq total st0 ->
            exists st, schedule_abq st0 turns = Some st /\
                       driver_inv vbq_of_abq total st).
  { induction turns as [|t turns IH]; intros st0 Hst0; cbn [schedule_abq].
    - exists st0. split; [reflexivity | exact Hst0].
    - destruct t; cbn [take_turn_abq].
      + apply IH. apply producer_abq_inv; [lia | exact Hst0].
      + destruct (consumer_abq_inv total st0 ltac:(lia) Hst0)
          as (st1 & -> & Hst1).
        apply IH. exact Hst1. }
  destruct (Hgen _ (abq_driver_init_inv buf size total m Hsize ltac:(lia)))
    as (st & Hrun & [Hinv Hprod Hcons Hle Hbytes]).
  exists st. split; [exact Hrun|].
  destruct Hinv as [_ _ _ Hn _]. revert Hn Hcons Hbytes. abq_cbn.
  intros Hn Hcons Hbytes.
  split; [lia|]. split; [exact Hle|]. split; [lia | exact Hbytes].
Qed.

Lemma abq_driver_assertions_hold_witness :
  0 < QUEUE_SIZE < SizeT.modulus /\ 0 <= BYTES_TO_PRODUCE < SizeT.modulus /\
  exists st,
    schedule_abq
      (abq_driver_init 1000 QUEUE_SIZE BYTES_TO_PRODUCE (fun _ => x00))
      [Consumer; Producer; Consumer; Producer; Consumer] = Some st /\
    0 <= dproducer_remaining st <= dconsumer_remaining st /\
    dconsumer_remaining st <= BYTES_TO_PRODUCE /\
    dconsumer_remaining st - dproducer_remaining st =
      Abq.nelem (dqueue st) /\
    Vbq.contents (vbq_of_abq (dqueue st)) (dheap st) =
      fill_bytes (dconsumer_remaining st) (Abq.nelem (dqueue st)).
Proof.
  assert (Hsize : 0 < QUEUE_SIZE < SizeT.modulus)
    by (split; reflexivity).
  assert (Htotal : 0 <= BYTES_TO_PRODUCE < SizeT.modulus)
    by (split; [discriminate | reflexivity]).
  exact (conj Hsize (conj Htotal
           (abq_driver_assertions_hold 1000 QUEUE_SIZE BYTES_TO_PRODUCE
              (fun _ => x00) _ Hsize Htotal))).
Defined.

(** * The queue [bbq] *)

Lemma fill_bytes_one (r : Z) : fill_bytes r 1 = [uint8 r].
Proof.
  unfold fill_bytes. change (Z.to_nat 1) with 1%nat.
  cbn [seq map Z.of_nat].
  unfold SizeT.sub. rewrite Z.sub_0_r, uint8_wrap. reflexivity.
Qed.

Lemma bbq_push_spec (q : Bbq.bbq) (m : memory) (b : byte) :
  Vbq.vinv (vbq_of_bbq q) -> Bbq.nelem q < Bbq.size q ->
  exists q' m',
    Bbq.bbq_queue_push q m b = (true, q', m') /\
    Vbq.vinv (vbq_of_bbq q') /\
    Bbq.data q' = Bbq.data q /\ Bbq.size q' = Bbq.size q /\
    Bbq.head q' = Bbq.head q /\
    Bbq.nelem q' = Bbq.nelem q + 1 /\
    Vbq.contents (vbq_of_bbq q') m' = Vbq.contents (vbq_of_bbq q) m ++ [b].
Proof.
  intros Hinv Hlt.
  assert (Hout : forall i, 0 <= i < Bbq.nelem q ->
            (Bbq.head q + i) mod Bbq.size q <> Bbq.tail q).
  { intros i Hi.
    pose proof (held_slot_outside_free _ i 1 Hinv) as H.
    destruct Hinv as [Hs Hh Ht Hn _]. revert H Hs Hh Ht Hn. abq_cbn.
    intros H Hs Hh Ht Hn. specialize (H Hi ltac:(lia)). lia. }
  pose proof Hinv as [Hs Hh Ht Hn Hr]. revert Hs Hh Ht Hn Hr. abq_cbn.
  intros Hs Hh Ht Hn Hr.
  unfold Bbq.bbq_queue_push. rewrite (proj2 (Z.ltb_lt _ _) Hlt).
  replace (Bbq.tail q + 1)%sz with (Bbq.tail q + 1)
    by (sz_small; reflexivity).
  replace (Bbq.nelem q + 1)%sz with (Bbq.nelem q + 1)
    by (sz_small; reflexivity).
  eexists. eexists. split; [reflexivity|].
  split.
  { constructor; abq_cbn; try lia.
    - apply Z.mod_pos_bound. lia.
    - rewrite Hr, Zplus_mod_idemp_l. f_equal. lia. }
  abq_cbn. repeat (split; [reflexivity|]).
  unfold Vbq.contents. abq_cbn.
  rewrite (slots_frame _ (vbq_of_bbq q)) by reflexivity.
  rewrite Z2Nat.inj_add, (slots_app (vbq_of_bbq q)) by (abq_cbn; lia).
  abq_cbn. rewrite Z2Nat.id, <- Hr by lia. f_equal.
  - apply slots_ext; abq_cbn; [lia | lia |].
    intros i Hi. unfold store_byte.
    destruct (Z.eqb_spec (Bbq.data q + (Bbq.head q + i) mod Bbq.size q)
                         (Bbq.data q + Bbq.tail q)) as [He | _];
      [|reflexivity].
    exfalso. apply (Hout i); lia.
  - change (Z.to_nat 1) with 1%nat. cbn [Vbq.slots]. abq_cbn.
    unfold store_byte. rewrite Z.eqb_refl. reflexivity.
Qed.

Lemma bbq_push_full (q : Bbq.bbq) (m : memory) (b : byte) :
  Bbq.size q <= Bbq.nelem q -> Bbq.bbq_queue_push q m b = (false, q, m).
Proof.
  intros H. unfold Bbq.bbq_queue_push.
  rewrite (proj2 (Z.ltb_ge _ _) H). reflexivity.
Qed.

Lemma bbq_pop_spec (q : Bbq.bbq) (m : memory) :
  Vbq.vinv (vbq_of_bbq q) -> 0 < Bbq.nelem q ->
  exists b q',
    Bbq.bbq_queue_pop q m = (Some b, q') /\
    Vbq.vinv (vbq_of_bbq q') /\
    Bbq.data q' = Bbq.data q /\ Bbq.size q' = Bbq.size q /\
    Bbq.tail q' = Bbq.tail q /\
    Bbq.nelem q' = Bbq.nelem q - 1 /\
    Vbq.contents (vbq_of_bbq q) m = b :: Vbq.contents (vbq_of_bbq q') m.
Proof.
  intros Hinv Hpos.
  pose proof Hinv as [Hs Hh Ht Hn Hr]. revert Hs Hh Ht Hn Hr. abq_cbn.
  intros Hs Hh Ht Hn Hr.
  unfold Bbq.bbq_queue_pop. rewrite (proj2 (Z.ltb_lt _ _) Hpos).
  replace (Bbq.head q + 1)%sz with (Bbq.head q + 1)
    by (sz_small; reflexivity).
  replace (Bbq.nelem q - 1)%sz with (Bbq.nelem q - 1)
    by (sz_small; reflexivity).
  eexists. eexists. split; [reflexivity|].
  split.
  { constructor; abq_cbn; try lia.
    - apply Z.mod_pos_bound. lia.
    - rewrite Hr, Zplus_mod_idemp_l. f_equal. lia. }
  abq_cbn. repeat (split; [reflexivity|]).
  unfold Vbq.contents. abq_cbn.
  replace (Z.to_nat (Bbq.nelem q)) with (S (Z.to_nat (Bbq.nelem q - 1)))
    by lia.
  cbn [Vbq.slots]. abq_cbn. f_equal.
  symmetry. apply slots_frame; reflexivity.
Qed.

Lemma bbq_pop_empty (q : Bbq.bbq) (m : memory) :
  Bbq.nelem q <= 0 -> Bbq.bbq_queue_pop q m = (None, q).
Proof.
  intros H. unfold Bbq.bbq_queue_pop.
  rewrite (proj2 (Z.ltb_ge _ _) H). reflexivity.
Qed.

Lemma bbq_init_inv (buffer : ptr) (size : Z) :
  0 < size < SizeT.modulus ->
  Vbq.vinv (vbq_of_bbq (Bbq.bbq_queue_init buffer size)).
Proof.
  intros Hsize.
  constructor; unfold Bbq.bbq_queue_init; abq_cbn; try lia.
  rewrite Z.add_0_l, Z.mod_0_l by lia. reflexivity.
Qed.

Lemma bbq_apply_op_inv (t : Bbq.trace) (o : Bbq.op) :
  Vbq.vinv (vbq_of_bbq (Bbq.tq t)) ->
  Bbq.accepted t =
    Bbq.returned t ++ Vbq.contents (vbq_of_bbq (Bbq.tq t)) (Bbq.tm t) ->
  let t' := Bbq.apply_op t o in
  Vbq.vinv (vbq_of_bbq (Bbq.tq t')) /\
  Bbq.size (Bbq.tq t') = Bbq.size (Bbq.tq t) /\
  Bbq.accepted t' =
    Bbq.returned t' ++ Vbq.contents (vbq_of_bbq (Bbq.tq t')) (Bbq.tm t').
Proof.
  intros Hinv Hacc. cbn zeta.
  pose proof Hinv as [_ _ _ Hn _]. revert Hn. abq_cbn. intros Hn.
  destruct o as [b|]; cbn [Bbq.apply_op].
  - destruct (Z_lt_ge_dec (Bbq.nelem (Bbq.tq t)) (Bbq.size (Bbq.tq t)))
      as [Hlt | Hge].
    + destruct (bbq_push_spec _ (Bbq.tm t) b Hinv Hlt)
        as (q' & m' & -> & Hinv' & _ & Hsz & _ & _ & Hcont).
      cbn [Bbq.tq Bbq.tm Bbq.accepted Bbq.returned].
      split; [exact Hinv'|]. split; [exact Hsz|].
      rewrite Hcont, Hacc, app_assoc. reflexivity.
    + rewrite bbq_push_full by lia.
      cbn [Bbq.tq Bbq.tm Bbq.accepted Bbq.returned].
      split; [exact Hinv|]. split; [reflexivity | exact Hacc].
  - destruct (Z_lt_ge_dec 0 (Bbq.nelem (Bbq.tq t))) as [Hpos | Hzero].
    + destruct (bbq_pop_spec _ (Bbq.tm t) Hinv Hpos)
        as (b & q' & -> & Hinv' & _ & Hsz & _ & _ & Hcont).
      cbn [Bbq.tq Bbq.tm Bbq.accepted Bbq.returned].
      split; [exact Hinv'|]. split; [exact Hsz|].
      rewrite Hacc, Hcont, <- app_assoc. reflexivity.
    + rewrite bbq_pop_empty by lia.
      cbn [Bbq.tq Bbq.tm Bbq.accepted Bbq.returned].
      split; [exact Hinv|]. split; [reflexivity | exact Hacc].
Qed.

Lemma bbq_apply_ops_inv (ops : list Bbq.op) (t : Bbq.trace) :
  Vbq.vinv (vbq_of_bbq (Bbq.tq t)) ->
  Bbq.accepted t =
    Bbq.returned t ++ Vbq.contents (vbq_of_bbq (Bbq.tq t)) (Bbq.tm t) ->
  let t' := Bbq.apply_ops t ops in
  Vbq.vinv (vbq_of_bbq (Bbq.tq t')) /\
  Bbq.size (Bbq.tq t') = Bbq.size (Bbq.tq t) /\
  Bbq.accepted t' =
    Bbq.returned t' ++ Vbq.contents (vbq_of_bbq (Bbq.tq t')) (Bbq.tm t').
Proof.
  cbn zeta. revert t.
  induction ops as [|o ops IH]; intros t Hinv Hacc.
  - split; [exact Hinv|]. split; [reflexivity | exact Hacc].
  - unfold Bbq.apply_ops. cbn [fold_left].
    destruct (bbq_apply_op_inv t o Hinv Hacc) as (Hinv1 & Hsz1 & Hacc1).
    destruct (IH _ Hinv1 Hacc1) as (Hinv2 & Hsz2 & Hacc2).
    split; [exact Hinv2|]. split; [|exact Hacc2].
    unfold Bbq.apply_ops in Hsz2. rewrite Hsz2. exact Hsz1.
Qed.

(** X21: [bbq] is first in, first out.  From [bbq_queue_init] on a
    storage of any positive size, after any sequence of pushes and pops
    the bytes whose push returned [true] are, in order, the bytes the
    pops returned followed by the bytes the queue still holds, of which
    there are [nelem], never more than [size]; a push is then refused
    exactly when [nelem] is [size], and a pop exactly when it is 0. *)
Theorem bbq_is_fifo
    (buffer : ptr) (size : Z) (m : memory) (ops : list Bbq.op) (b : byte) :
  0 < size < SizeT.modulus ->
  let t := Bbq.apply_ops (Bbq.start buffer size m) ops in
  let held := Vbq.contents (vbq_of_bbq (Bbq.tq t)) (Bbq.tm t) in
  Bbq.accepted t = Bbq.returned t ++ held /\
  Z.of_nat (length held) = Bbq.nelem (Bbq.tq t) /\
  Bbq.nelem (Bbq.tq t) <= size /\
  (fst (fst (Bbq.bbq_queue_push (Bbq.tq t) (Bbq.tm t) b)) = false <->
   Bbq.nelem (Bbq.tq t) = size) /\
  (fst (Bbq.bbq_queue_pop (Bbq.tq t) (Bbq.tm t)) = None <->
   Bbq.nelem (Bbq.tq t) = 0).
Proof.
  intros Hsize. cbn zeta.
  destruct (bbq_apply_ops_inv ops (Bbq.start buffer size m)
              (bbq_init_inv buffer size Hsize) eq_refl)
    as (Hinv & Hsz & Hacc).
  cbn [Bbq.start Bbq.tq Bbq.bbq_queue_init Bbq.size] in Hsz.
  set (t := Bbq.apply_ops (Bbq.start buffer size m) ops) in *.
  pose proof Hinv as [_ _ _ Hn _]. revert Hn. abq_cbn. intros Hn.
  split; [exact Hacc|]. split.
  { unfold Vbq.contents. rewrite slots_length. abq_cbn. lia. }
  split; [lia|]. split.
  - unfold Bbq.bbq_queue_push.
    destruct (Z.ltb_spec (Bbq.nelem (Bbq.tq t)) (Bbq.size (Bbq.tq t)));
      cbn [fst]; split; intros; (discriminate || lia || reflexivity).
  - unfold Bbq.bbq_queue_pop.
    destruct (Z.ltb_spec 0 (Bbq.nelem (Bbq.tq t)));
      cbn [fst]; split; intros; (discriminate || lia || reflexivity).
Qed.

Lemma bbq_is_fifo_witness :
  let t := Bbq.apply_ops (Bbq.start 1000 2 (fun _ => x00))
             [Bbq.PopByte; Bbq.PushByte x01; Bbq.PushByte x02;
              Bbq.PushByte x03; Bbq.PopByte; Bbq.PushByte x04] in
  0 < 2 < SizeT.modulus /\
  Bbq.accepted t = [x01; x02; x04] /\
  Bbq.returned t = [x01] /\
  Bbq.accepted t =
    Bbq.returned t ++ Vbq.contents (vbq_of_bbq (Bbq.tq t)) (Bbq.tm t).
Proof.
  cbn zeta.
  assert (Hsize : 0 < 2 < SizeT.modulus) by (split; reflexivity).
  pose proof (bbq_is_fifo 1000 2 (fun _ => x00)
                [Bbq.PopByte; Bbq.PushByte x01; Bbq.PushByte x02;
                 Bbq.PushByte x03; Bbq.PopByte; Bbq.PushByte x04]
                x00 Hsize) as (H1 & _).
  split; [exact Hsize|]. split; [reflexivity|].
  split; [reflexivity | exact H1].
Defined.

(** * The test driver on [bbq] *)

Lemma bbq_push_loop_spec (fuel : nat) (target c : Z) :
  forall (q : Bbq.bbq) (m : memory) (r : Z),
  Vbq.vinv (vbq_of_bbq q) ->
  0 <= target <= r -> c = r + Bbq.nelem q -> c < SizeT.modulus ->
  (Z.to_nat (r - target) < fuel)%nat ->
  Vbq.contents (vbq_of_bbq q) m = fill_bytes c (Bbq.nelem q) ->
  exists q' m' r',
    bbq_push_loop fuel target q m r = Finished (q', m', r') /\
    Vbq.vinv (vbq_of_bbq q') /\ target <= r' <= r /\
    c = r' + Bbq.nelem q' /\
    Vbq.contents (vbq_of_bbq q') m' = fill_bytes c (Bbq.nelem q').
Proof.
  induction fuel as [|fuel IH]; intros q m r Hinv Hr Hc Hmod Hfuel Hcont;
    [lia|].
  cbn [bbq_push_loop].
  pose proof Hinv as [_ _ _ Hn _]. revert Hn. abq_cbn. intros Hn.
  destruct (Z.ltb_spec target r) as [Hgt | Hle].
  - destruct (Z_lt_ge_dec (Bbq.nelem q) (Bbq.size q)) as [Hlt | Hge].
    + destruct (bbq_push_spec q m (uint8 r) Hinv Hlt)
        as (q1 & m1 & -> & Hinv1 & _ & _ & _ & Hnelem1 & Hcont1).
      replace (r - 1)%sz with (r - 1) by (sz_small; reflexivity).
      destruct (IH q1 m1 (r - 1) Hinv1 ltac:(lia) ltac:(lia) Hmod ltac:(lia))
        as (q' & m' & r' & Hrun & Hinv' & Hr' & Hc' & Hcont').
      { rewrite Hcont1, Hcont, Hnelem1, fill_bytes_app by lia.
        f_equal. rewrite fill_bytes_one. f_equal.
        unfold SizeT.sub. rewrite uint8_wrap. f_equal. lia. }
      exists q', m', r'. split; [exact Hrun|]. split; [exact Hinv'|].
      split; [lia|]. split; [exact Hc' | exact Hcont'].
    + rewrite bbq_push_full by lia.
      exists q, m, r. split; [reflexivity|]. split; [exact Hinv|].
      split; [lia|]. split; [exact Hc | exact Hcont].
  - exists q, m, r. split; [reflexivity|]. split; [exact Hinv|].
    split; [lia|]. split; [exact Hc | exact Hcont].
Qed.

Lemma bbq_pop_loop_spec (fuel : nat) (target p : Z) (m : memory) :
  forall (q : Bbq.bbq) (r : Z),
  Vbq.vinv (vbq_of_bbq q) ->
  0 <= target <= r -> r = p + Bbq.nelem q -> r < SizeT.modulus ->
  (Z.to_nat (r - target) < fuel)%nat ->
  Vbq.contents (vbq_of_bbq q) m = fill_bytes r (Bbq.nelem q) ->
  exists q' r',
    bbq_pop_loop fuel target q m r = Finished (q', r') /\
    Vbq.vinv (vbq_of_bbq q') /\ target <= r' <= r /\
    r' = p + Bbq.nelem q' /\
    Vbq.contents (vbq_of_bbq q') m = fill_bytes r' (Bbq.nelem q').
Proof.
  induction fuel as [|fuel IH]; intros q r Hinv Hr Hp Hmod Hfuel Hcont;
    [lia|].
  cbn [bbq_pop_loop].
  pose proof Hinv as [_ _ _ Hn _]. revert Hn. abq_cbn. intros Hn.
  destruct (Z.ltb_spec target r) as [Hgt | Hle].
  - destruct (Z_lt_ge_dec 0 (Bbq.nelem q)) as [Hpos | Hzero].
    + destruct (bbq_pop_spec q m Hinv Hpos)
        as (b & q1 & -> & Hinv1 & _ & _ & _ & Hnelem1 & Hcont1).
      rewrite Hcont in Hcont1.
      replace (Bbq.nelem q) with (1 + (Bbq.nelem q - 1)) in Hcont1 at 1
        by lia.
      rewrite fill_bytes_app, fill_bytes_one in Hcont1 by lia.
      cbn [app] in Hcont1. injection Hcont1 as Hb Hrest.
      rewrite <- Hb, (Byte.byte_dec_lb eq_refl).
      replace (r - 1)%sz with (r - 1) in * by (sz_small; reflexivity).
      destruct (IH q1 (r - 1) Hinv1 ltac:(lia) ltac:(lia) ltac:(lia)
                   ltac:(lia))
        as (q' & r' & Hrun & Hinv' & Hr' & Hp' & Hcont').
      { rewrite <- Hrest, Hnelem1. reflexivity. }
      exists q', r'. split; [exact Hrun|]. split; [exact Hinv'|].
      split; [lia|]. split; [exact Hp' | exact Hcont'].
    + rewrite bbq_pop_empty by lia.
      exists q, r. split; [reflexivity|]. split; [exact Hinv|].
      split; [lia|]. split; [exact Hp | exact Hcont].
  - exists q, r. split; [reflexivity|]. split; [exact Hinv|].
    split; [lia|]. split; [exact Hp | exact Hcont].
Qed.

Lemma bbq_driver_init_inv (buf : ptr) (size total : Z) (m : memory) :
  0 < size < SizeT.modulus -> 0 <= total ->
  driver_inv vbq_of_bbq total (bbq_driver_init buf size total m).
Proof.
  intros Hsize Htotal. constructor;
    cbn [bbq_driver_init dqueue dheap dproducer_remaining
         dconsumer_remaining].
  - apply bbq_init_inv. exact Hsize.
  - lia.
  - cbn. lia.
  - lia.
  - reflexivity.
Qed.

Lemma bbq_target (r : Z) :
  0 < r < SizeT.modulus ->
  let target := (r - MIN r MAX_BYTES_PER_OP)%sz in
  0 <= target <= r /\ r - target <= MAX_BYTES_PER_OP.
Proof.
  intros Hr. cbn zeta. rewrite MIN_min.
  replace (r - Z.min r MAX_BYTES_PER_OP)%sz with (r - Z.min r MAX_BYTES_PER_OP)
    by (unfold MAX_BYTES_PER_OP; sz_small; reflexivity).
  unfold MAX_BYTES_PER_OP. lia.
Qed.

Lemma producer_bbq_inv (fuel : nat) (total : Z) (st : driver Bbq.bbq) :
  (Z.to_nat MAX_BYTES_PER_OP < fuel)%nat ->
  total < SizeT.modulus -> driver_inv vbq_of_bbq total st ->
  exists st', producer_bbq fuel st = Finished st' /\
              driver_inv vbq_of_bbq total st'.
Proof.
  intros Hfuel Htotal [Hinv Hprod Hcons Hle Hbytes]. unfold producer_bbq.
  destruct (Z.ltb_spec 0 (dproducer_remaining st)) as [Hpos | Hzero];
    [|exists st; split; [reflexivity | constructor; assumption]].
  pose proof (bbq_target (dproducer_remaining st) ltac:(lia)) as Ht.
  cbn zeta in Ht.
  set (target := (dproducer_remaining st -
                  MIN (dproducer_remaining st) MAX_BYTES_PER_OP)%sz) in *.
  revert Hcons Hbytes. abq_cbn. intros Hcons Hbytes.
  destruct (bbq_push_loop_spec fuel target (dconsumer_remaining st)
              (dqueue st) (dheap st) (dproducer_remaining st) Hinv)
    as (q' & m' & r' & -> & Hinv' & Hr' & Hc' & Hcont');
    [lia | lia | lia | lia | exact Hbytes |].
  eexists. split; [reflexivity|].
  constructor;
    cbn [dqueue dheap dproducer_remaining dconsumer_remaining];
    try assumption; abq_cbn; lia.
Qed.

Lemma consumer_bbq_inv (fuel : nat) (total : Z) (st : driver Bbq.bbq) :
  (Z.to_nat MAX_BYTES_PER_OP < fuel)%nat ->
  total < SizeT.modulus -> driver_inv vbq_of_bbq total st ->
  exists st', consumer_bbq fuel st = Finished st' /\
              driver_inv vbq_of_bbq total st'.
Proof.
  intros Hfuel Htotal [Hinv Hprod Hcons Hle Hbytes]. unfold consumer_bbq.
  destruct (Z.ltb_spec 0 (dconsumer_remaining st)) as [Hpos | Hzero];
    [|exists st; split; [reflexivity | constructor; assumption]].
  pose proof (bbq_target (dconsumer_remaining st) ltac:(lia)) as Ht.
  cbn zeta in Ht.
  set (target := (dconsumer_remaining st -
                  MIN (dconsumer_remaining st) MAX_BYTES_PER_OP)%sz) in *.
  revert Hcons Hbytes. abq_cbn. intros Hcons Hbytes.
  destruct (bbq_pop_loop_spec fuel target (dproducer_remaining st)
              (dheap st) (dqueue st) (dconsumer_remaining st) Hinv)
    as (q' & r' & -> & Hinv' & Hr' & Hp' & Hcont');
    [lia | lia | lia | lia | exact Hbytes |].
  eexists. split; [reflexivity|].
  constructor;
    cbn [dqueue dheap dproducer_remaining dconsumer_remaining];
    try assumption; abq_cbn; lia.
Qed.

(** X22: the driver's loops on [bbq] end and its assertions hold.  From
    [bbq_queue_init] on a storage of any positive size, with any number
    of bytes to produce, whatever the order in which the [bbq] blocks of
    the two threads run, each push loop and each pop loop ends within
    [MAX_BYTES_PER_OP] iterations, no assertion of the consumer fails,
    and the consumer is behind the producer by exactly [nelem] bytes. *)
Theorem bbq_driver_assertions_hold
    (fuel : nat) (buf : ptr) (size total : Z) (m : memory)
    (turns : list turn) :
  (Z.to_nat MAX_BYTES_PER_OP < fuel)%nat ->
  0 < size < SizeT.modulus -> 0 <= total < SizeT.modulus ->
  exists st,
    schedule_bbq fuel (bbq_driver_init buf size total m) turns =
      Finished st /\
    0 <= dproducer_remaining st <= dconsumer_remaining st /\
    dconsumer_remaining st <= total /\
    dconsumer_remaining st - dproducer_remaining st =
      Bbq.nelem (dqueue st) /\
    Vbq.contents (vbq_of_bbq (dqueue st)) (dheap st) =
      fill_bytes (dconsumer_remaining st) (Bbq.nelem (dqueue st)).
Proof.
  intros Hfuel Hsize Htotal.
  assert (Hgen : forall st0, driver_inv vbq_of_bbq total st0 ->
            exists st, schedule_bbq fuel st0 turns = Finished st /\
                       driver_inv vbq_of_bbq total st).
  { induction turns as [|t turns IH]; intros st0 Hst0; cbn [schedule_bbq].
    - exists st0. split; [reflexivity | exact Hst0].
    - destruct t; cbn [take_turn_bbq].
      + destruct (producer_bbq_inv fuel total st0 Hfuel ltac:(lia) Hst0)
          as (st1 & -> & Hst1).
        apply IH. exact Hst1.
      + destruct (consumer_bbq_inv fuel total st0 Hfuel ltac:(lia) Hst0)
          as (st1 & -> & Hst1).
        apply IH. exact Hst1. }
  destruct (Hgen _ (bbq_driver_init_inv buf size total m Hsize ltac:(lia)))
    as (st & Hrun & [Hinv Hprod Hcons Hle Hbytes]).
  exists st. split; [exact Hrun|].
  destruct Hinv as [_ _ _ Hn _]. revert Hn Hcons Hbytes. abq_cbn.
  intros Hn Hcons Hbytes.
  split; [lia|]. split; [exact Hle|]. split; [lia | exact Hbytes].
Qed.

Lemma bbq_driver_assertions_hold_witness :
  (Z.to_nat MAX_BYTES_PER_OP < 1025)%nat /\
  0 < QUEUE_SIZE < SizeT.modulus /\ 0 <= BYTES_TO_PRODUCE < SizeT.modulus /\
  exists st,
    schedule_bbq 1025
      (bbq_driver_init 1000 QUEUE_SIZE BYTES_TO_PRODUCE (fun _ => x00))
      [Producer; Consumer; Consumer; Producer] = Finished st /\
    0 <= dproducer_remaining st <= dconsumer_remaining st /\
    dconsumer_remaining st <= BYTES_TO_PRODUCE /\
    dconsumer_remaining st - dproducer_remaining st =
      Bbq.nelem (dqueue st) /\
    Vbq.contents (vbq_of_bbq (dqueue st)) (dheap st) =
      fill_bytes (dconsumer_remaining st) (Bbq.nelem (dqueue st)).
Proof.
  assert (Hfuel : (Z.to_nat MAX_BYTES_PER_OP < 1025)%nat)
    by (apply Nat.ltb_lt; vm_compute; reflexivity).
  assert (Hsize : 0 < QUEUE_SIZE < SizeT.modulus)
    by (split; reflexivity).
  assert (Htotal : 0 <= BYTES_TO_PRODUCE < SizeT.modulus)
    by (split; [discriminate | reflexivity]).
  exact (conj Hfuel (conj Hsize (conj Htotal
           (bbq_driver_assertions_hold 1025 1000 QUEUE_SIZE BYTES_TO_PRODUCE
              (fun _ => x00) _ Hfuel Hsize Htotal)))).
Defined.

(** * [abq] and [bq] *)

(** X23: [bq] computes the slices of [abq] from two cursors alone.  For
    a [bq] state within I1, the [abq] whose indices are the cursors'
    indices, whose count is the number of bytes held and whose size is
    the capacity satisfies the invariant of [abq]; the two queries of
    [abq] on it return the pointers and the lengths [bq_pushbuf] and
    [bq_popbuf] return; and a commit of [count] bytes, at most the free
    space for a push and at most the bytes held for a pop, leads to the
    [abq] of the state [bq_push] or [bq_pop] leads to. *)
Theorem abq_agrees_with_bq (q : bq) (count : Z) :
  wf q -> I1 q ->
  Vbq.vinv (vbq_of_abq (abq_of_bq q)) /\
  Abq.abq_queue_get_push_buf (abq_of_bq q) = (pushbuf_ptr q, pushbuf_len q) /\
  Abq.abq_queue_get_pop_buf (abq_of_bq q) = (popbuf_ptr q, popbuf_len q) /\
  (0 <= count <= capacity q - used q ->
   Abq.abq_queue_commit_push (abq_of_bq q) count =
     abq_of_bq (after (bq_push count) q)) /\
  (0 <= count <= used q ->
   Abq.abq_queue_commit_pop (abq_of_bq q) count =
     abq_of_bq (after (bq_pop count) q)).
Proof.
  intros Hwf Hinv.
  pose proof (capacity_bounds q Hwf) as Hcap.
  pose proof (index_range q Hwf (head q)) as Hh.
  pose proof (index_range q Hwf (tail q)) as Ht.
  pose proof Hinv as Hu. unfold I1 in Hu.
  assert (Hv : Vbq.vinv (vbq_of_abq (abq_of_bq q))).
  { constructor; unfold abq_of_bq; abq_cbn; try lia.
    rewrite <- (index_after_add q (head q) (used q) Hwf).
    rewrite (head_plus_used q Hwf). reflexivity. }
  split; [exact Hv|].
  destruct (abq_lengths _ Hv) as [-> ->].
  unfold abq_of_bq at 1 2 3 4 5 6 7 8 9 10. abq_cbn.
  rewrite pushbuf_ptr_eq, popbuf_ptr_eq.
  rewrite (pushbuf_len_min_eq q Hwf Hinv), (popbuf_len_min_eq q Hwf Hinv).
  split; [reflexivity|]. split; [reflexivity|]. split.
  - intros Hc. rewrite after_push.
    unfold Abq.abq_queue_commit_push, abq_of_bq. abq_cbn.
    cbn [set_tail head tail mask data].
    rewrite (index_after_add q (tail q) count Hwf).
    rewrite (used_after_push q count) by lia.
    replace ((tail q & mask q) + count)%sz with ((tail q & mask q)%sz + count)
      by (unfold SizeT.add at 1; rewrite wrap_small;
          [reflexivity | unfold SizeT.in_range; lia]).
    replace (used q + count)%sz with (used q + count)
      by (unfold SizeT.add; rewrite wrap_small;
          [reflexivity | unfold SizeT.in_range; lia]).
    reflexivity.
  - intros Hc. rewrite after_pop.
    unfold Abq.abq_queue_commit_pop, abq_of_bq. abq_cbn.
    cbn [set_head head tail mask data].
    rewrite (index_after_add q (head q) count Hwf).
    rewrite (used_after_pop q count) by lia.
    replace ((head q & mask q) + count)%sz with ((head q & mask q)%sz + count)
      by (unfold SizeT.add at 1; rewrite wrap_small;
          [reflexivity | unfold SizeT.in_range; lia]).
    replace (used q - count)%sz with (used q - count)
      by (unfold SizeT.sub; rewrite wrap_small;
          [reflexivity | unfold SizeT.in_range; lia]).
    reflexivity.
Qed.

Lemma abq_agrees_with_bq_witness :
  let q := {| head := SizeT.max - 1; tail := 1; mask := 3; cap_lg2 := 2;
              data := 1000 |} in
  wf q /\ I1 q /\
  abq_of_bq q = {| Abq.data := 1000; Abq.head := 2; Abq.tail := 1;
                   Abq.nelem := 3; Abq.size := 4 |} /\
  Abq.abq_queue_get_push_buf (abq_of_bq q) = (pushbuf_ptr q, pushbuf_len q) /\
  Abq.abq_queue_get_pop_buf (abq_of_bq q) = (popbuf_ptr q, popbuf_len q).
Proof.
  assert (Hwf : wf {| head := SizeT.max - 1; tail := 1; mask := 3;
                      cap_lg2 := 2; data := 1000 |})
    by (apply (wf_concrete (SizeT.max - 1) 1 2 1000); reflexivity).
  assert (Hinv : I1 {| head := SizeT.max - 1; tail := 1; mask := 3;
                       cap_lg2 := 2; data := 1000 |})
    by (apply I1_concrete; reflexivity).
  pose proof (abq_agrees_with_bq _ 0 Hwf Hinv) as (_ & H1 & H2 & _).
  exact (conj Hwf (conj Hinv (conj eq_refl (conj H1 H2)))).
Defined.
